(** * Negentropy: range-based set reconciliation (cpp/Negentropy.h)

    A shallow embedding of the C++ header [cpp/Negentropy.h] and the
    properties of its codec, boundary policy, range engine and output
    scheduler.

    Conventions of the embedding.
    - [uint64_t] values are [Z] with the wrap-around written out ([wrap64]).
    - A [char] of a [std::string] is a [Z] in [0, 256); a string of bytes is
      a [list Z].  The code only ever inspects the low eight bits of a
      [char], so its signedness plays no role.
    - Sizes of strings and vectors ([size_t]) and vector iterators are [nat]
      (indices into the list); they are not wrapped.
    - A C++ exception ([negentropy::err]) is the [Err] result carrying the
      message; the object that threw is not used afterwards. *)

From Stdlib Require Import String.
From Stdlib Require Import ZArith List Bool Lia Permutation.
Import ListNotations.
Open Scope Z_scope.

(** ** Errors *)

Inductive result (A : Type) : Type :=
| Ok (a : A)
| Err (msg : string).
Arguments Ok {A} a.
Arguments Err {A} msg.

Definition bind {A B : Type} (r : result A) (k : A -> result B) : result B :=
  match r with
  | Ok a => k a
  | Err m => Err m
  end.

Notation "x <- r ;; k" := (bind r (fun x => k))
  (at level 61, r at next level, right associativity).
Notation "' p <- r ;; k" := (bind r (fun x => let p := x in k))
  (at level 61, p pattern, r at next level, right associativity).

(** ** Machine integers and byte strings *)

Definition bytes := list Z.

Definition U64 : Z := 2 ^ 64.
Definition MAX_U64 : Z := U64 - 1.
Definition wrap64 (z : Z) : Z := z mod U64.

Definition is_u64 (z : Z) : Prop := 0 <= z < U64.
Definition is_byte (z : Z) : Prop := 0 <= z < 256.

Definition zlen {A : Type} (l : list A) : Z := Z.of_nat (length l).

(** ** Decoding *)

(** [getBytes(encoded, n)]: the first [n] bytes and the rest of the view. *)
Definition getBytes (encoded : bytes) (n : Z) : result (bytes * bytes) :=
  if zlen encoded <? n then Err "parse ends prematurely"%string
  else Ok (firstn (Z.to_nat n) encoded, skipn (Z.to_nat n) encoded).

(** The [while (1)] loop of [decodeVarInt]; every turn drops one byte of the
    view, so the recursion is on the view. *)
Fixpoint decodeVarInt_loop (res : Z) (encoded : bytes) : result (Z * bytes) :=
  match encoded with
  | [] => Err "premature end of varint"%string
  | byte :: encoded' =>
      let res' := Z.lor (wrap64 (Z.shiftl res 7)) (Z.land byte 127) in
      if Z.land byte 128 =? 0 then Ok (res', encoded')
      else decodeVarInt_loop res' encoded'
  end.

Definition decodeVarInt (encoded : bytes) : result (Z * bytes) :=
  decodeVarInt_loop 0 encoded.

(** [decodeTimestampIn]: the result is (timestamp, rest of the view, new
    [lastTimestampIn]). *)
Definition decodeTimestampIn (encoded : bytes) (lastTimestampIn : Z)
  : result (Z * bytes * Z) :=
  '(v, encoded') <- decodeVarInt encoded ;;
  let timestamp := if v =? 0 then MAX_U64 else v - 1 in
  let timestamp := wrap64 (timestamp + lastTimestampIn) in
  let timestamp := if timestamp <? lastTimestampIn then MAX_U64 else timestamp in
  Ok (timestamp, encoded', timestamp).

(** ** Encoding *)

(** The [while (n)] loop of [encodeVarInt], pushing the low seven bits at the
    back of [o].  A [uint64_t] is exhausted after ten shifts by seven; the
    loop is bounded by [fuel] ([encodeVarInt_loop_fuel] shows ten is enough). *)
Fixpoint encodeVarInt_loop (fuel : nat) (n : Z) (o : bytes) : bytes :=
  match fuel with
  | O => o
  | S fuel' =>
      if n =? 0 then o
      else encodeVarInt_loop fuel' (Z.shiftr n 7) (o ++ [Z.land n 127])
  end.

(** [for (i = 0; i < o.size() - 1; i++) o[i] |= 0x80] *)
Fixpoint set_continuation (o : bytes) : bytes :=
  match o with
  | [] => []
  | [b] => [b]
  | b :: o' => Z.lor b 128 :: set_continuation o'
  end.

Definition encodeVarInt (n : Z) : bytes :=
  if n =? 0 then [0]
  else set_continuation (rev (encodeVarInt_loop 10 n [])).

(** [encodeTimestampOut]: the result is (bytes, new [lastTimestampOut]). *)
Definition encodeTimestampOut (timestamp lastTimestampOut : Z) : bytes * Z :=
  if timestamp =? MAX_U64 then (encodeVarInt 0, MAX_U64)
  else
    let temp := timestamp in
    let timestamp := wrap64 (timestamp - lastTimestampOut) in
    (encodeVarInt (wrap64 (timestamp + 1)), temp).

(** ** Byte strings: equality and order of [std::string_view] *)

Fixpoint bytes_eqb (a b : bytes) : bool :=
  match a, b with
  | [], [] => true
  | x :: a', y :: b' => (x =? y) && bytes_eqb a' b'
  | _, _ => false
  end.

(** [operator<] of views: bytewise on unsigned values, a proper prefix is
    smaller. *)
Fixpoint bytes_ltb (a b : bytes) : bool :=
  match a, b with
  | _, [] => false
  | [], _ :: _ => true
  | x :: a', y :: b' =>
      if x <? y then true else if y <? x then false else bytes_ltb a' b'
  end.

Fixpoint xor_bytes (a b : bytes) : bytes :=
  match a, b with
  | x :: a', y :: b' => Z.lxor x y :: xor_bytes a' b'
  | _, _ => []
  end.

(** ** [struct XorElem] *)

Module XorElem.

(** [id] is the whole buffer [char id[32]]; [idSize] says how much of it is
    the id. *)
Record t : Type := mk {
  timestamp : Z;
  idSize : Z;
  id : bytes
}.

(** [XorElem()] *)
Definition default : t := mk 0 32 (repeat 0 32%nat).

(** [XorElem(uint64_t timestamp, std::string_view id_)]: [memset] then
    [memcpy] of the id at the front of the buffer. *)
Definition make (timestamp : Z) (id_ : bytes) : result t :=
  if 32 <? zlen id_ then Err "id too big"%string
  else Ok (mk timestamp (zlen id_) (id_ ++ repeat 0 (32 - length id_)%nat)).

(** [getId()] *)
Definition getId (e : t) : bytes := firstn (Z.to_nat (idSize e)) (id e).

(** [getId(uint64_t subSize)]: [getId().substr(0, subSize)] *)
Definition getIdSub (e : t) (subSize : Z) : bytes :=
  firstn (Z.to_nat subSize) (getId e).

(** [operator^=]: the 32 bytes of the buffers, nothing else. *)
Definition xor (a other : t) : t :=
  mk (timestamp a) (idSize a) (xor_bytes (id a) (id other)).

(** [operator==] *)
Definition eqb (a other : t) : bool :=
  (timestamp a =? timestamp other) && bytes_eqb (getId a) (getId other).

(** [operator<] *)
Definition ltb (a b : t) : bool :=
  if negb (timestamp a =? timestamp b) then timestamp a <? timestamp b
  else bytes_ltb (getId a) (getId b).

(** What every constructor establishes: a 32-byte buffer, an id of at most
    32 bytes, zero bytes behind the id. *)
Definition wf (e : t) : Prop :=
  length (id e) = 32%nat /\ 0 <= idSize e <= 32 /\
  (forall i, (Z.to_nat (idSize e) <= i)%nat -> nth i (id e) 0 = 0).

End XorElem.

(** ** [struct Negentropy] *)

Record BoundOutput : Type := mkBoundOutput {
  start : XorElem.t;
  end_ : XorElem.t;          (* the field [end] *)
  payload : bytes
}.

Record Negentropy : Type := mkNegentropy {
  idSize : Z;
  items : list XorElem.t;
  sealed : bool;
  isInitiator : bool;
  frameSizeLimit : Z;
  pendingOutputs : list BoundOutput   (* front of the deque first *)
}.

(** [Negentropy(uint64_t idSize)] *)
Definition new (idSize : Z) : result Negentropy :=
  if (idSize <? 8) || (32 <? idSize) then Err "idSize invalid"%string
  else Ok (mkNegentropy idSize [] false false 0 []).

Definition addItem (st : Negentropy) (createdAt : Z) (id : bytes)
  : result Negentropy :=
  if sealed st then Err "already sealed"%string
  else
    e <- XorElem.make createdAt id ;;
    Ok (mkNegentropy (idSize st) (items st ++ [e]) (sealed st)
          (isInitiator st) (frameSizeLimit st) (pendingOutputs st)).

(** [std::sort] with [operator<].  Elements that [operator<] does not order
    have the same timestamp and the same id, so the sorted vector does not
    depend on the algorithm; an insertion sort stands for it. *)
Fixpoint sort_insert (e : XorElem.t) (l : list XorElem.t) : list XorElem.t :=
  match l with
  | [] => [e]
  | x :: l' => if XorElem.ltb e x then e :: l else x :: sort_insert e l'
  end.

Definition sort (l : list XorElem.t) : list XorElem.t :=
  fold_right sort_insert [] l.

Definition seal (st : Negentropy) : result Negentropy :=
  if sealed st then Err "already sealed"%string
  else
    Ok (mkNegentropy (idSize st) (sort (rev (items st))) true
          (isInitiator st) (frameSizeLimit st) (pendingOutputs st)).

(** *** Encoding of bounds *)

(** [encodeBound]: the result is (bytes, new [lastTimestampOut]). *)
Definition encodeBound (idSize : Z) (bound : XorElem.t) (lastTimestampOut : Z)
  : bytes * Z :=
  let '(ts, lastTimestampOut) :=
    encodeTimestampOut (XorElem.timestamp bound) lastTimestampOut in
  (ts ++ encodeVarInt (XorElem.idSize bound) ++ XorElem.getIdSub bound idSize,
   lastTimestampOut).

(** [decodeBound]: the result is (bound, rest of the view, new
    [lastTimestampIn]). *)
Definition decodeBound (encoded : bytes) (lastTimestampIn : Z)
  : result (XorElem.t * bytes * Z) :=
  '(timestamp, encoded, lastTimestampIn) <-
     decodeTimestampIn encoded lastTimestampIn ;;
  '(len, encoded) <- decodeVarInt encoded ;;
  '(b, encoded) <- getBytes encoded len ;;
  e <- XorElem.make timestamp b ;;
  Ok (e, encoded, lastTimestampIn).

(** *** Boundary policy *)

(** The [for] loop of [getMinimalBound], [fuel] turns left, at index [i].
    [currKey[i]] is an unchecked read through the view, that is a read of
    the 32-byte buffer of the element. *)
Fixpoint sharedPrefix_loop (fuel : nat) (i : nat) (curr prev : XorElem.t)
    (sharedPrefixBytes : Z) : Z :=
  match fuel with
  | O => sharedPrefixBytes
  | S fuel' =>
      if negb (nth i (XorElem.id curr) 0 =? nth i (XorElem.id prev) 0)
      then sharedPrefixBytes
      else sharedPrefix_loop fuel' (S i) curr prev (sharedPrefixBytes + 1)
  end.

Definition getMinimalBound (idSize : Z) (prev curr : XorElem.t)
  : result XorElem.t :=
  if negb (XorElem.timestamp curr =? XorElem.timestamp prev) then
    XorElem.make (XorElem.timestamp curr) []
  else
    let sharedPrefixBytes :=
      sharedPrefix_loop (Z.to_nat idSize) 0 curr prev 0 in
    XorElem.make (XorElem.timestamp curr)
      (firstn (Z.to_nat (sharedPrefixBytes + 1)) (XorElem.getId curr)).

(** *** Bit fields *)

Fixpoint list_update {A : Type} (l : list A) (i : nat) (f : A -> A) : list A :=
  match l, i with
  | [], _ => []
  | x :: l', O => f x :: l'
  | x :: l', S i' => x :: list_update l' i' f
  end.

Definition encodeBitField (inds : list Z) : bytes :=
  match inds with
  | [] => []
  | i0 :: inds' =>
      let max := fold_left Z.max inds' i0 in
      let bitField := repeat 0 (Z.to_nat (wrap64 (max + 8) / 8)) in
      fold_left
        (fun bitField ind =>
           list_update bitField (Z.to_nat (ind / 8))
             (fun b => Z.lor b (Z.shiftl 1 (ind mod 8))))
        inds bitField
  end.

Definition bitFieldLookup (bitField : bytes) (ind : Z) : bool :=
  if zlen bitField <? wrap64 (ind + 8) / 8 then false
  else negb (Z.land (nth (Z.to_nat (ind / 8)) bitField 0)
                    (Z.shiftl 1 (ind mod 8)) =? 0).

(** *** Range engine: splitting *)

(** The items [lower, upper) of the vector. *)
Definition slice {A : Type} (l : list A) (lower upper : nat) : list A :=
  firstn (upper - lower) (skipn lower l).

(** [*it] for an iterator at index [i].  Past the end of the vector (only
    [getMinimalBound] of the last bucket of [splitRange] reads there, and
    the bound it makes is overwritten) the read yields [XorElem()]. *)
Definition item_at (items : list XorElem.t) (i : nat) : XorElem.t :=
  nth i items XorElem.default.

(** [XorElem ourXorSet; for (i = lower; i < upper; ++i) ourXorSet ^= *i;] *)
Definition xor_range (items : list XorElem.t) (lower upper : nat) : XorElem.t :=
  fold_left XorElem.xor (slice items lower upper) XorElem.default.

(** [outputs.back().end = upperBound] *)
Definition set_back_end (outputs : list BoundOutput) (upperBound : XorElem.t)
  : list BoundOutput :=
  match rev outputs with
  | [] => []
  | b :: r => rev r ++ [mkBoundOutput (start b) upperBound (payload b)]
  end.

(** The [for (i = 0; i < buckets; i++)] loop of [splitRange], with [fuel]
    turns left. *)
Fixpoint splitRange_buckets (fuel : nat) (i : Z) (idSize : Z)
    (items : list XorElem.t) (itemsPerBucket bucketsWithExtra : Z)
    (lowerBound : XorElem.t) (curr : nat) (prevBound : XorElem.t)
    (outputs : list BoundOutput) : result (list BoundOutput) :=
  match fuel with
  | O => Ok outputs
  | S fuel' =>
      let bucketEnd :=
        (curr + Z.to_nat itemsPerBucket
         + (if (i <? bucketsWithExtra)%Z then 1 else 0))%nat in
      let ourXorSet := xor_range items curr bucketEnd in
      let curr := bucketEnd in
      let payload := encodeVarInt 1 ++ XorElem.getIdSub ourXorSet idSize in
      e <- getMinimalBound idSize (item_at items (pred curr)) (item_at items curr) ;;
      let outputs :=
        outputs ++
        [mkBoundOutput (if i =? 0 then lowerBound else prevBound) e payload] in
      splitRange_buckets fuel' (i + 1) idSize items itemsPerBucket
        bucketsWithExtra lowerBound curr e outputs
  end.

Definition splitRange (idSize : Z) (items : list XorElem.t)
    (lower upper : nat) (lowerBound upperBound : XorElem.t)
    (outputs : list BoundOutput) : result (list BoundOutput) :=
  let numElems := Z.of_nat (upper - lower) in
  let buckets := 16 in
  if numElems <? buckets * 2 then
    let payload :=
      encodeVarInt 2 ++ encodeVarInt numElems ++
      concat (map (fun it => XorElem.getIdSub it idSize)
                  (slice items lower upper)) in
    Ok (outputs ++ [mkBoundOutput lowerBound upperBound payload])
  else
    let itemsPerBucket := numElems / buckets in
    let bucketsWithExtra := numElems mod buckets in
    outputs <- splitRange_buckets 16 0 idSize items itemsPerBucket
                 bucketsWithExtra lowerBound lower (item_at items lower)
                 outputs ;;
    Ok (set_back_end outputs upperBound).

(** *** Output scheduler *)

(** The [while (pendingOutputs.size())] loop of [buildOutput]: the result is
    the frame and what is left of the queue.  [p] is the front of the
    queue; [currBound = p.end], which the code runs after [pop_front], takes
    the end of that same output. *)
Fixpoint buildOutput_loop (idSize frameSizeLimit : Z)
    (pendingOutputs : list BoundOutput) (output : bytes)
    (currBound : XorElem.t) (lastTimestampOut : Z)
  : bytes * list BoundOutput :=
  match pendingOutputs with
  | [] => (output, [])
  | p :: pending' =>
      if XorElem.ltb (start p) currBound then (output, pendingOutputs)
      else
        let '(o, lastTimestampOut) :=
          if negb (XorElem.eqb currBound (start p)) then
            let '(b, l) := encodeBound idSize (start p) lastTimestampOut in
            (b ++ encodeVarInt 0, l)
          else ([], lastTimestampOut) in
        let '(b, lastTimestampOut) :=
          encodeBound idSize (end_ p) lastTimestampOut in
        let o := o ++ b ++ payload p in
        if negb (frameSizeLimit =? 0)
           && (frameSizeLimit <? zlen output + zlen o)
        then (output, pendingOutputs)
        else buildOutput_loop idSize frameSizeLimit pending' (output ++ o)
               (end_ p) lastTimestampOut
  end.

Definition buildOutput (st : Negentropy) : result (bytes * Negentropy) :=
  currBound <- XorElem.make 0 [] ;;
  let '(output, pending) :=
    buildOutput_loop (idSize st) (frameSizeLimit st) (pendingOutputs st) []
      currBound 0 in
  Ok (output,
      mkNegentropy (idSize st) (items st) (sealed st) (isInitiator st)
        (frameSizeLimit st) pending).

Definition initiate (st : Negentropy) (frameSizeLimit_ : Z)
  : result (bytes * Negentropy) :=
  if negb (sealed st) then Err "not sealed"%string
  else if negb (frameSizeLimit_ =? 0) && (frameSizeLimit_ <? 1024)
  then Err "frameSizeLimit too small"%string
  else
    lowerBound <- XorElem.make 0 [] ;;
    upperBound <- XorElem.make MAX_U64 [] ;;
    pending <- splitRange (idSize st) (items st) 0 (length (items st))
                 lowerBound upperBound (pendingOutputs st) ;;
    buildOutput (mkNegentropy (idSize st) (items st) (sealed st) true
                   frameSizeLimit_ pending).

(** *** Range engine: consuming a frame *)

Record TheirElem : Type := mkTheirElem {
  offset : Z;
  onBothSides : bool
}.

(** [std::unordered_map<std::string, TheirElem>]: an association list with
    one entry per key, kept in the order of insertion. *)
Definition TheirElems : Type := list (bytes * TheirElem).

Fixpoint find (m : TheirElems) (k : bytes) : option TheirElem :=
  match m with
  | [] => None
  | (k', v) :: m' => if bytes_eqb k' k then Some v else find m' k
  end.

(** [emplace] does nothing when the key is already in the map. *)
Definition emplace (m : TheirElems) (k : bytes) (v : TheirElem) : TheirElems :=
  match find m k with
  | Some _ => m
  | None => m ++ [(k, v)]
  end.

(** [e->second.onBothSides = true] for the entry of key [k]. *)
Fixpoint mark_onBothSides (m : TheirElems) (k : bytes) : TheirElems :=
  match m with
  | [] => []
  | (k', v) :: m' =>
      if bytes_eqb k' k then (k', mkTheirElem (offset v) true) :: m'
      else (k', v) :: mark_onBothSides m' k
  end.

(** The local variables of [reconcileAux] that live across the records of a
    frame, with the view [query] and the two sinks [haveIds], [needIds]. *)
Record Walk : Type := mkWalk {
  query : bytes;
  prevBound : XorElem.t;
  prevIndex : nat;
  lastTimestampIn : Z;
  outputs : list BoundOutput;
  haveIds : list bytes;
  needIds : list bytes
}.

(** [std::upper_bound(first, items.end(), value)]: the first position at or
    after [first] whose item is greater than [value], else the end.  On the
    sorted vector of a sealed object the binary search of the library finds
    that same position. *)
Fixpoint upper_bound_from (l : list XorElem.t) (i : nat) (value : XorElem.t)
  : nat :=
  match l with
  | [] => i
  | e :: l' =>
      if XorElem.ltb value e then i else upper_bound_from l' (S i) value
  end.

Definition upper_bound (items : list XorElem.t) (first : nat)
    (value : XorElem.t) : nat :=
  upper_bound_from (skipn first items) first value.

(** [for (i = 0; i < numIds; i++) theirElems.emplace(getBytes(query, idSize),
    TheirElem{i, false})], with [n] turns left. *)
Fixpoint readTheirElems (n : nat) (i : Z) (idSize : Z) (query : bytes)
    (theirElems : TheirElems) : result (TheirElems * bytes) :=
  match n with
  | O => Ok (theirElems, query)
  | S n' =>
      '(e, query) <- getBytes query idSize ;;
      readTheirElems n' (i + 1) idSize query
        (emplace theirElems e (mkTheirElem i false))
  end.

(** Body of [for (auto it = lower; it < upper; ++it)] of the IdList case. *)
Definition visitOurs (isInitiator : bool)
    (acc : TheirElems * list bytes * list bytes) (it : XorElem.t)
  : TheirElems * list bytes * list bytes :=
  let '(theirElems, haveIds, responseHaveIds) := acc in
  match find theirElems (XorElem.getId it) with
  | None =>
      if isInitiator
      then (theirElems, haveIds ++ [XorElem.getId it], responseHaveIds)
      else (theirElems, haveIds, responseHaveIds ++ [XorElem.getId it])
  | Some _ =>
      (mark_onBothSides theirElems (XorElem.getId it), haveIds, responseHaveIds)
  end.

(** Body of [for (const auto &[k, v] : theirElems)]. *)
Definition visitTheirs (isInitiator : bool) (acc : list bytes * list Z)
    (kv : bytes * TheirElem) : list bytes * list Z :=
  let '(needIds, responseNeedIndices) := acc in
  if negb (onBothSides (snd kv)) then
    if isInitiator then (needIds ++ [fst kv], responseNeedIndices)
    else (needIds, responseNeedIndices ++ [offset (snd kv)])
  else acc.

(** [for (i = 0; i < numIds; i++) needIds.emplace_back(getBytes(query,
    idSize))], with [n] turns left. *)
Fixpoint readNeedIds (n : nat) (idSize : Z) (query : bytes)
    (needIds : list bytes) : result (list bytes * bytes) :=
  match n with
  | O => Ok (needIds, query)
  | S n' =>
      '(e, query) <- getBytes query idSize ;;
      readNeedIds n' idSize query (needIds ++ [e])
  end.

(** [for (auto it = lower; it < upper; ++it) if (bitFieldLookup(bitField,
    it - lower)) haveIds.emplace_back(it->getId())], at offset [j]. *)
Fixpoint haveFromBitField (bitField : bytes) (ours : list XorElem.t) (j : Z)
    (haveIds : list bytes) : list bytes :=
  match ours with
  | [] => haveIds
  | it :: ours' =>
      haveFromBitField bitField ours' (j + 1)
        (if bitFieldLookup bitField j then haveIds ++ [XorElem.getId it]
         else haveIds)
  end.

Section Reconcile.

(** The order in which a range-[for] visits a [std::unordered_map] is not
    fixed by the language; it is a parameter here.  It visits every entry
    once ([map_order_spec] below). *)
Variable map_order : TheirElems -> TheirElems.

(** [mode == 1], Fingerprint: the rest of the view and the outputs. *)
Definition onFingerprint (st : Negentropy) (w : Walk) (currBound : XorElem.t)
    (query : bytes) (lower upper : nat)
  : result (bytes * list BoundOutput) :=
  '(b, query) <- getBytes query (idSize st) ;;
  theirXorSet <- XorElem.make 0 b ;;
  let ourXorSet := xor_range (items st) lower upper in
  if negb (bytes_eqb (XorElem.getId theirXorSet)
                     (XorElem.getIdSub ourXorSet (idSize st)))
  then
    outs <- splitRange (idSize st) (items st) lower upper (prevBound w)
              currBound (outputs w) ;;
    Ok (query, outs)
  else Ok (query, outputs w).

(** [mode == 2], IdList: the rest of the view, the outputs and the sinks. *)
Definition onIdList (st : Negentropy) (w : Walk) (currBound : XorElem.t)
    (query : bytes) (lower upper : nat)
  : result (bytes * list BoundOutput * list bytes * list bytes) :=
  '(numIds, query) <- decodeVarInt query ;;
  '(theirElems, query) <-
     readTheirElems (Z.to_nat numIds) 0 (idSize st) query [] ;;
  let '(theirElems, haveIds, responseHaveIds) :=
    fold_left (visitOurs (isInitiator st)) (slice (items st) lower upper)
      (theirElems, haveIds w, []) in
  let '(needIds, responseNeedIndices) :=
    fold_left (visitTheirs (isInitiator st)) (map_order theirElems)
      (needIds w, []) in
  if negb (isInitiator st) then
    let bitField := encodeBitField responseNeedIndices in
    let payload :=
      encodeVarInt 3 ++
      encodeVarInt (zlen responseHaveIds) ++ concat responseHaveIds ++
      encodeVarInt (zlen bitField) ++ bitField in
    Ok (query, outputs w ++ [mkBoundOutput (prevBound w) currBound payload],
        haveIds, needIds)
  else Ok (query, outputs w, haveIds, needIds).

(** [mode == 3], IdListResponse: the rest of the view and the sinks. *)
Definition onIdListResponse (st : Negentropy) (w : Walk) (query : bytes)
    (lower upper : nat) : result (bytes * list bytes * list bytes) :=
  if negb (isInitiator st) then Err "unexpected IdListResponse"%string
  else
    '(numIds, query) <- decodeVarInt query ;;
    '(needIds, query) <-
       readNeedIds (Z.to_nat numIds) (idSize st) query (needIds w) ;;
    '(bitFieldSize, query) <- decodeVarInt query ;;
    '(bitField, query) <- getBytes query bitFieldSize ;;
    Ok (query,
        haveFromBitField bitField (slice (items st) lower upper) 0 (haveIds w),
        needIds).

(** One turn of [while (query.size())]: one record of the frame. *)
Definition reconcileAux_step (st : Negentropy) (w : Walk) : result Walk :=
  '(currBound, query, lastTimestampIn) <-
     decodeBound (query w) (lastTimestampIn w) ;;
  '(mode, query) <- decodeVarInt query ;;
  let lower := prevIndex w in
  let upper := upper_bound (items st) (prevIndex w) currBound in
  '(query, outputs, haveIds, needIds) <-
     (if mode =? 0 then Ok (query, outputs w, haveIds w, needIds w)
      else if mode =? 1 then
        '(query, outputs) <- onFingerprint st w currBound query lower upper ;;
        Ok (query, outputs, haveIds w, needIds w)
      else if mode =? 2 then onIdList st w currBound query lower upper
      else if mode =? 3 then
        '(query, haveIds, needIds) <-
           onIdListResponse st w query lower upper ;;
        Ok (query, outputs w, haveIds, needIds)
      else Err "unexpected mode"%string) ;;
  Ok (mkWalk query currBound upper lastTimestampIn outputs haveIds needIds).

(** [while (query.size())].  Every turn that does not throw shortens the
    view, so [length query] turns are enough
    ([reconcileAux_loop_exhausts]). *)
Fixpoint reconcileAux_loop (fuel : nat) (st : Negentropy) (w : Walk)
  : result Walk :=
  match query w with
  | [] => Ok w
  | _ :: _ =>
      match fuel with
      | O => Ok w
      | S fuel' =>
          w' <- reconcileAux_step st w ;;
          reconcileAux_loop fuel' st w'
      end
  end.

(** [reconcileAux]: the new state and the two sinks. *)
Definition reconcileAux (st : Negentropy) (query : bytes)
    (haveIds0 needIds0 : list bytes)
  : result (Negentropy * list bytes * list bytes) :=
  if negb (sealed st) then Err "not sealed"%string
  else
    prevBound <- XorElem.make 0 [] ;;
    w <- reconcileAux_loop (length query) st
           (mkWalk query prevBound 0 0 [] haveIds0 needIds0) ;;
    Ok (mkNegentropy (idSize st) (items st) (sealed st) (isInitiator st)
          (frameSizeLimit st) (outputs w ++ pendingOutputs st),
        haveIds w, needIds w).

(** [std::string reconcile(std::string_view query)] *)
Definition reconcile (st : Negentropy) (query : bytes)
  : result (bytes * Negentropy) :=
  if isInitiator st
  then Err "initiator not asking for have/need IDs"%string
  else
    '(st, _, _) <- reconcileAux st query [] [] ;;
    buildOutput st.

(** [std::string reconcile(std::string_view query, std::vector<std::string>
    &haveIds, std::vector<std::string> &needIds)]: the frame, the two
    sinks and the new state. *)
Definition reconcile_have_need (st : Negentropy) (query : bytes)
    (haveIds needIds : list bytes)
  : result (bytes * list bytes * list bytes * Negentropy) :=
  if negb (isInitiator st)
  then Err "non-initiator asking for have/need IDs"%string
  else
    '(st, haveIds, needIds) <- reconcileAux st query haveIds needIds ;;
    '(output, st) <- buildOutput st ;;
    Ok (output, haveIds, needIds, st).

End Reconcile.

(** Every order of visit goes through each entry of the map once. *)
Definition map_order_spec (map_order : TheirElems -> TheirElems) : Prop :=
  forall m, Permutation (map_order m) m.

(** The order of insertion, one admissible order of visit. *)
Definition insertion_order (m : TheirElems) : TheirElems := m.

(** * Notions used in the statements *)

(** The bytes with a continuation bit that [encodeVarInt] puts in front of
    the last byte, for the part [m] of the number above its low seven bits. *)
Definition continuation_bytes (fuel : nat) (m : Z) : bytes :=
  map (fun b => Z.lor b 128) (rev (encodeVarInt_loop fuel m [])).

(** The number a string of bytes stands for in big-endian base 128. *)
Definition base128_value (bs : bytes) : Z :=
  fold_left (fun acc b => acc * 128 + Z.land b 127) bs 0.

(** The timestamps of a run of bounds, as [encodeBound] after [encodeBound]
    writes them: [lastTimestampOut] is threaded from one to the next. *)
Fixpoint encodeTimestamps (ts : list Z) (lastTimestampOut : Z) : bytes :=
  match ts with
  | [] => []
  | t :: ts' =>
      let '(b, lastTimestampOut) := encodeTimestampOut t lastTimestampOut in
      b ++ encodeTimestamps ts' lastTimestampOut
  end.

(** [n] timestamps read back, [lastTimestampIn] threaded likewise. *)
Fixpoint decodeTimestamps (n : nat) (encoded : bytes) (lastTimestampIn : Z)
  : result (list Z * bytes) :=
  match n with
  | O => Ok ([], encoded)
  | S n' =>
      '(t, encoded, lastTimestampIn) <-
         decodeTimestampIn encoded lastTimestampIn ;;
      '(ts, encoded) <- decodeTimestamps n' encoded lastTimestampIn ;;
      Ok (t :: ts, encoded)
  end.

(** Each timestamp is at least the one before it, the first at least
    [last]. *)
Fixpoint nondecreasing_from (last : Z) (ts : list Z) : Prop :=
  match ts with
  | [] => True
  | t :: ts' => last <= t /\ nondecreasing_from t ts'
  end.

(** The walks that [reconcileAux] goes through from a given one: zero or
    more records consumed without an exception. *)
Inductive walk_steps (map_order : TheirElems -> TheirElems) (st : Negentropy)
  : Walk -> Walk -> Prop :=
| walk_here w : walk_steps map_order st w w
| walk_next w w' w'' :
    walk_steps map_order st w w' ->
    reconcileAux_step map_order st w' = Ok w'' ->
    walk_steps map_order st w w''.

(** [XorElem(timestamp, "")], the bound with an empty id. *)
Definition empty_bound (timestamp : Z) : XorElem.t :=
  XorElem.mk timestamp 0 (repeat 0 32%nat).

(** The walk in which [reconcileAux] starts on a frame. *)
Definition walk0 (frame : bytes) (haveIds0 needIds0 : list bytes) : Walk :=
  mkWalk frame (empty_bound 0) 0 0 [] haveIds0 needIds0.

(** The record at the head of the view of a walk decodes up to its mode,
    which is [mode]. *)
Definition record_mode_at (w : Walk) (mode : Z) : Prop :=
  exists currBound q1 l1 q2,
    decodeBound (query w) (lastTimestampIn w) = Ok (currBound, q1, l1) /\
    decodeVarInt q1 = Ok (mode, q2).

(** The call ends in an exception: no value is returned. *)
Definition throws {A : Type} (r : result A) : Prop := exists msg, r = Err msg.

(** Sample data of the examples: a sealed responder with no items and
    [idSize] 8, and a frame of two records, a Skip up to timestamp 4 and an
    IdList without ids up to the end of the domain, with the walks before
    and after its second record. *)
Definition sample_responder : Negentropy := mkNegentropy 8 [] true false 0 [].

Definition sample_frame : bytes := [5; 0; 0; 0; 0; 2; 0].


Definition sample_walk0 : Walk := walk0 sample_frame [] [].

Definition sample_walk1 : Walk :=
  mkWalk [0; 0; 2; 0] (empty_bound 4) 0 4 [] [] [].

Definition sample_walk2 : Walk :=
  mkWalk [] (empty_bound MAX_U64) 0 MAX_U64
    [mkBoundOutput (empty_bound 4) (empty_bound MAX_U64) [3; 0; 0]] [] [].

(** The number of leading bytes that two byte strings share. *)
Fixpoint shared_prefix_len (a b : bytes) : nat :=
  match a, b with
  | x :: a', y :: b' => if x =? y then S (shared_prefix_len a' b') else O
  | _, _ => O
  end.

(** [a <= b] for elements, as [!(b < a)]. *)
Definition leb (a b : XorElem.t) : bool := negb (XorElem.ltb b a).

(** Index of the first item of bucket [i] when the [numElems] items from
    [lower] on are cut into 16 buckets of [numElems / 16] items, the first
    [numElems mod 16] buckets having one more. *)
Definition bucket_start (lower numElems i : nat) : nat :=
  (lower + i * (numElems / 16) + Nat.min i (numElems mod 16))%nat.

(** XOR of the 32-byte buffers of some elements. *)
Definition xor_ids (l : list XorElem.t) : bytes :=
  fold_left (fun acc e => xor_bytes acc (XorElem.id e)) l (repeat 0 32%nat).

(** The first [idSize] bytes of the buffer of an element: its id, followed
    by zero bytes when the id is shorter. *)
Definition padded_id (idSize : Z) (e : XorElem.t) : bytes :=
  firstn (Z.to_nat idSize) (XorElem.id e).

(** The minimal separating bound between two neighbours [prev] and
    [curr], in the words of the specification: the timestamp of [curr]
    with an empty id when the timestamps differ; otherwise with the first
    [k + 1] bytes of the id of [curr], [k] being the number of leading
    bytes that the two ids share within their first [idSize] bytes, read
    as the 32-byte buffers hold them ([padded_id]: for an id of [idSize]
    bytes the id itself, for a shorter one the id and the zeros behind
    it).  The element of a timestamp and an id holds the id at the front
    of a buffer of 32 bytes, zeros behind it. *)
Definition minimal_bound (idSize : Z) (prev curr : XorElem.t) : XorElem.t :=
  let prefix :=
    if XorElem.timestamp curr =? XorElem.timestamp prev
    then firstn (shared_prefix_len (padded_id idSize prev)
                                   (padded_id idSize curr) + 1)
                (XorElem.getId curr)
    else [] in
  XorElem.mk (XorElem.timestamp curr) (zlen prefix)
    (prefix ++ repeat 0 (32 - length prefix)%nat).

(** The minimal separating bound between the last item of bucket [i - 1]
    and the first item of bucket [i]. *)
Definition split_bound (idSize : Z) (items : list XorElem.t)
    (lower numElems i : nat) : XorElem.t :=
  minimal_bound idSize
    (item_at items (bucket_start lower numElems i - 1))
    (item_at items (bucket_start lower numElems i)).

(** [r] is the Fingerprint record of bucket [i].  With [final] the end of
    bucket 15 is [upperBound], as once [splitRange] is done; without, it is
    the minimal separating bound like the others, as inside its loop. *)
Definition is_bucket_record (final : bool) (idSize : Z)
    (items : list XorElem.t) (lower numElems : nat)
    (lowerBound upperBound : XorElem.t) (i : nat) (r : BoundOutput) : Prop :=
  payload r =
    encodeVarInt 1 ++
    firstn (Z.to_nat idSize)
      (xor_ids (slice items (bucket_start lower numElems i)
                            (bucket_start lower numElems (S i)))) /\
  (if (i =? 0)%nat then start r = lowerBound
   else start r = split_bound idSize items lower numElems i) /\
  (if final && (i =? 15)%nat then end_ r = upperBound
   else end_ r = split_bound idSize items lower numElems (S i)).

(** Sample items: 32 items with timestamps 0 to 31 and the same 8-byte id. *)
Definition sample_item (k : nat) : XorElem.t :=
  XorElem.mk (Z.of_nat k) 8 (repeat 65 8%nat ++ repeat 0 24%nat).

Definition sample_items : list XorElem.t := map sample_item (seq 0 32).

(** The bytes of one pending output on the wire, the Skip filler that
    fills the gap before it included, and [lastTimestampOut] after it. *)
Definition record_bytes (idSize : Z) (p : BoundOutput) (currBound : XorElem.t)
    (lastTimestampOut : Z) : bytes * Z :=
  let '(o, lastTimestampOut) :=
    if negb (XorElem.eqb currBound (start p)) then
      let '(b, l) := encodeBound idSize (start p) lastTimestampOut in
      (b ++ encodeVarInt 0, l)
    else ([], lastTimestampOut) in
  let '(b, lastTimestampOut) := encodeBound idSize (end_ p) lastTimestampOut in
  (o ++ b ++ payload p, lastTimestampOut).

(** A frame made of whole records: those of [ps], one after the other. *)
Fixpoint frame_of (idSize : Z) (ps : list BoundOutput) (currBound : XorElem.t)
    (lastTimestampOut : Z) : bytes :=
  match ps with
  | [] => []
  | p :: ps' =>
      let '(o, lastTimestampOut) :=
        record_bytes idSize p currBound lastTimestampOut in
      o ++ frame_of idSize ps' (end_ p) lastTimestampOut
  end.

(** Sample state with a frame limit: two pending outputs of which only the
    first fits in a frame of 1024 bytes. *)
Definition sample_capped : Negentropy :=
  mkNegentropy 8 [] true true 1024
    [mkBoundOutput (empty_bound 0) (empty_bound 5) (repeat 1 1000%nat);
     mkBoundOutput (empty_bound 5) (empty_bound MAX_U64) (repeat 2 100%nat)].

(** A sealed peer without items, before and after [initiate]. *)
Definition empty_peer (idSize : Z) : Negentropy :=
  mkNegentropy idSize [] true false 0 [].

Definition empty_initiator (idSize : Z) : Negentropy :=
  mkNegentropy idSize [] true true 0 [].

(** The ids of the body of an IdList as they come in the frame: [n] strings
    of [idSize] bytes. *)
Fixpoint read_ids (n : nat) (idSize : Z) (query : bytes)
  : result (list bytes * bytes) :=
  match n with
  | O => Ok ([], query)
  | S n' =>
      '(e, query) <- getBytes query idSize ;;
      '(ids, query) <- read_ids n' idSize query ;;
      Ok (e :: ids, query)
  end.

(** Position [j] holds the first occurrence of its id in [ids]. *)
Definition first_occurrence (ids : list bytes) (j : nat) : Prop :=
  exists k, nth_error ids j = Some k /\ ~ In k (firstn j ids).

(** The keys of the map with the offsets recorded for them. *)
Definition key_offsets (m : TheirElems) : list (bytes * Z) :=
  map (fun kv => (fst kv, offset (snd kv))) m.

(** The map holds one entry for each id of [ids], with the offset of the
    first occurrence of the id. *)
Definition entries_ok (ids : list bytes) (m : TheirElems) : Prop :=
  NoDup (map fst (key_offsets m)) /\
  (forall k o, In (k, o) (key_offsets m) ->
     exists j, o = Z.of_nat j /\ nth_error ids j = Some k /\
               ~ In k (firstn j ids)) /\
  (forall k, In k ids -> In k (map fst (key_offsets m))).

(** The entries of the map that no item of ours has marked. *)
Definition unseen (kv : bytes * TheirElem) : bool :=
  negb (onBothSides (snd kv)).

(** Sample id, and a peer that added the item [(5, sample_id)] twice and
    sealed. *)
Definition sample_id : bytes := repeat 65 8%nat.

Definition sample_dup_item : XorElem.t :=
  XorElem.mk 5 8 (sample_id ++ repeat 0 24%nat).

Definition sample_dup_peer : Negentropy :=
  mkNegentropy 8 [sample_dup_item; sample_dup_item] true false 0 [].

(** What [operator<] and [operator==] compare: the timestamp and the id. *)
Definition key (e : XorElem.t) : Z * bytes :=
  (XorElem.timestamp e, XorElem.getId e).

(** The vector is sorted for [operator<]: no item is below an earlier one. *)
Fixpoint sorted (l : list XorElem.t) : Prop :=
  match l with
  | [] => True
  | a :: t => Forall (fun b => leb a b = true) t /\ sorted t
  end.

(** A run of [addItem] calls, one per (timestamp, id) of the list. *)
Fixpoint addItems (st : Negentropy) (l : list (Z * bytes)) : result Negentropy :=
  match l with
  | [] => Ok st
  | (createdAt, id) :: l' =>
      st' <- addItem st createdAt id ;;
      addItems st' l'
  end.

(** What the constructor and the public operations keep true of an object:
    a valid [idSize], constructor-made items, sorted once sealed, and a
    frame limit that is 0 or at least 1024. *)
Definition invariant (st : Negentropy) : Prop :=
  8 <= idSize st <= 32 /\
  Forall XorElem.wf (items st) /\
  (sealed st = true -> sorted (items st)) /\
  (frameSizeLimit st = 0 \/ 1024 <= frameSizeLimit st).

(** The element that [XorElem(timestamp, id)] makes of a pair. *)
Definition elem_of (p : Z * bytes) : XorElem.t :=
  XorElem.mk (fst p) (zlen (snd p))
    (snd p ++ repeat 0 (32 - length (snd p))%nat).

(** The payload of a pending output starts with the mode byte [m]. *)
Definition payload_mode (r : BoundOutput) (m : Z) : Prop :=
  exists body, payload r = m :: body.

(** Each output starts where the one before it ends, the first at [cb]. *)
Fixpoint linked (cb : XorElem.t) (ps : list BoundOutput) : Prop :=
  match ps with
  | [] => True
  | p :: ps' => start p = cb /\ linked (end_ p) ps'
  end.

(** No output starts below the end of the one before it, the first not
    below [cb]: the order in which [buildOutput] goes on. *)
Fixpoint ascending (cb : XorElem.t) (ps : list BoundOutput) : Prop :=
  match ps with
  | [] => True
  | p :: ps' => XorElem.ltb (start p) cb = false /\ ascending (end_ p) ps'
  end.

(** The modes a peer may put in its queue: Fingerprint and IdList for
    both roles, IdListResponse for a non-initiator only. *)
Definition queued_mode_ok (isInitiator : bool) (r : BoundOutput) : Prop :=
  payload_mode r 1 \/ payload_mode r 2 \/
  (isInitiator = false /\ payload_mode r 3).

(** The ids of some items, in order. *)
Definition ids_of (l : list XorElem.t) : list bytes := map XorElem.getId l.

(** [x] is one of the ids of [l]. *)
Definition mem_id (x : bytes) (l : list bytes) : bool :=
  existsb (bytes_eqb x) l.

(** An item as a session with [idSize = sz] holds it: made by the
    constructor from an id of [sz] bytes, with a timestamp below
    [MAX_U64]. *)
Definition item_ok (sz : Z) (e : XorElem.t) : Prop :=
  XorElem.wf e /\ XorElem.idSize e = sz /\
  0 <= XorElem.timestamp e < MAX_U64.

(** A sealed peer that holds [its] and has nothing queued. *)
Definition peer (sz : Z) (its : list XorElem.t) (role : bool) : Negentropy :=
  mkNegentropy sz its true role 0 [].

(** The ids of [SB] that are not ids of [SA]: what a responder holding
    [SB] reports as missing on the side of an initiator holding [SA]. *)
Definition reply_ids (SA SB : list XorElem.t) : list bytes :=
  filter (fun x => negb (mem_id x (ids_of SA))) (ids_of SB).

(** Sample data of the examples: items with an 8-byte id made of one byte
    value, two small sets that share one item, and an object before and
    after [seal]. *)
Definition sample_elem (t b : Z) : XorElem.t := elem_of (t, repeat b 8%nat).

Definition sample_left : list XorElem.t := [sample_elem 1 65; sample_elem 2 66].

Definition sample_right : list XorElem.t := [sample_elem 2 66; sample_elem 3 67].

Definition sample_adds : list (Z * bytes) :=
  [(2, repeat 66 8%nat); (1, repeat 65 8%nat)].

Definition sample_unsealed : Negentropy :=
  mkNegentropy 8 (map elem_of sample_adds) false false 0 [].

Definition sample_sealed : Negentropy :=
  mkNegentropy 8 sample_left true false 0 [].

(** The body of an IdList that lists three ids, the first and the last
    being the same: an id that [sample_left] lacks, an id that it holds,
    and the first id again. *)
Definition sample_received : bytes :=
  [3] ++ repeat 67 8%nat ++ repeat 65 8%nat ++ repeat 67 8%nat.

(** Items whose ids have more than [idSize = 8] bytes: 32 pairs with
    timestamp 5 and ids of 10 bytes that agree on their first 9 bytes, the
    elements that [addItem] makes of them, and the element of the first 9
    bytes. *)
Definition sample_long_id (k : nat) : bytes :=
  repeat 65 8%nat ++ [1; Z.of_nat k].

Definition sample_long_adds : list (Z * bytes) :=
  map (fun k => (5, sample_long_id k)) (seq 0 32).

Definition sample_long_items : list XorElem.t := map elem_of sample_long_adds.

Definition sample_long_bound : XorElem.t := elem_of (5, repeat 65 8%nat ++ [1]).


(** An initiator that holds [sample_left] with one Fingerprint output
    queued for the range up to timestamp 5, and a frame of one Fingerprint
    record over the whole domain whose fingerprint is not that of
    [sample_left]. *)
Definition sample_initiator : Negentropy :=
  mkNegentropy 8 sample_left true true 0
    [mkBoundOutput (empty_bound 0) (empty_bound 5) ([1] ++ repeat 0 8%nat)].

Definition sample_fingerprint_frame : bytes :=
  [0; 0; 1] ++ [1; 0; 0; 0; 0; 0; 0; 0].

(* End of the notions. *)

(** * Properties *)

(** ** Bits of a byte *)

Lemma land_mul128_low q d : 0 <= d < 128 -> Z.land (q * 128) d = 0.
Proof.
  intros Hd. apply Z.bits_inj'. intros i Hi.
  rewrite Z.land_spec, Z.bits_0.
  destruct (Z.ltb_spec i 7) as [Hlt | Hge].
  - change 128 with (2 ^ 7). rewrite Z.mul_pow2_bits_low by lia. reflexivity.
  - destruct (Z.eq_dec d 0) as [-> | Hnz].
    + rewrite Z.bits_0. apply andb_false_r.
    + rewrite (Z.bits_above_log2 d i); [apply andb_false_r | lia |].
      apply Z.log2_lt_pow2; [lia |].
      apply Z.lt_le_trans with (2 ^ 7); [simpl; lia |].
      apply Z.pow_le_mono_r; lia.
Qed.

Lemma lor_mul128 q d : 0 <= d < 128 -> Z.lor (q * 128) d = q * 128 + d.
Proof.
  intros Hd. pose proof (land_mul128_low q d Hd) as H0.
  rewrite <- Z.lxor_lor by exact H0.
  symmetry. apply Z.add_nocarry_lxor. exact H0.
Qed.

Lemma lor_128 d : 0 <= d < 128 -> Z.lor d 128 = d + 128.
Proof.
  intros Hd. rewrite Z.lor_comm. change 128 with (1 * 128) at 1.
  rewrite lor_mul128 by exact Hd. lia.
Qed.

Lemma land_127 a : Z.land a 127 = a mod 128.
Proof. change 127 with (Z.ones 7). rewrite Z.land_ones by lia. reflexivity. Qed.

Lemma land_128 a : Z.land a 128 = if Z.testbit a 7 then 128 else 0.
Proof.
  apply Z.bits_inj'. intros i Hi. rewrite Z.land_spec.
  change 128 with (2 ^ 7) at 1. rewrite Z.pow2_bits_eqb by lia.
  destruct (Z.eqb_spec 7 i) as [<- | Hne].
  - rewrite andb_true_r.
    destruct (Z.testbit a 7) eqn:E; [reflexivity | now rewrite Z.bits_0].
  - rewrite andb_false_r. destruct (Z.testbit a 7).
    + change 128 with (2 ^ 7). rewrite Z.pow2_bits_eqb by lia.
      symmetry. apply Z.eqb_neq. exact Hne.
    + now rewrite Z.bits_0.
Qed.

Lemma testbit7_low d : 0 <= d < 128 -> Z.testbit d 7 = false.
Proof.
  intros Hd. apply Z.testbit_false; [lia |].
  change (2 ^ 7) with 128. rewrite Z.div_small by lia. reflexivity.
Qed.

Lemma testbit7_high d : 0 <= d < 128 -> Z.testbit (d + 128) 7 = true.
Proof.
  intros Hd. apply Z.testbit_true; [lia |].
  change (2 ^ 7) with 128.
  replace ((d + 128) / 128) with 1; [reflexivity |].
  apply Z.div_unique with d; lia.
Qed.

Lemma mod128_range n : 0 <= n mod 128 < 128.
Proof. apply Z.mod_pos_bound. lia. Qed.

(** ** Varint *)

Lemma encodeVarInt_loop_app fuel : forall n o,
  encodeVarInt_loop fuel n o = o ++ encodeVarInt_loop fuel n [].
Proof.
  induction fuel as [| fuel IH]; intros n o; simpl.
  - now rewrite app_nil_r.
  - destruct (n =? 0); [now rewrite app_nil_r |].
    rewrite (IH _ (o ++ _)), (IH _ [_]). now rewrite app_assoc.
Qed.

Lemma encodeVarInt_loop_step fuel n :
  n <> 0 ->
  encodeVarInt_loop (S fuel) n [] =
  Z.land n 127 :: encodeVarInt_loop fuel (Z.shiftr n 7) [].
Proof.
  intros Hn. simpl. apply Z.eqb_neq in Hn. rewrite Hn.
  now rewrite encodeVarInt_loop_app.
Qed.

Lemma shiftr7 n : Z.shiftr n 7 = n / 128.
Proof. now rewrite Z.shiftr_div_pow2 by lia. Qed.

Lemma shiftl7 n : Z.shiftl n 7 = n * 128.
Proof. now rewrite Z.shiftl_mul_pow2 by lia. Qed.

(** The loop stops by itself once the number is used up: fuel beyond the
    number of base-128 digits changes nothing. *)
Lemma encodeVarInt_loop_fuel fuel : forall n extra o,
  0 <= n < 128 ^ Z.of_nat fuel ->
  encodeVarInt_loop (fuel + extra) n o = encodeVarInt_loop fuel n o.
Proof.
  induction fuel as [| fuel IH]; intros n extra o Hn.
  - change (128 ^ Z.of_nat 0) with 1 in Hn. assert (n = 0) as -> by lia.
    destruct extra; reflexivity.
  - simpl. destruct (Z.eqb_spec n 0) as [_ | Hnz]; [reflexivity |].
    apply IH. rewrite shiftr7.
    rewrite Nat2Z.inj_succ, Z.pow_succ_r in Hn by lia.
    split; [apply Z.div_pos; lia |].
    apply Z.div_lt_upper_bound; lia.
Qed.

(** Ten turns are enough for any [uint64_t]. *)
Lemma encodeVarInt_loop_u64 n extra o :
  is_u64 n ->
  encodeVarInt_loop (10 + extra) n o = encodeVarInt_loop 10 n o.
Proof.
  intros [H0 H1]. apply encodeVarInt_loop_fuel.
  unfold U64 in H1. split; [exact H0 |].
  apply Z.lt_trans with (2 ^ 64); [exact H1 | reflexivity].
Qed.

Lemma set_continuation_snoc l : forall d,
  set_continuation (l ++ [d]) = map (fun b => Z.lor b 128) l ++ [d].
Proof.
  induction l as [| x l IH]; intros d; [reflexivity |].
  change ((x :: l) ++ [d]) with (x :: (l ++ [d])).
  simpl map. rewrite <- app_comm_cons, <- IH.
  simpl. destruct (l ++ [d]) eqn:E; [| reflexivity].
  destruct l; discriminate.
Qed.

Lemma continuation_bytes_0 fuel : continuation_bytes fuel 0 = [].
Proof. destruct fuel; reflexivity. Qed.

Lemma continuation_bytes_step fuel m :
  m <> 0 ->
  continuation_bytes (S fuel) m =
  continuation_bytes fuel (m / 128) ++ [Z.lor (m mod 128) 128].
Proof.
  intros Hm. unfold continuation_bytes.
  rewrite encodeVarInt_loop_step by exact Hm.
  cbn [rev]. rewrite map_app, shiftr7, land_127. reflexivity.
Qed.

Lemma encodeVarInt_shape n :
  n <> 0 ->
  encodeVarInt n = continuation_bytes 9 (n / 128) ++ [n mod 128].
Proof.
  intros Hn. unfold encodeVarInt.
  destruct (Z.eqb_spec n 0) as [E | _]; [contradiction |].
  rewrite encodeVarInt_loop_step by exact Hn.
  cbn [rev]. rewrite set_continuation_snoc, shiftr7, land_127. reflexivity.
Qed.

Lemma decode_continuation_byte res d rest :
  0 <= d < 128 ->
  decodeVarInt_loop res (Z.lor d 128 :: rest) =
  decodeVarInt_loop (Z.lor (wrap64 (Z.shiftl res 7)) d) rest.
Proof.
  intros Hd. simpl. rewrite lor_128 by exact Hd.
  rewrite land_128, testbit7_high by exact Hd.
  rewrite land_127.
  replace ((d + 128) mod 128) with d; [reflexivity |].
  apply Z.mod_unique with 1; lia.
Qed.

Lemma decode_last_byte res d rest :
  0 <= d < 128 ->
  decodeVarInt_loop res (d :: rest) =
  Ok (Z.lor (wrap64 (Z.shiftl res 7)) d, rest).
Proof.
  intros Hd. simpl.
  rewrite land_128, testbit7_low by exact Hd.
  rewrite land_127, Z.mod_small by exact Hd. reflexivity.
Qed.

Lemma push_digit m :
  0 <= m < U64 ->
  Z.lor (wrap64 (Z.shiftl (m / 128) 7)) (m mod 128) = m.
Proof.
  intros Hm. rewrite shiftl7. unfold wrap64.
  pose proof (Z.div_mod m 128 ltac:(lia)) as Hdm.
  pose proof (mod128_range m) as Hr.
  assert (0 <= m / 128) by (apply Z.div_pos; lia).
  rewrite Z.mod_small by lia.
  rewrite lor_mul128 by exact Hr. lia.
Qed.

Lemma decode_continuation_bytes fuel : forall m rest,
  0 <= m < U64 -> m < 128 ^ Z.of_nat fuel ->
  decodeVarInt_loop 0 (continuation_bytes fuel m ++ rest) =
  decodeVarInt_loop m rest.
Proof.
  induction fuel as [| fuel IH]; intros m rest Hm Hf.
  - change (128 ^ Z.of_nat 0) with 1 in Hf. assert (m = 0) as -> by lia.
    reflexivity.
  - destruct (Z.eq_dec m 0) as [-> | Hnz].
    + rewrite continuation_bytes_0. reflexivity.
    + rewrite continuation_bytes_step by exact Hnz.
      rewrite <- app_assoc. simpl app.
      assert (0 <= m / 128) by (apply Z.div_pos; lia).
      assert (m / 128 <= m) by (apply Z.div_le_upper_bound; lia).
      rewrite IH.
      * rewrite decode_continuation_byte by apply mod128_range.
        rewrite push_digit by exact Hm. reflexivity.
      * lia.
      * rewrite Nat2Z.inj_succ, Z.pow_succ_r in Hf by lia.
        apply Z.div_lt_upper_bound; lia.
Qed.

Lemma decodeVarInt_encodeVarInt v rest :
  is_u64 v -> decodeVarInt (encodeVarInt v ++ rest) = Ok (v, rest).
Proof.
  intros Hv. unfold is_u64 in Hv. unfold decodeVarInt.
  destruct (Z.eq_dec v 0) as [-> | Hnz]; [reflexivity |].
  rewrite encodeVarInt_shape by exact Hnz.
  rewrite <- app_assoc. simpl app.
  assert (0 <= v / 128) by (apply Z.div_pos; lia).
  assert (v / 128 <= v) by (apply Z.div_le_upper_bound; lia).
  rewrite decode_continuation_bytes.
  - rewrite decode_last_byte by apply mod128_range.
    rewrite push_digit by exact Hv. reflexivity.
  - lia.
  - apply Z.div_lt_upper_bound; [lia |].
    unfold U64 in Hv. change (128 * 128 ^ Z.of_nat 9) with (2 ^ 70).
    apply Z.lt_trans with (2 ^ 64); [lia | reflexivity].
Qed.

Lemma continuation_bytes_high fuel : forall m,
  Forall (fun b => 128 <= b < 256 /\ Z.testbit b 7 = true)
         (continuation_bytes fuel m).
Proof.
  induction fuel as [| fuel IH]; intros m; [constructor |].
  destruct (Z.eq_dec m 0) as [-> | Hnz].
  - rewrite continuation_bytes_0. constructor.
  - rewrite continuation_bytes_step by exact Hnz.
    apply Forall_app. split; [apply IH |].
    constructor; [| constructor].
    pose proof (mod128_range m) as Hr.
    rewrite lor_128 by exact Hr. split; [lia |].
    apply testbit7_high. exact Hr.
Qed.

Lemma base128_value_snoc bs b :
  base128_value (bs ++ [b]) = base128_value bs * 128 + Z.land b 127.
Proof. unfold base128_value. rewrite fold_left_app. reflexivity. Qed.

Lemma base128_value_continuation fuel : forall m,
  0 <= m < 128 ^ Z.of_nat fuel ->
  base128_value (continuation_bytes fuel m) = m.
Proof.
  induction fuel as [| fuel IH]; intros m Hm.
  - change (128 ^ Z.of_nat 0) with 1 in Hm. assert (m = 0) as -> by lia.
    reflexivity.
  - destruct (Z.eq_dec m 0) as [-> | Hnz].
    + rewrite continuation_bytes_0. reflexivity.
    + rewrite continuation_bytes_step by exact Hnz.
      rewrite base128_value_snoc, IH.
      * pose proof (mod128_range m) as Hr.
        rewrite lor_128, land_127 by exact Hr.
        replace ((m mod 128 + 128) mod 128) with (m mod 128)
          by (apply Z.mod_unique with 1; lia).
        pose proof (Z.div_mod m 128 ltac:(lia)). lia.
      * rewrite Nat2Z.inj_succ, Z.pow_succ_r in Hm by lia.
        split; [apply Z.div_pos; lia | apply Z.div_lt_upper_bound; lia].
Qed.

(** C7. Varint round-trip: for every [v] in [0, 2^64), decoding the bytes
    of [encodeVarInt v] gives [v] back (with whatever follows them left in
    the view); the bytes are the big-endian base-128 digits of [v], every
    byte but the last has its high bit set, the last has it clear, and zero
    is the single byte 0x00. *)
Theorem varint_round_trip (v : Z) (Hv : 0 <= v < 2 ^ 64) :
  decodeVarInt (encodeVarInt v) = Ok (v, []) /\
  (forall rest, decodeVarInt (encodeVarInt v ++ rest) = Ok (v, rest)) /\
  (exists init last,
      encodeVarInt v = init ++ [last] /\
      Forall (fun b => 128 <= b < 256 /\ Z.testbit b 7 = true) init /\
      0 <= last < 128 /\ Z.testbit last 7 = false) /\
  base128_value (encodeVarInt v) = v /\
  encodeVarInt 0 = [0].
Proof.
  assert (Hu : is_u64 v) by exact Hv.
  split; [| split; [| split; [| split]]].
  - rewrite <- (app_nil_r (encodeVarInt v)).
    apply decodeVarInt_encodeVarInt. exact Hu.
  - intros rest. apply decodeVarInt_encodeVarInt. exact Hu.
  - destruct (Z.eq_dec v 0) as [-> | Hnz].
    + exists [], 0. repeat split; try constructor; lia.
    + exists (continuation_bytes 9 (v / 128)), (v mod 128).
      pose proof (mod128_range v) as Hr.
      split; [apply encodeVarInt_shape; exact Hnz |].
      split; [apply continuation_bytes_high |].
      split; [exact Hr | apply testbit7_low; exact Hr].
  - destruct (Z.eq_dec v 0) as [-> | Hnz]; [reflexivity |].
    rewrite encodeVarInt_shape by exact Hnz.
    rewrite base128_value_snoc, base128_value_continuation.
    + rewrite land_127, Z.mod_mod by lia.
      pose proof (Z.div_mod v 128 ltac:(lia)). lia.
    + split; [apply Z.div_pos; lia |].
      apply Z.div_lt_upper_bound; [lia |].
      change (128 * 128 ^ Z.of_nat 9) with (2 ^ 70).
      apply Z.lt_trans with (2 ^ 64); [lia | reflexivity].
  - reflexivity.
Qed.

Lemma varint_round_trip_witness :
  decodeVarInt (encodeVarInt 300) = Ok (300, []) /\
  encodeVarInt 300 = [130; 44].
Proof.
  split.
  - apply (varint_round_trip 300). lia.
  - reflexivity.
Defined.

Lemma wrap64_range z : 0 <= wrap64 z < U64.
Proof. apply Z.mod_pos_bound. reflexivity. Qed.

Lemma wrap64_small z : 0 <= z < U64 -> wrap64 z = z.
Proof. apply Z.mod_small. Qed.

Lemma wrap64_shiftl7 res : wrap64 (Z.shiftl res 7) = (res mod 2 ^ 57) * 128.
Proof.
  rewrite shiftl7. unfold wrap64, U64.
  change (2 ^ 64) with (2 ^ 57 * 128).
  rewrite Z.mul_mod_distr_r by lia. reflexivity.
Qed.

Lemma Ok_inj {A : Type} (a b : A) : Ok a = Ok b -> a = b.
Proof. congruence. Qed.

Lemma Ok_pair_inj {A B : Type} (a a' : A) (b b' : B) :
  Ok (a, b) = Ok (a', b') -> a = a' /\ b = b'.
Proof. intros H. apply Ok_inj in H. now apply pair_equal_spec in H. Qed.

Lemma decodeVarInt_loop_cons res byte encoded :
  decodeVarInt_loop res (byte :: encoded) =
  if Z.land byte 128 =? 0
  then Ok (Z.lor (wrap64 (Z.shiftl res 7)) (Z.land byte 127), encoded)
  else decodeVarInt_loop (Z.lor (wrap64 (Z.shiftl res 7)) (Z.land byte 127))
         encoded.
Proof. reflexivity. Qed.

Lemma decodeVarInt_loop_range encoded : forall res v rest,
  decodeVarInt_loop res encoded = Ok (v, rest) -> 0 <= v < U64.
Proof.
  induction encoded as [| byte encoded IH]; intros res v rest H;
    [discriminate |].
  rewrite decodeVarInt_loop_cons in H.
  destruct (Z.land byte 128 =? 0); [| eapply IH; exact H].
  apply Ok_pair_inj in H. destruct H as [<- _].
  rewrite wrap64_shiftl7, land_127.
  pose proof (mod128_range byte) as Hb.
  rewrite lor_mul128 by exact Hb.
  assert (0 <= res mod 2 ^ 57 < 2 ^ 57) by (apply Z.mod_pos_bound; lia).
  unfold U64. change (2 ^ 64) with (2 ^ 57 * 128). lia.
Qed.

Lemma decodeVarInt_range encoded v rest :
  decodeVarInt encoded = Ok (v, rest) -> is_u64 v.
Proof. apply decodeVarInt_loop_range. Qed.

(** A varint takes at least one byte off the view. *)
Lemma decodeVarInt_loop_shorter encoded : forall res v rest,
  decodeVarInt_loop res encoded = Ok (v, rest) ->
  (length rest < length encoded)%nat.
Proof.
  induction encoded as [| byte encoded IH]; intros res v rest H;
    [discriminate |].
  rewrite decodeVarInt_loop_cons in H. destruct (Z.land byte 128 =? 0).
  - apply Ok_pair_inj in H. destruct H as [_ <-]. simpl. lia.
  - apply IH in H. simpl. lia.
Qed.

(** ** Delta timestamps *)

(** What [decodeTimestampIn] returns: the sum of the delta and the last
    timestamp, cut at [MAX_U64]. *)
Lemma decodeTimestampIn_spec encoded last ts rest last' :
  is_u64 last ->
  decodeTimestampIn encoded last = Ok (ts, rest, last') ->
  exists v, decodeVarInt encoded = Ok (v, rest) /\
    last' = ts /\
    ts = Z.min MAX_U64 ((if v =? 0 then MAX_U64 else v - 1) + last).
Proof.
  intros Hl H. unfold decodeTimestampIn in H.
  destruct (decodeVarInt encoded) as [[v q] |] eqn:Ev; [| discriminate].
  simpl in H. injection H as <- <- <-.
  exists v. split; [reflexivity |]. split; [reflexivity |].
  apply decodeVarInt_range in Ev. unfold is_u64 in *.
  unfold wrap64, MAX_U64, U64 in *.
  set (delta := if v =? 0 then 2 ^ 64 - 1 else v - 1).
  assert (Hd : 0 <= delta < 2 ^ 64)
    by (subst delta; destruct (Z.eqb_spec v 0); lia).
  destruct (Z_lt_le_dec (delta + last) (2 ^ 64)) as [Hno | Hov].
  - rewrite Z.mod_small by lia.
    destruct (Z.ltb_spec (delta + last) last); lia.
  - replace ((delta + last) mod 2 ^ 64) with (delta + last - 2 ^ 64)
      by (apply Z.mod_unique with 1; lia).
    destruct (Z.ltb_spec (delta + last - 2 ^ 64) last); lia.
Qed.

Lemma decodeTimestampIn_monotone encoded last ts rest last' :
  is_u64 last ->
  decodeTimestampIn encoded last = Ok (ts, rest, last') ->
  last <= ts /\ last' = ts /\ is_u64 ts.
Proof.
  intros Hl H.
  destruct (decodeTimestampIn_spec _ _ _ _ _ Hl H) as (v & Ev & -> & Hts).
  apply decodeVarInt_range in Ev. unfold is_u64, MAX_U64, U64 in *.
  destruct (Z.eqb_spec v 0); lia.
Qed.

Lemma encodeTimestampOut_last t last : snd (encodeTimestampOut t last) = t.
Proof.
  unfold encodeTimestampOut.
  destruct (Z.eqb_spec t MAX_U64) as [-> | _]; reflexivity.
Qed.

(** One timestamp through the wire, decoder and encoder holding the same
    last timestamp: it comes back when it is not below the last one, and
    as [MAX_U64] when it is. *)
Lemma decode_encode_timestamp t last rest :
  is_u64 t -> is_u64 last ->
  decodeTimestampIn (fst (encodeTimestampOut t last) ++ rest) last =
  let t' := if last <=? t then t else MAX_U64 in Ok (t', rest, t').
Proof.
  intros Ht Hl. unfold is_u64 in *.
  unfold encodeTimestampOut, decodeTimestampIn.
  destruct (Z.eqb_spec t MAX_U64) as [-> | Hne]; cbn [fst].
  - rewrite decodeVarInt_encodeVarInt by (unfold is_u64, U64; lia).
    cbn [bind]. change (0 =? 0) with true. cbv iota.
    assert (MAX_U64 <= MAX_U64 + last) by lia.
    assert (E : (if wrap64 (MAX_U64 + last) <? last then MAX_U64
                 else wrap64 (MAX_U64 + last)) = MAX_U64).
    { unfold wrap64, MAX_U64, U64 in *.
      destruct (Z.eq_dec last 0) as [-> | Hl0].
      - reflexivity.
      - replace ((2 ^ 64 - 1 + last) mod 2 ^ 64) with (last - 1)
          by (apply Z.mod_unique with 1; lia).
        destruct (Z.ltb_spec (last - 1) last); lia. }
    rewrite E.
    destruct (Z.leb_spec last MAX_U64); [reflexivity |].
    reflexivity.
  - rewrite decodeVarInt_encodeVarInt by apply wrap64_range.
    cbn [bind].
    unfold wrap64, MAX_U64, U64 in *.
    destruct (Z.leb_spec last t) as [Hle | Hlt].
    + rewrite (Z.mod_small (t - last)) by lia.
      rewrite (Z.mod_small (t - last + 1)) by lia.
      destruct (Z.eqb_spec (t - last + 1) 0); [lia |].
      replace (t - last + 1 - 1 + last) with t by lia.
      rewrite Z.mod_small by lia.
      destruct (Z.ltb_spec t last); [lia | reflexivity].
    + replace ((t - last) mod 2 ^ 64) with (t - last + 2 ^ 64)
        by (apply Z.mod_unique with (-1); lia).
      destruct (Z.eq_dec (t - last) (-1)) as [E1 | E1].
      * replace (t - last + 2 ^ 64 + 1) with (2 ^ 64) by lia.
        rewrite Z.mod_same by lia. change (0 =? 0) with true. cbv iota.
        replace ((2 ^ 64 - 1 + last) mod 2 ^ 64) with (last - 1)
          by (apply Z.mod_unique with 1; lia).
        destruct (Z.ltb_spec (last - 1) last); [reflexivity | lia].
      * rewrite (Z.mod_small (t - last + 2 ^ 64 + 1)) by lia.
        destruct (Z.eqb_spec (t - last + 2 ^ 64 + 1) 0); [lia |].
        replace (t - last + 2 ^ 64 + 1 - 1 + last) with (t + 2 ^ 64) by lia.
        replace ((t + 2 ^ 64) mod 2 ^ 64) with t
          by (apply Z.mod_unique with 1; lia).
        destruct (Z.ltb_spec t last); [reflexivity | lia].
Qed.

Lemma delta_timestamps_from last ts : forall rest,
  is_u64 last -> Forall is_u64 ts -> nondecreasing_from last ts ->
  decodeTimestamps (length ts) (encodeTimestamps ts last ++ rest) last =
  Ok (ts, rest).
Proof.
  revert last. induction ts as [| t ts IH]; intros last rest Hl Hu Hs;
    [reflexivity |].
  inversion Hu as [| ? ? Ht Hu']; subst. destruct Hs as [Hle Hs].
  cbn [encodeTimestamps decodeTimestamps length].
  pose proof (encodeTimestampOut_last t last) as Elast.
  pose proof (decode_encode_timestamp t last
                (encodeTimestamps ts t ++ rest) Ht Hl) as Edec.
  destruct (encodeTimestampOut t last) as [b last1].
  cbn [fst snd] in *. subst last1.
  rewrite <- app_assoc, Edec. cbv zeta.
  destruct (Z.leb_spec last t); [| lia].
  cbn [bind]. rewrite IH by assumption. reflexivity.
Qed.

(** C1 as stated fails: a timestamp below the one before it is not
    reproduced; the decoder, holding the same last timestamp as the
    encoder, saturates it to [MAX_U64]. *)
Lemma delta_timestamp_out_of_order_lost :
  decodeTimestamps 2 (encodeTimestamps [10; 5] 0) 0
    = Ok ([10; MAX_U64], []) /\
  decodeTimestamps 2 (encodeTimestamps [10; 5] 0) 0 <> Ok ([10; 5], []).
Proof.
  assert (E : decodeTimestamps 2 (encodeTimestamps [10; 5] 0) 0
              = Ok ([10; MAX_U64], [])) by (vm_compute; reflexivity).
  split; [exact E |]. rewrite E. discriminate.
Qed.

(** C1, amended. Delta-timestamp round-trip for sequences in order: any
    sequence of timestamps in [0, 2^64) in which no timestamp is below the
    one before it, encoded with [encodeTimestampOut] and decoded with
    [decodeTimestampIn], both last-timestamp states starting at 0, is
    reproduced exactly, the [MAX_U64] sentinel included, and what follows
    the timestamps is left in the view. *)
Theorem delta_timestamp_round_trip (ts : list Z) (rest : bytes)
  (Hu : Forall is_u64 ts) (Hs : nondecreasing_from 0 ts) :
  decodeTimestamps (length ts) (encodeTimestamps ts 0 ++ rest) 0 =
  Ok (ts, rest).
Proof.
  apply delta_timestamps_from; [unfold is_u64, U64; lia | exact Hu | exact Hs].
Qed.

Lemma delta_timestamp_round_trip_witness :
  decodeTimestamps 4 (encodeTimestamps [3; 3; 700; MAX_U64] 0 ++ [9]) 0 =
  Ok ([3; 3; 700; MAX_U64], [9]).
Proof.
  apply (delta_timestamp_round_trip [3; 3; 700; MAX_U64] [9]).
  - repeat constructor; unfold MAX_U64, U64; lia.
  - simpl. unfold MAX_U64, U64. lia.
Defined.

(** ** Elements and bounds *)

Lemma make_inv ts b e :
  XorElem.make ts b = Ok e ->
  (length b <= 32)%nat /\
  e = XorElem.mk ts (zlen b) (b ++ repeat 0 (32 - length b)%nat).
Proof.
  unfold XorElem.make, zlen. intros H.
  destruct (Z.ltb_spec 32 (Z.of_nat (length b))); [discriminate |].
  apply Ok_inj in H. split; [lia | now symmetry].
Qed.

Lemma make_ok ts b :
  (length b <= 32)%nat ->
  XorElem.make ts b =
  Ok (XorElem.mk ts (zlen b) (b ++ repeat 0 (32 - length b)%nat)).
Proof.
  intros H. unfold XorElem.make, zlen.
  destruct (Z.ltb_spec 32 (Z.of_nat (length b))); [lia | reflexivity].
Qed.

Lemma getId_make ts b :
  XorElem.getId (XorElem.mk ts (zlen b) (b ++ repeat 0 (32 - length b)%nat))
  = b.
Proof.
  unfold XorElem.getId, zlen. cbn [XorElem.idSize XorElem.id].
  rewrite Nat2Z.id, firstn_app, Nat.sub_diag, firstn_all. cbn [firstn].
  apply app_nil_r.
Qed.

Lemma wf_make ts b e : XorElem.make ts b = Ok e -> XorElem.wf e.
Proof.
  intros H. apply make_inv in H. destruct H as [Hl ->].
  unfold XorElem.wf, zlen. cbn [XorElem.idSize XorElem.id].
  rewrite Nat2Z.id, length_app, repeat_length.
  split; [lia |]. split; [lia |].
  intros i Hi. rewrite app_nth2 by lia.
  destruct (Nat.lt_ge_cases (i - length b) (32 - length b)) as [Hlt | Hge].
  - apply nth_repeat_lt. exact Hlt.
  - apply nth_overflow. rewrite repeat_length. exact Hge.
Qed.

Lemma decodeBound_inv encoded last e rest last' :
  decodeBound encoded last = Ok (e, rest, last') ->
  exists q1 len q2 b,
    decodeTimestampIn encoded last = Ok (XorElem.timestamp e, q1, last') /\
    decodeVarInt q1 = Ok (len, q2) /\
    getBytes q2 len = Ok (b, rest) /\
    XorElem.make (XorElem.timestamp e) b = Ok e.
Proof.
  unfold decodeBound. intros H.
  destruct (decodeTimestampIn encoded last) as [[[ts q1] l1] |] eqn:E1;
    [| discriminate].
  cbn [bind] in H.
  destruct (decodeVarInt q1) as [[len q2] |] eqn:E2; [| discriminate].
  cbn [bind] in H.
  destruct (getBytes q2 len) as [[b q3] |] eqn:E3; [| discriminate].
  cbn [bind] in H.
  destruct (XorElem.make ts b) as [e' |] eqn:E4; [| discriminate].
  cbn [bind] in H. apply Ok_inj in H.
  apply pair_equal_spec in H. destruct H as [H <-].
  apply pair_equal_spec in H. destruct H as [<- <-].
  assert (Ets : XorElem.timestamp e' = ts).
  { apply make_inv in E4. destruct E4 as [_ ->]. reflexivity. }
  rewrite Ets. exists q1, len, q2, b. auto.
Qed.

(** ** The walk over a received frame *)

Section WalkFacts.

Variable map_order : TheirElems -> TheirElems.
Variable st : Negentropy.

(** What a record that goes through leaves in the walk. *)
Lemma reconcileAux_step_inv w w' :
  reconcileAux_step map_order st w = Ok w' ->
  exists q1 mode q2,
    decodeBound (query w) (lastTimestampIn w)
      = Ok (prevBound w', q1, lastTimestampIn w') /\
    decodeVarInt q1 = Ok (mode, q2) /\
    prevIndex w' = upper_bound (items st) (prevIndex w) (prevBound w').
Proof.
  unfold reconcileAux_step. intros H.
  destruct (decodeBound (query w) (lastTimestampIn w))
    as [[[currBound q1] l1] |] eqn:E1; [| discriminate].
  cbn [bind] in H.
  destruct (decodeVarInt q1) as [[mode q2] |] eqn:E2; [| discriminate].
  cbn [bind] in H.
  match type of H with
  | bind ?r _ = _ => destruct r as [[[[q3 outs] have] need] |];
                     [| discriminate]
  end.
  cbn [bind] in H. apply Ok_inj in H. subst w'.
  cbn [prevBound lastTimestampIn prevIndex].
  exists q1, mode, q2. auto.
Qed.

Lemma reconcileAux_step_timestamp w w' :
  is_u64 (lastTimestampIn w) ->
  reconcileAux_step map_order st w = Ok w' ->
  lastTimestampIn w <= lastTimestampIn w' /\
  XorElem.timestamp (prevBound w') = lastTimestampIn w' /\
  is_u64 (lastTimestampIn w').
Proof.
  intros Hu H.
  destruct (reconcileAux_step_inv _ _ H) as (q1 & mode & q2 & E1 & _ & _).
  destruct (decodeBound_inv _ _ _ _ _ E1) as (q & len & q' & b & Ets & _).
  destruct (decodeTimestampIn_monotone _ _ _ _ _ Hu Ets) as (Hle & Heq & Hu').
  rewrite Heq. auto.
Qed.

Lemma walk_steps_u64 w w' :
  is_u64 (lastTimestampIn w) ->
  walk_steps map_order st w w' ->
  is_u64 (lastTimestampIn w') /\ lastTimestampIn w <= lastTimestampIn w'.
Proof.
  intros Hu Hs. induction Hs as [w | w w1 w2 Hs IH Hstep].
  - split; [exact Hu | lia].
  - destruct (IH Hu) as [Hu1 Hle].
    destruct (reconcileAux_step_timestamp _ _ Hu1 Hstep) as (H1 & _ & H2).
    split; [exact H2 | lia].
Qed.

End WalkFacts.

(** C10. Decoder timestamp monotonicity: whatever the bytes of the frame,
    [decodeTimestampIn] never returns a timestamp below the last one (the
    sum of delta and last timestamp is cut at [MAX_U64]), so along a pass of
    [reconcileAux] over a frame, which starts with [lastTimestampIn] at 0,
    every record leaves [lastTimestampIn], which is the timestamp of the
    bound it decoded, at or above its value before the record. *)
Theorem decoder_timestamps_never_decrease
  (map_order : TheirElems -> TheirElems) (st : Negentropy)
  (frame : bytes) (bound0 : XorElem.t) (have0 need0 : list bytes)
  (w w' : Walk)
  (Hreach : walk_steps map_order st
              (mkWalk frame bound0 0 0 [] have0 need0) w)
  (Hstep : reconcileAux_step map_order st w = Ok w') :
  lastTimestampIn w <= lastTimestampIn w' /\
  XorElem.timestamp (prevBound w') = lastTimestampIn w' /\
  lastTimestampIn w' <= MAX_U64 /\
  (forall encoded last ts rest last',
      is_u64 last ->
      decodeTimestampIn encoded last = Ok (ts, rest, last') ->
      last <= ts /\ last' = ts /\ ts <= MAX_U64 /\
      exists v, decodeVarInt encoded = Ok (v, rest) /\
        ts = Z.min MAX_U64 ((if v =? 0 then MAX_U64 else v - 1) + last)).
Proof.
  assert (H0 : is_u64 0) by (unfold is_u64, U64; lia).
  assert (Hu : is_u64 (lastTimestampIn w)).
  { eapply walk_steps_u64; [| exact Hreach]. exact H0. }
  destruct (reconcileAux_step_timestamp map_order st _ _ Hu Hstep)
    as (Hle & Hts & Hu').
  split; [exact Hle |]. split; [exact Hts |].
  split; [unfold is_u64, MAX_U64 in *; lia |].
  intros encoded last ts rest last' Hl Hdec.
  destruct (decodeTimestampIn_monotone _ _ _ _ _ Hl Hdec) as (H1 & H2 & H3).
  destruct (decodeTimestampIn_spec _ _ _ _ _ Hl Hdec) as (v & Ev & _ & Hv).
  split; [exact H1 |]. split; [exact H2 |].
  split; [unfold is_u64, MAX_U64 in *; lia |].
  exists v. auto.
Qed.

Lemma decoder_timestamps_never_decrease_witness :
  lastTimestampIn sample_walk1 <= lastTimestampIn sample_walk2 /\
  lastTimestampIn sample_walk1 = 4 /\
  lastTimestampIn sample_walk2 = MAX_U64.
Proof.
  split; [| split; reflexivity].
  apply (decoder_timestamps_never_decrease insertion_order sample_responder
           sample_frame (empty_bound 0) [] [] sample_walk1 sample_walk2).
  - eapply walk_next; [apply walk_here | vm_compute; reflexivity].
  - vm_compute. reflexivity.
Defined.

(** ** The loop of [reconcileAux] runs to the end of the frame *)

Lemma getBytes_inv q n b q' :
  getBytes q n = Ok (b, q') ->
  b = firstn (Z.to_nat n) q /\ q' = skipn (Z.to_nat n) q /\ n <= zlen q.
Proof.
  unfold getBytes. intros H.
  destruct (Z.ltb_spec (zlen q) n); [discriminate |].
  apply Ok_pair_inj in H. destruct H as [<- <-]. auto.
Qed.

Lemma getBytes_length q n b q' :
  getBytes q n = Ok (b, q') -> (length q' <= length q)%nat.
Proof.
  intros H. apply getBytes_inv in H. destruct H as (_ & -> & _).
  rewrite length_skipn. lia.
Qed.

Lemma readTheirElems_length n : forall i idSize q m m' q',
  readTheirElems n i idSize q m = Ok (m', q') ->
  (length q' <= length q)%nat.
Proof.
  induction n as [| n IH]; intros i idSize q m m' q' H.
  - apply Ok_pair_inj in H. destruct H as [_ <-]. lia.
  - cbn [readTheirElems] in H.
    destruct (getBytes q idSize) as [[e q1] |] eqn:E; [| discriminate].
    cbn [bind] in H. apply IH in H. apply getBytes_length in E. lia.
Qed.

Lemma readNeedIds_length n : forall idSize q need need' q',
  readNeedIds n idSize q need = Ok (need', q') ->
  (length q' <= length q)%nat.
Proof.
  induction n as [| n IH]; intros idSize q need need' q' H.
  - apply Ok_pair_inj in H. destruct H as [_ <-]. lia.
  - cbn [readNeedIds] in H.
    destruct (getBytes q idSize) as [[e q1] |] eqn:E; [| discriminate].
    cbn [bind] in H. apply IH in H. apply getBytes_length in E. lia.
Qed.

Lemma decodeVarInt_shorter q v q' :
  decodeVarInt q = Ok (v, q') -> (length q' < length q)%nat.
Proof. apply decodeVarInt_loop_shorter. Qed.

Lemma decodeBound_shorter q last e q' last' :
  decodeBound q last = Ok (e, q', last') -> (length q' < length q)%nat.
Proof.
  intros H. apply decodeBound_inv in H.
  destruct H as (q1 & len & q2 & b & E1 & E2 & E3 & _).
  unfold decodeTimestampIn in E1.
  destruct (decodeVarInt q) as [[v q0] |] eqn:E0; [| discriminate].
  cbn [bind] in E1. apply Ok_inj in E1.
  apply pair_equal_spec in E1. destruct E1 as [E1 _].
  apply pair_equal_spec in E1. destruct E1 as [_ <-].
  apply decodeVarInt_shorter in E0, E2. apply getBytes_length in E3. lia.
Qed.

Section LoopFacts.

Variable map_order : TheirElems -> TheirElems.
Variable st : Negentropy.

Lemma onFingerprint_length w currBound q lower upper q' outs :
  onFingerprint st w currBound q lower upper = Ok (q', outs) ->
  (length q' <= length q)%nat.
Proof.
  unfold onFingerprint. intros H.
  destruct (getBytes q (idSize st)) as [[b q1] |] eqn:E; [| discriminate].
  cbn [bind] in H. apply getBytes_length in E.
  destruct (XorElem.make 0 b) as [x |]; [| discriminate].
  cbn [bind] in H.
  destruct (negb _).
  - destruct (splitRange _ _ _ _ _ _ _); [| discriminate].
    cbn [bind] in H. apply Ok_pair_inj in H. destruct H as [<- _]. exact E.
  - apply Ok_pair_inj in H. destruct H as [<- _]. exact E.
Qed.

Lemma onIdList_length w currBound q lower upper q' outs have need :
  onIdList map_order st w currBound q lower upper
    = Ok (q', outs, have, need) ->
  (length q' <= length q)%nat.
Proof.
  unfold onIdList. intros H.
  destruct (decodeVarInt q) as [[numIds q1] |] eqn:E1; [| discriminate].
  cbn [bind] in H. apply decodeVarInt_shorter in E1.
  destruct (readTheirElems _ _ _ _ _) as [[m q2] |] eqn:E2; [| discriminate].
  cbn [bind] in H. apply readTheirElems_length in E2.
  destruct (fold_left (visitOurs _) _ _) as [[m' hv] rh].
  destruct (fold_left (visitTheirs _) _ _) as [nd ri].
  destruct (negb (isInitiator st)); apply Ok_inj in H;
    repeat (apply pair_equal_spec in H; destruct H as [H _]);
    subst q'; lia.
Qed.

Lemma onIdListResponse_length w q lower upper q' have need :
  onIdListResponse st w q lower upper = Ok (q', have, need) ->
  (length q' <= length q)%nat.
Proof.
  unfold onIdListResponse. intros H.
  destruct (negb (isInitiator st)); [discriminate |].
  destruct (decodeVarInt q) as [[numIds q1] |] eqn:E1; [| discriminate].
  cbn [bind] in H. apply decodeVarInt_shorter in E1.
  destruct (readNeedIds _ _ _ _) as [[nd q2] |] eqn:E2; [| discriminate].
  cbn [bind] in H. apply readNeedIds_length in E2.
  destruct (decodeVarInt q2) as [[sz q3] |] eqn:E3; [| discriminate].
  cbn [bind] in H. apply decodeVarInt_shorter in E3.
  destruct (getBytes q3 sz) as [[bf q4] |] eqn:E4; [| discriminate].
  cbn [bind] in H. apply getBytes_length in E4.
  apply Ok_inj in H.
  repeat (apply pair_equal_spec in H; destruct H as [H _]).
  subst q'. lia.
Qed.

(** Every record that goes through takes bytes off the view. *)
Lemma reconcileAux_step_shorter w w' :
  reconcileAux_step map_order st w = Ok w' ->
  (length (query w') < length (query w))%nat.
Proof.
  unfold reconcileAux_step. intros H.
  destruct (decodeBound (query w) (lastTimestampIn w))
    as [[[currBound q1] l1] |] eqn:E1; [| discriminate].
  cbn [bind] in H. apply decodeBound_shorter in E1.
  destruct (decodeVarInt q1) as [[mode q2] |] eqn:E2; [| discriminate].
  cbn [bind] in H. apply decodeVarInt_shorter in E2.
  assert (Hq : forall q3 outs have need,
             (length q3 <= length q2)%nat ->
             Ok (mkWalk q3 currBound
                   (upper_bound (items st) (prevIndex w) currBound) l1
                   outs have need) = Ok w' ->
             (length (query w') < length (query w))%nat).
  { intros q3 outs have need Hl Hw. apply Ok_inj in Hw. subst w'.
    cbn [query]. lia. }
  destruct (mode =? 0); [eapply Hq; [| exact H]; lia |].
  destruct (mode =? 1).
  { destruct (onFingerprint _ _ _ _ _ _) as [[q3 outs] |] eqn:E3;
      [| discriminate].
    apply onFingerprint_length in E3. eapply Hq; [| exact H]. exact E3. }
  destruct (mode =? 2).
  { destruct (onIdList _ _ _ _ _ _ _) as [[[[q3 outs] hv] nd] |] eqn:E3;
      [| discriminate].
    apply onIdList_length in E3. eapply Hq; [| exact H]. exact E3. }
  destruct (mode =? 3); [| discriminate].
  destruct (onIdListResponse _ _ _ _ _) as [[[q3 hv] nd] |] eqn:E3;
    [| discriminate].
  apply onIdListResponse_length in E3. eapply Hq; [| exact H]. exact E3.
Qed.

Lemma reconcileAux_loop_unfold fuel w :
  query w <> [] ->
  reconcileAux_loop map_order (S fuel) st w =
  bind (reconcileAux_step map_order st w)
       (reconcileAux_loop map_order fuel st).
Proof.
  intros Hq. cbn [reconcileAux_loop]. destruct (query w); [contradiction |].
  reflexivity.
Qed.

(** With [length query] turns the loop only stops at the end of the view. *)
Lemma reconcileAux_loop_exhausts fuel : forall w w',
  (length (query w) <= fuel)%nat ->
  reconcileAux_loop map_order fuel st w = Ok w' ->
  query w' = [] /\ walk_steps map_order st w w'.
Proof.
  induction fuel as [| fuel IH]; intros w w' Hf H.
  - destruct (query w) eqn:Eq; [| simpl in Hf; lia].
    cbn [reconcileAux_loop] in H. rewrite Eq in H.
    apply Ok_inj in H. subst w'. split; [exact Eq | apply walk_here].
  - destruct (query w) eqn:Eq.
    + cbn [reconcileAux_loop] in H. rewrite Eq in H.
      apply Ok_inj in H. subst w'. split; [exact Eq | apply walk_here].
    + rewrite reconcileAux_loop_unfold in H by (rewrite Eq; discriminate).
      destruct (reconcileAux_step map_order st w) as [w1 |] eqn:Es;
        [| discriminate].
      cbn [bind] in H.
      pose proof (reconcileAux_step_shorter _ _ Es) as Hs.
      rewrite Eq in Hs. simpl in Hs, Hf.
      apply IH in H; [| lia]. destruct H as [Hend Hsteps].
      split; [exact Hend |].
      clear - Es Hsteps. induction Hsteps as [w1 | w1 w2 w3 Hs IHs Hstep].
      * eapply walk_next; [apply walk_here | exact Es].
      * eapply walk_next; [apply IHs; exact Es | exact Hstep].
Qed.

(** The loop goes through every walk that the steps reach. *)
Lemma reconcileAux_loop_reaches w0 w :
  walk_steps map_order st w0 w ->
  forall fuel, (length (query w0) <= fuel)%nat ->
  exists fuel', (length (query w) <= fuel')%nat /\
    reconcileAux_loop map_order fuel st w0 =
    reconcileAux_loop map_order fuel' st w.
Proof.
  induction 1 as [w | w w1 w2 Hs IH Hstep]; intros fuel Hf.
  - exists fuel. auto.
  - destruct (IH fuel Hf) as (f1 & Hf1 & E).
    pose proof (reconcileAux_step_shorter _ _ Hstep) as Hsh.
    destruct f1 as [| f1]; [lia |].
    exists f1. split; [lia |].
    rewrite E, reconcileAux_loop_unfold.
    + rewrite Hstep. reflexivity.
    + intros Eq. rewrite Eq in Hsh. simpl in Hsh. lia.
Qed.

(** An exception at a record that the walk reaches is the outcome of the
    loop. *)
Lemma reconcileAux_loop_throws w0 w msg :
  walk_steps map_order st w0 w ->
  query w <> [] ->
  reconcileAux_step map_order st w = Err msg ->
  reconcileAux_loop map_order (length (query w0)) st w0 = Err msg.
Proof.
  intros Hs Hq He.
  destruct (reconcileAux_loop_reaches _ _ Hs (length (query w0)) (le_n _))
    as (f & Hf & ->).
  destruct f as [| f].
  - destruct (query w); [contradiction | simpl in Hf; lia].
  - rewrite reconcileAux_loop_unfold by exact Hq. rewrite He. reflexivity.
Qed.

End LoopFacts.

(** ** Role and mode errors *)

Lemma make_empty ts : XorElem.make ts [] = Ok (empty_bound ts).
Proof. reflexivity. Qed.

Section Errors.

Variable map_order : TheirElems -> TheirElems.
Variable st : Negentropy.

Lemma record_mode_at_nonempty w mode : record_mode_at w mode -> query w <> [].
Proof.
  intros (cb & q1 & l1 & q2 & E & _) Eq.
  apply decodeBound_shorter in E. rewrite Eq in E. simpl in E. lia.
Qed.

Lemma step_unexpected_mode w mode :
  record_mode_at w mode -> 3 < mode ->
  reconcileAux_step map_order st w = Err "unexpected mode"%string.
Proof.
  intros (cb & q1 & l1 & q2 & E1 & E2) Hm.
  unfold reconcileAux_step. rewrite E1. cbn [bind]. rewrite E2. cbn [bind].
  destruct (Z.eqb_spec mode 0); [lia |].
  destruct (Z.eqb_spec mode 1); [lia |].
  destruct (Z.eqb_spec mode 2); [lia |].
  destruct (Z.eqb_spec mode 3); [lia |].
  reflexivity.
Qed.

Lemma step_unexpected_response w :
  isInitiator st = false -> record_mode_at w 3 ->
  reconcileAux_step map_order st w = Err "unexpected IdListResponse"%string.
Proof.
  intros Hi (cb & q1 & l1 & q2 & E1 & E2).
  unfold reconcileAux_step. rewrite E1. cbn [bind]. rewrite E2. cbn [bind].
  change (3 =? 0) with false. change (3 =? 1) with false.
  change (3 =? 2) with false. change (3 =? 3) with true. cbv iota.
  unfold onIdListResponse. rewrite Hi. reflexivity.
Qed.

(** An exception at a record reached by the walk leaves [reconcileAux]. *)
Lemma reconcileAux_throws frame have0 need0 w msg :
  walk_steps map_order st (walk0 frame have0 need0) w ->
  query w <> [] ->
  reconcileAux_step map_order st w = Err msg ->
  throws (reconcileAux map_order st frame have0 need0).
Proof.
  intros Hs Hq He. unfold reconcileAux.
  destruct (negb (sealed st)); [eexists; reflexivity |].
  rewrite make_empty. cbn [bind].
  pose proof (reconcileAux_loop_throws map_order st _ _ _ Hs Hq He) as E.
  cbn [walk0 query] in E. fold (walk0 frame have0 need0). rewrite E.
  eexists; reflexivity.
Qed.

Lemma reconcile_throws frame :
  throws (reconcileAux map_order st frame [] []) ->
  throws (reconcile map_order st frame).
Proof.
  intros [msg E]. unfold reconcile.
  destruct (isInitiator st); [eexists; reflexivity |].
  rewrite E. eexists; reflexivity.
Qed.

Lemma reconcile_have_need_throws frame have0 need0 :
  throws (reconcileAux map_order st frame have0 need0) ->
  throws (reconcile_have_need map_order st frame have0 need0).
Proof.
  intros [msg E]. unfold reconcile_have_need.
  destruct (negb (isInitiator st)); [eexists; reflexivity |].
  rewrite E. eexists; reflexivity.
Qed.

End Errors.

(** C9. Role and mode errors: both [reconcile] overloads end in an exception,
    so return no frame, when the walk over the frame comes to a record
    whose mode is above 3; the reconcile of a non-initiator does when the
    walk comes to a record of mode 3 (IdListResponse); the overload without
    have/need sinks throws for an initiator and the overload with them for a
    non-initiator, whatever the frame. *)
Theorem role_and_mode_errors
  (map_order : TheirElems -> TheirElems) (st : Negentropy) (frame : bytes)
  (have0 need0 : list bytes) :
  (forall w mode,
      walk_steps map_order st (walk0 frame [] []) w ->
      record_mode_at w mode -> 3 < mode ->
      throws (reconcile map_order st frame)) /\
  (forall w mode,
      walk_steps map_order st (walk0 frame have0 need0) w ->
      record_mode_at w mode -> 3 < mode ->
      throws (reconcile_have_need map_order st frame have0 need0)) /\
  (forall w,
      isInitiator st = false ->
      walk_steps map_order st (walk0 frame [] []) w ->
      record_mode_at w 3 ->
      throws (reconcile map_order st frame)) /\
  (isInitiator st = true ->
   reconcile map_order st frame
   = Err "initiator not asking for have/need IDs"%string) /\
  (isInitiator st = false ->
   reconcile_have_need map_order st frame have0 need0
   = Err "non-initiator asking for have/need IDs"%string).
Proof.
  split; [| split; [| split; [| split]]].
  - intros w mode Hs Hr Hm. apply reconcile_throws.
    eapply reconcileAux_throws;
      [exact Hs | eapply record_mode_at_nonempty; exact Hr |].
    apply step_unexpected_mode with mode; assumption.
  - intros w mode Hs Hr Hm. apply reconcile_have_need_throws.
    eapply reconcileAux_throws;
      [exact Hs | eapply record_mode_at_nonempty; exact Hr |].
    apply step_unexpected_mode with mode; assumption.
  - intros w Hi Hs Hr. apply reconcile_throws.
    eapply reconcileAux_throws;
      [exact Hs | eapply record_mode_at_nonempty; exact Hr |].
    apply step_unexpected_response; assumption.
  - intros Hi. unfold reconcile. rewrite Hi. reflexivity.
  - intros Hi. unfold reconcile_have_need. rewrite Hi. reflexivity.
Qed.

Lemma role_and_mode_errors_witness :
  throws (reconcile insertion_order sample_responder [5; 0; 0; 0; 0; 7]) /\
  throws (reconcile insertion_order sample_responder [5; 0; 0; 0; 0; 3; 0; 0]) /\
  reconcile_have_need insertion_order sample_responder [5; 0; 0; 0; 0; 7] [] []
  = Err "non-initiator asking for have/need IDs"%string.
Proof.
  pose proof (role_and_mode_errors insertion_order sample_responder
                [5; 0; 0; 0; 0; 7] [] []) as (H1 & _ & _ & _ & H5).
  pose proof (role_and_mode_errors insertion_order sample_responder
                [5; 0; 0; 0; 0; 3; 0; 0] [] []) as (_ & _ & H3 & _ & _).
  split; [| split].
  - apply (H1 (mkWalk [0; 0; 7] (empty_bound 4) 0 4 [] [] []) 7).
    + eapply walk_next; [apply walk_here | vm_compute; reflexivity].
    + exists (empty_bound MAX_U64), [7], MAX_U64, [].
      split; vm_compute; reflexivity.
    + lia.
  - apply (H3 (mkWalk [0; 0; 3; 0; 0] (empty_bound 4) 0 4 [] [] [])).
    + reflexivity.
    + eapply walk_next; [apply walk_here | vm_compute; reflexivity].
    + exists (empty_bound MAX_U64), [3; 0; 0], MAX_U64, [0; 0].
      split; vm_compute; reflexivity.
  - apply H5. reflexivity.
Defined.

(** ** Boundary policy *)

Lemma bytes_ltb_nil_r a : bytes_ltb a [] = false.
Proof. destruct a; reflexivity. Qed.

Lemma bytes_ltb_prefix a : forall m, bytes_ltb a (firstn m a) = false.
Proof.
  induction a as [| x a IH]; intros [| m]; try reflexivity.
  cbn [firstn bytes_ltb]. rewrite Z.ltb_irrefl. apply IH.
Qed.

(** A string below another is below the prefix of the other that ends at
    the first byte in which they differ, zero bytes standing for the bytes
    that a shorter string does not have. *)
Lemma bytes_ltb_shared_prefix a : forall b za zb,
  bytes_ltb a b = true ->
  bytes_ltb a
    (firstn (S (shared_prefix_len (b ++ repeat 0 zb) (a ++ repeat 0 za))) b)
  = true.
Proof.
  induction a as [| x a IH]; intros [| y b] za zb H; try discriminate.
  - reflexivity.
  - cbn [bytes_ltb] in H. cbn [app shared_prefix_len].
    destruct (Z.ltb_spec x y) as [Hxy | Hxy].
    + destruct (Z.eqb_spec y x) as [E | _]; [lia |].
      cbn [firstn bytes_ltb]. destruct (Z.ltb_spec x y); [reflexivity | lia].
    + destruct (Z.ltb_spec y x) as [Hyx | Hyx]; [discriminate |].
      assert (y = x) as -> by lia. rewrite Z.eqb_refl.
      change (firstn (S (S ?n)) (x :: b)) with (x :: firstn (S n) b).
      cbn [bytes_ltb]. rewrite Z.ltb_irrefl. apply IH. exact H.
Qed.

Lemma skipn_nth_cons (l : bytes) i :
  (i < length l)%nat -> skipn i l = nth i l 0 :: skipn (S i) l.
Proof.
  revert i. induction l as [| x l IH]; intros i Hi; [simpl in Hi; lia |].
  destruct i as [| i]; [reflexivity |].
  simpl in Hi. cbn [skipn nth]. apply IH. lia.
Qed.

(** The loop of [getMinimalBound] counts the bytes that the two buffers
    share from index [i] on, over at most [fuel] bytes. *)
Lemma sharedPrefix_loop_spec fuel : forall i curr prev acc,
  (i + fuel <= length (XorElem.id curr))%nat ->
  (i + fuel <= length (XorElem.id prev))%nat ->
  sharedPrefix_loop fuel i curr prev acc =
  acc + Z.of_nat (shared_prefix_len
                    (firstn fuel (skipn i (XorElem.id curr)))
                    (firstn fuel (skipn i (XorElem.id prev)))).
Proof.
  induction fuel as [| fuel IH]; intros i curr prev acc Hc Hp.
  - cbn [sharedPrefix_loop firstn shared_prefix_len]. lia.
  - cbn [sharedPrefix_loop].
    rewrite (skipn_nth_cons (XorElem.id curr) i) by lia.
    rewrite (skipn_nth_cons (XorElem.id prev) i) by lia.
    cbn [firstn shared_prefix_len].
    destruct (Z.eqb_spec (nth i (XorElem.id curr) 0) (nth i (XorElem.id prev) 0));
      cbn [negb].
    + rewrite IH by lia. lia.
    + lia.
Qed.

Lemma getMinimalBound_same_timestamp idSize prev curr :
  0 <= idSize <= 32 ->
  XorElem.wf prev -> XorElem.wf curr ->
  XorElem.timestamp curr = XorElem.timestamp prev ->
  getMinimalBound idSize prev curr =
  XorElem.make (XorElem.timestamp curr)
    (firstn (S (shared_prefix_len (padded_id idSize curr)
                                  (padded_id idSize prev)))
            (XorElem.getId curr)).
Proof.
  intros Hsz (Hlp & _ & _) (Hlc & _ & _) Hts.
  unfold getMinimalBound. rewrite Hts, Z.eqb_refl. cbn [negb].
  rewrite sharedPrefix_loop_spec by lia.
  cbn [skipn]. unfold padded_id.
  replace (Z.to_nat (0 + Z.of_nat _ + 1)) with
    (S (shared_prefix_len (firstn (Z.to_nat idSize) (XorElem.id curr))
                          (firstn (Z.to_nat idSize) (XorElem.id prev))))
    by lia.
  reflexivity.
Qed.

Lemma getId_length e :
  XorElem.wf e -> length (XorElem.getId e) = Z.to_nat (XorElem.idSize e).
Proof.
  intros (Hl & Hs & _). unfold XorElem.getId. rewrite length_firstn. lia.
Qed.

Lemma all_zero_repeat (l : bytes) :
  (forall i, nth i l 0 = 0) -> l = repeat 0 (length l).
Proof.
  intros H. apply nth_ext with (d := 0) (d' := 0).
  - now rewrite repeat_length.
  - intros i Hi. rewrite H. symmetry. apply nth_repeat_lt. exact Hi.
Qed.

Lemma firstn_repeat_le {A : Type} (x : A) m : forall n,
  (m <= n)%nat -> firstn m (repeat x n) = repeat x m.
Proof.
  induction m as [| m IH]; intros [| n] H; try reflexivity; [lia |].
  cbn [repeat firstn]. f_equal. apply IH. lia.
Qed.

(** The first [idSize] bytes of the buffer of an element whose id has at
    most [idSize] bytes: the id, then zero bytes. *)
Lemma padded_id_app idSize e :
  XorElem.wf e -> XorElem.idSize e <= idSize <= 32 ->
  padded_id idSize e =
  XorElem.getId e ++ repeat 0 (Z.to_nat idSize - Z.to_nat (XorElem.idSize e)).
Proof.
  intros (Hl & Hs & Hz) Hle. unfold padded_id, XorElem.getId.
  set (c := Z.to_nat (XorElem.idSize e)). set (n := Z.to_nat idSize).
  assert (Hcn : (c <= n <= 32)%nat) by lia.
  rewrite <- (firstn_skipn c (XorElem.id e)) at 1.
  rewrite firstn_app, length_firstn.
  replace (Nat.min c (length (XorElem.id e))) with c by lia.
  rewrite firstn_firstn. replace (Nat.min n c) with c by lia.
  f_equal.
  rewrite (all_zero_repeat (skipn c (XorElem.id e))).
  - rewrite length_skipn. apply firstn_repeat_le. lia.
  - intros i. rewrite nth_skipn. apply Hz. lia.
Qed.

Lemma padded_id_whole idSize e :
  XorElem.idSize e = idSize -> padded_id idSize e = XorElem.getId e.
Proof. intros <-. reflexivity. Qed.

Lemma shared_prefix_len_sym a : forall b,
  shared_prefix_len a b = shared_prefix_len b a.
Proof.
  induction a as [| x a IH]; intros [| y b]; try reflexivity.
  cbn [shared_prefix_len]. rewrite (Z.eqb_sym y x), IH. reflexivity.
Qed.

Lemma make_ok_getId ts b :
  (length b <= 32)%nat ->
  exists e, XorElem.make ts b = Ok e /\
    XorElem.timestamp e = ts /\ XorElem.getId e = b /\
    XorElem.idSize e = zlen b.
Proof.
  intros H. eexists. split; [apply make_ok; exact H |].
  split; [reflexivity |]. split; [apply getId_make | reflexivity].
Qed.

(** Within the data model the bound separates: for two constructor-made
    elements [prev < curr] whose ids have at most [idSize] bytes,
    [getMinimalBound] returns a bound [B] with [prev < B <= curr] whose id
    has at most [idSize] bytes; its timestamp is that of [curr]; its id is
    empty when the timestamps differ, and otherwise the first [k + 1]
    bytes of the id of [curr], [k] being the number of leading bytes that
    the two ids share within their first [idSize] bytes (as the buffers
    hold them: for ids of [idSize] bytes, the ids themselves). *)
Lemma getMinimalBound_separates (idSize : Z) (prev curr : XorElem.t)
  (Hsz : 8 <= idSize <= 32)
  (Hp : XorElem.wf prev) (Hc : XorElem.wf curr)
  (Hpl : XorElem.idSize prev <= idSize) (Hcl : XorElem.idSize curr <= idSize)
  (Hlt : XorElem.ltb prev curr = true) :
  exists B,
    getMinimalBound idSize prev curr = Ok B /\
    XorElem.ltb prev B = true /\ leb B curr = true /\
    XorElem.idSize B = zlen (XorElem.getId B) /\
    zlen (XorElem.getId B) <= idSize /\
    XorElem.timestamp B = XorElem.timestamp curr /\
    (XorElem.timestamp curr <> XorElem.timestamp prev ->
     XorElem.getId B = []) /\
    (XorElem.timestamp curr = XorElem.timestamp prev ->
     XorElem.getId B =
     firstn (shared_prefix_len (padded_id idSize prev) (padded_id idSize curr)
             + 1)
            (XorElem.getId curr)) /\
    (XorElem.idSize prev = idSize -> XorElem.idSize curr = idSize ->
     padded_id idSize prev = XorElem.getId prev /\
     padded_id idSize curr = XorElem.getId curr).
Proof.
  pose proof (getId_length _ Hp) as Lp. pose proof (getId_length _ Hc) as Lc.
  assert (Hwhole : XorElem.idSize prev = idSize ->
                   XorElem.idSize curr = idSize ->
                   padded_id idSize prev = XorElem.getId prev /\
                   padded_id idSize curr = XorElem.getId curr).
  { intros E1 E2. split; apply padded_id_whole; assumption. }
  assert (Hc32 : 0 <= XorElem.idSize curr <= 32) by (destruct Hc; tauto).
  destruct (Z.eq_dec (XorElem.timestamp curr) (XorElem.timestamp prev))
    as [Ets | Ets].
  - (* same timestamp: the ids decide *)
    assert (Hb : bytes_ltb (XorElem.getId prev) (XorElem.getId curr) = true).
    { unfold XorElem.ltb in Hlt. rewrite <- Ets, Z.eqb_refl in Hlt.
      exact Hlt. }
    set (k := shared_prefix_len (padded_id idSize curr)
                                (padded_id idSize prev)).
    assert (Hlow : bytes_ltb (XorElem.getId prev)
                     (firstn (S k) (XorElem.getId curr)) = true).
    { subst k. rewrite (padded_id_app idSize curr), (padded_id_app idSize prev)
        by (assumption || lia).
      apply bytes_ltb_shared_prefix. exact Hb. }
    assert (Hshort : (length (firstn (S k) (XorElem.getId curr)) <= 32)%nat)
      by (rewrite length_firstn; lia).
    destruct (make_ok_getId (XorElem.timestamp curr) _ Hshort)
      as (B & EB & Bts & Bid & Bsz).
    exists B.
    split.
    { rewrite (getMinimalBound_same_timestamp idSize prev curr
                 ltac:(lia) Hp Hc Ets).
      exact EB. }
    split.
    { unfold XorElem.ltb. rewrite Bts, Ets, Z.eqb_refl. cbn [negb].
      rewrite Bid. exact Hlow. }
    split.
    { unfold leb, XorElem.ltb. rewrite Bts, Z.eqb_refl. cbn [negb].
      rewrite Bid, bytes_ltb_prefix. reflexivity. }
    split; [rewrite Bid; exact Bsz |].
    split.
    { rewrite Bid. unfold zlen. rewrite length_firstn. lia. }
    split; [exact Bts |].
    split; [intros Hne; contradiction |].
    split; [| exact Hwhole].
    intros _. rewrite Bid, (shared_prefix_len_sym (padded_id idSize prev)).
    fold k. rewrite Nat.add_1_r. reflexivity.
  - (* the timestamps differ: the empty id is enough *)
    exists (empty_bound (XorElem.timestamp curr)).
    assert (Hts : XorElem.timestamp prev < XorElem.timestamp curr).
    { unfold XorElem.ltb in Hlt.
      destruct (Z.eqb_spec (XorElem.timestamp prev) (XorElem.timestamp curr))
        as [E | _]; [congruence |].
      cbn [negb] in Hlt. apply Z.ltb_lt. exact Hlt. }
    split.
    { unfold getMinimalBound.
      destruct (Z.eqb_spec (XorElem.timestamp curr) (XorElem.timestamp prev));
        [contradiction | reflexivity]. }
    split.
    { unfold XorElem.ltb. cbn [empty_bound XorElem.timestamp].
      destruct (Z.eqb_spec (XorElem.timestamp prev) (XorElem.timestamp curr));
        [lia |].
      cbn [negb]. apply Z.ltb_lt. exact Hts. }
    split.
    { unfold leb, XorElem.ltb. cbn [empty_bound XorElem.timestamp].
      rewrite Z.eqb_refl. cbn [negb].
      change (XorElem.getId
                (XorElem.mk (XorElem.timestamp curr) 0 (repeat 0 32%nat)))
        with (@nil Z).
      rewrite bytes_ltb_nil_r. reflexivity. }
    split; [reflexivity |].
    split; [unfold zlen; simpl; lia |].
    split; [reflexivity |].
    split; [reflexivity |].
    split; [intros E; contradiction | exact Hwhole].
Qed.

Lemma getMinimalBound_separates_example :
  exists B,
    getMinimalBound 8
      (XorElem.mk 5 8 ([65; 65; 65; 65; 65; 65; 65; 65] ++ repeat 0 24%nat))
      (XorElem.mk 5 8 ([65; 65; 65; 66; 65; 65; 65; 65] ++ repeat 0 24%nat))
    = Ok B /\ XorElem.getId B = [65; 65; 65; 66].
Proof.
  destruct (getMinimalBound_separates 8
    (XorElem.mk 5 8 ([65; 65; 65; 65; 65; 65; 65; 65] ++ repeat 0 24%nat))
    (XorElem.mk 5 8 ([65; 65; 65; 66; 65; 65; 65; 65] ++ repeat 0 24%nat)))
    as (B & E & _ & _ & _ & _ & _ & _ & Hid & _).
  - lia.
  - apply (wf_make 5 [65; 65; 65; 65; 65; 65; 65; 65]). reflexivity.
  - apply (wf_make 5 [65; 65; 65; 66; 65; 65; 65; 65]). reflexivity.
  - simpl. lia.
  - simpl. lia.
  - reflexivity.
  - exists B. split; [exact E |]. apply Hid. reflexivity.
Defined.

(** C5. Bound minimality does not hold for all the items that the code
    takes.  [addItem] accepts ids of more than [idSize] bytes (up to 32):
    32 items with timestamp 5 and ids of 10 bytes that agree on their
    first 9 bytes are added to an object of [idSize] 8 and sealed.  For
    the neighbours at positions 1 and 2, [prev < curr], the loop of
    [getMinimalBound] stops after [idSize] shared bytes and the bound is
    made of the first 9 bytes of the id of [curr]: its id has more than
    [idSize] bytes and, being a prefix of the id of [prev], it is below
    [prev], not above.  The first frame of such an object carries those
    bounds and a peer with the same items cannot parse it. *)
Theorem bound_minimality_fails_beyond_idSize :
  (st0 <- new 8 ;; st1 <- addItems st0 (rev sample_long_adds) ;; seal st1)
    = Ok (peer 8 sample_long_items false) /\
  XorElem.ltb (item_at sample_long_items 1) (item_at sample_long_items 2)
    = true /\
  getMinimalBound 8 (item_at sample_long_items 1)
    (item_at sample_long_items 2) = Ok sample_long_bound /\
  XorElem.getId sample_long_bound = repeat 65 8%nat ++ [1] /\
  8 < zlen (XorElem.getId sample_long_bound) /\
  XorElem.ltb (item_at sample_long_items 1) sample_long_bound = false /\
  XorElem.ltb sample_long_bound (item_at sample_long_items 1) = true /\
  exists frame,
    initiate (peer 8 sample_long_items false) 0
      = Ok (frame, peer 8 sample_long_items true) /\
    reconcile insertion_order (peer 8 sample_long_items false) frame
      = Err "unexpected mode"%string.
Proof.
  split; [vm_compute; reflexivity |].
  split; [vm_compute; reflexivity |].
  split; [vm_compute; reflexivity |].
  split; [vm_compute; reflexivity |].
  split; [vm_compute; reflexivity |].
  split; [vm_compute; reflexivity |].
  split; [vm_compute; reflexivity |].
  destruct (initiate (peer 8 sample_long_items false) 0)
    as [[frame st'] |] eqn:E; [| vm_compute in E; discriminate].
  exists frame.
  assert (Est : st' = peer 8 sample_long_items true).
  { vm_compute in E. apply Ok_pair_inj in E. destruct E as [_ <-].
    vm_compute. reflexivity. }
  subst st'. split; [reflexivity |].
  vm_compute in E. apply Ok_pair_inj in E. destruct E as [<- _].
  vm_compute. reflexivity.
Qed.

(** [getMinimalBound] returns the minimal separating bound as the
    specification words it, for constructor-made elements. *)
Lemma getMinimalBound_minimal_bound idSize prev curr :
  0 <= idSize <= 32 ->
  XorElem.wf prev -> XorElem.wf curr ->
  getMinimalBound idSize prev curr = Ok (minimal_bound idSize prev curr).
Proof.
  intros Hsz Hp Hc. unfold minimal_bound.
  destruct (XorElem.timestamp curr =? XorElem.timestamp prev) eqn:Ets.
  - apply Z.eqb_eq in Ets.
    rewrite (getMinimalBound_same_timestamp idSize prev curr Hsz Hp Hc Ets).
    rewrite (shared_prefix_len_sym (padded_id idSize curr)), Nat.add_1_r.
    apply make_ok. rewrite length_firstn.
    pose proof (getId_length _ Hc) as Hl. destruct Hc as (_ & Hs & _). lia.
  - unfold getMinimalBound. rewrite Ets. cbn [negb].
    apply make_ok. simpl. lia.
Qed.

(** ** Range splitting *)

Lemma to_nat_div16 (n : nat) : Z.to_nat (Z.of_nat n / 16) = (n / 16)%nat.
Proof.
  change 16 with (Z.of_nat 16). rewrite <- Nat2Z.inj_div. apply Nat2Z.id.
Qed.

Lemma of_nat_mod16 (n : nat) : Z.of_nat n mod 16 = Z.of_nat (n mod 16).
Proof. change 16 with (Z.of_nat 16). now rewrite <- Nat2Z.inj_mod. Qed.

Lemma bucket_start_0 lower n : bucket_start lower n 0 = lower.
Proof. unfold bucket_start. simpl. lia. Qed.

Lemma bucket_start_succ lower n j :
  bucket_start lower n (S j) =
  (bucket_start lower n j + n / 16
   + (if (j <? n mod 16)%nat then 1 else 0))%nat.
Proof.
  unfold bucket_start. generalize (n / 16)%nat (n mod 16)%nat. intros q r.
  destruct (Nat.ltb_spec j r); lia.
Qed.


(** The end of a bucket as the loop computes it. *)
Lemma bucketEnd_eq lower n j :
  (bucket_start lower n j + Z.to_nat (Z.of_nat n / 16)
   + (if (Z.of_nat j <? Z.of_nat n mod 16)%Z then 1 else 0))%nat
  = bucket_start lower n (S j).
Proof.
  rewrite bucket_start_succ, to_nat_div16, of_nat_mod16.
  destruct (Z.ltb_spec (Z.of_nat j) (Z.of_nat (n mod 16)));
    destruct (Nat.ltb_spec j (n mod 16)); lia.
Qed.

Lemma xor_fold_id l : forall x,
  XorElem.id (fold_left XorElem.xor l x) =
  fold_left (fun acc e => xor_bytes acc (XorElem.id e)) l (XorElem.id x) /\
  XorElem.idSize (fold_left XorElem.xor l x) = XorElem.idSize x.
Proof.
  induction l as [| e l IH]; intros x; [split; reflexivity |].
  cbn [fold_left]. destruct (IH (XorElem.xor x e)) as [H1 H2].
  rewrite H1, H2. split; reflexivity.
Qed.

(** The fingerprint of a range: the XOR of the buffers, cut to [idSize]. *)
Lemma getIdSub_xor_range items a b idSize :
  0 <= idSize <= 32 ->
  XorElem.getIdSub (xor_range items a b) idSize =
  firstn (Z.to_nat idSize) (xor_ids (slice items a b)).
Proof.
  intros Hsz. unfold XorElem.getIdSub, XorElem.getId, xor_range, xor_ids.
  destruct (xor_fold_id (slice items a b) XorElem.default) as [H1 H2].
  rewrite H1, H2. cbn [XorElem.default XorElem.idSize XorElem.id].
  rewrite firstn_firstn. f_equal. lia.
Qed.

Lemma default_wf : XorElem.wf XorElem.default.
Proof.
  unfold XorElem.wf. cbn [XorElem.default XorElem.idSize XorElem.id].
  split; [reflexivity |]. split; [lia |].
  intros i Hi. apply nth_overflow. rewrite repeat_length. lia.
Qed.

Lemma item_at_wf items i : Forall XorElem.wf items -> XorElem.wf (item_at items i).
Proof.
  intros H. unfold item_at.
  destruct (nth_in_or_default i items XorElem.default) as [Hin | ->].
  - rewrite Forall_forall in H. apply H. exact Hin.
  - apply default_wf.
Qed.

(** [getMinimalBound] does not throw: the id of the bound is part of the id
    of [curr]. *)
Lemma getMinimalBound_ok idSize prev curr :
  XorElem.wf curr -> exists B, getMinimalBound idSize prev curr = Ok B.
Proof.
  intros Hc. pose proof (getId_length _ Hc) as Hl.
  destruct Hc as (_ & Hs & _). unfold getMinimalBound.
  destruct (negb _); eexists; apply make_ok.
  - simpl. lia.
  - rewrite length_firstn. lia.
Qed.

Lemma splitRange_buckets_S fuel i idSize items ipb extra lowerBound curr
    prevBound outputs :
  splitRange_buckets (S fuel) i idSize items ipb extra lowerBound curr
    prevBound outputs =
  bind (getMinimalBound idSize
          (item_at items
             (pred (curr + Z.to_nat ipb
                    + (if (i <? extra)%Z then 1 else 0))%nat))
          (item_at items
             (curr + Z.to_nat ipb + (if (i <? extra)%Z then 1 else 0))%nat))
    (fun e =>
       splitRange_buckets fuel (i + 1) idSize items ipb extra lowerBound
         (curr + Z.to_nat ipb + (if (i <? extra)%Z then 1 else 0))%nat e
         (outputs ++
          [mkBoundOutput (if i =? 0 then lowerBound else prevBound) e
             (encodeVarInt 1 ++
              XorElem.getIdSub
                (xor_range items curr
                   (curr + Z.to_nat ipb
                    + (if (i <? extra)%Z then 1 else 0))%nat)
                idSize)])).
Proof. reflexivity. Qed.

Section SplitRange.

Variable idSize : Z.
Variable items : list XorElem.t.
Variables lower n : nat.
Variables lowerBound upperBound : XorElem.t.
Hypothesis idSize_range : 0 <= idSize <= 32.
Hypothesis items_wf : Forall XorElem.wf items.

(** The loop of [splitRange] from bucket [j] on. *)
Lemma splitRange_buckets_spec fuel : forall j prevBound outputs,
  (j <> 0%nat -> prevBound = split_bound idSize items lower n j) ->
  exists recs,
    splitRange_buckets fuel (Z.of_nat j) idSize items (Z.of_nat n / 16)
      (Z.of_nat n mod 16) lowerBound (bucket_start lower n j) prevBound
      outputs = Ok (outputs ++ recs) /\
    Forall2 (is_bucket_record false idSize items lower n lowerBound
               upperBound)
            (seq j fuel) recs.
Proof.
  induction fuel as [| fuel IH]; intros j prevBound outputs Hprev.
  - exists []. split; [cbn; now rewrite app_nil_r | constructor].
  - rewrite splitRange_buckets_S, bucketEnd_eq.
    rewrite (getMinimalBound_minimal_bound idSize _ _ idSize_range
               (item_at_wf _ _ items_wf) (item_at_wf _ _ items_wf)).
    cbn [bind].
    replace (Z.of_nat j + 1) with (Z.of_nat (S j)) by lia.
    rewrite <- Nat.sub_1_r. fold (split_bound idSize items lower n (S j)).
    set (e := split_bound idSize items lower n (S j)).
    set (r0 := mkBoundOutput _ e _).
    destruct (IH (S j) e (outputs ++ [r0]) (fun _ => eq_refl))
      as (recs & E & HF).
    exists (r0 :: recs). split.
    + rewrite E, <- app_assoc. reflexivity.
    + cbn [seq]. constructor; [| exact HF].
      unfold is_bucket_record. subst r0. cbn [payload start end_ andb].
      split; [rewrite getIdSub_xor_range by exact idSize_range;
              reflexivity |].
      split.
      * destruct j as [| j]; [reflexivity |].
        cbn [Nat.eqb]. replace (Z.of_nat (S j) =? 0) with false
          by (symmetry; apply Z.eqb_neq; lia).
        apply Hprev. discriminate.
      * reflexivity.
Qed.

End SplitRange.

Lemma set_back_end_snoc l b ub :
  set_back_end (l ++ [b]) ub = l ++ [mkBoundOutput (start b) ub (payload b)].
Proof.
  unfold set_back_end. rewrite rev_app_distr. cbn [rev app].
  rewrite rev_involutive. reflexivity.
Qed.



Lemma getIdSub_whole e n :
  XorElem.idSize e <= n -> XorElem.getIdSub e n = XorElem.getId e.
Proof.
  intros H. unfold XorElem.getIdSub. apply firstn_all2.
  unfold XorElem.getId. rewrite length_firstn. lia.
Qed.





(** ** Output scheduler *)

Lemma buildOutput_loop_cons idSize limit p pending output currBound last :
  buildOutput_loop idSize limit (p :: pending) output currBound last =
  if XorElem.ltb (start p) currBound then (output, p :: pending)
  else
    let '(o, last') := record_bytes idSize p currBound last in
    if negb (limit =? 0) && (limit <? zlen output + zlen o)
    then (output, p :: pending)
    else buildOutput_loop idSize limit pending (output ++ o) (end_ p) last'.
Proof.
  cbn [buildOutput_loop]. unfold record_bytes.
  destruct (XorElem.ltb (start p) currBound); [reflexivity |].
  destruct (negb (XorElem.eqb currBound (start p))).
  - destruct (encodeBound idSize (start p) last) as [b l].
    destruct (encodeBound idSize (end_ p) l) as [b' l']. reflexivity.
  - destruct (encodeBound idSize (end_ p) last) as [b' l']. reflexivity.
Qed.

Lemma zlen_app {A : Type} (a b : list A) : zlen (a ++ b) = zlen a + zlen b.
Proof. unfold zlen. rewrite length_app. lia. Qed.

(** The loop of [buildOutput]: the frame grows by whole records taken from
    the front of the queue and stays within the limit. *)
Lemma buildOutput_loop_spec idSize limit pending :
  forall output currBound last out rest,
  buildOutput_loop idSize limit pending output currBound last = (out, rest) ->
  exists emitted,
    pending = emitted ++ rest /\
    out = output ++ frame_of idSize emitted currBound last /\
    (0 < limit -> zlen output <= limit -> zlen out <= limit).
Proof.
  induction pending as [| p pending IH];
    intros output currBound last out rest H.
  - cbn [buildOutput_loop] in H. apply pair_equal_spec in H.
    destruct H as [<- <-]. exists []. cbn [frame_of app].
    rewrite app_nil_r. auto.
  - rewrite buildOutput_loop_cons in H.
    destruct (XorElem.ltb (start p) currBound).
    { apply pair_equal_spec in H. destruct H as [<- <-]. exists [].
      cbn [frame_of app]. rewrite app_nil_r. auto. }
    destruct (record_bytes idSize p currBound last) as [o last'] eqn:Er.
    destruct (negb (limit =? 0) && (limit <? zlen output + zlen o)) eqn:Ec.
    { apply pair_equal_spec in H. destruct H as [<- <-]. exists [].
      cbn [frame_of app]. rewrite app_nil_r. auto. }
    apply IH in H. destruct H as (emitted & -> & -> & Hcap).
    exists (p :: emitted). split; [reflexivity |]. split.
    + cbn [frame_of]. rewrite Er, app_assoc. reflexivity.
    + intros Hpos Hout. apply Hcap; [exact Hpos |].
      rewrite zlen_app.
      apply andb_false_iff in Ec. destruct Ec as [Ec | Ec].
      * apply negb_false_iff, Z.eqb_eq in Ec. lia.
      * apply Z.ltb_ge in Ec. exact Ec.
Qed.

(** C3. Frame cap: with [frameSizeLimit = L >= 1024], [buildOutput] returns
    a frame of at most [L] bytes, made of the whole records (each with the
    Skip filler that goes before it) of the pending outputs it took from
    the front of the queue; the pending outputs it did not emit stay in the
    queue, in order, for the next call, and nothing else of the state
    changes. *)
Theorem frame_cap (st : Negentropy) (L : Z)
  (HL : 1024 <= L) (Hlim : frameSizeLimit st = L) :
  exists frame st' emitted,
    buildOutput st = Ok (frame, st') /\
    zlen frame <= L /\
    pendingOutputs st = emitted ++ pendingOutputs st' /\
    frame = frame_of (idSize st) emitted (empty_bound 0) 0 /\
    st' = mkNegentropy (idSize st) (items st) (sealed st) (isInitiator st)
            (frameSizeLimit st) (pendingOutputs st').
Proof.
  unfold buildOutput. rewrite make_empty. cbn [bind].
  destruct (buildOutput_loop (idSize st) (frameSizeLimit st)
              (pendingOutputs st) [] (empty_bound 0) 0) as [out rest] eqn:E.
  apply buildOutput_loop_spec in E. destruct E as (emitted & E1 & E2 & Hcap).
  exists out, (mkNegentropy (idSize st) (items st) (sealed st)
                 (isInitiator st) (frameSizeLimit st) rest), emitted.
  cbn [pendingOutputs idSize items sealed isInitiator frameSizeLimit].
  split; [reflexivity |]. split.
  - rewrite <- Hlim. apply Hcap; [lia | unfold zlen; simpl; lia].
  - split; [exact E1 |]. split; [exact E2 | reflexivity].
Qed.

Lemma frame_cap_witness :
  exists frame st',
    buildOutput sample_capped = Ok (frame, st') /\
    zlen frame <= 1024 /\ length (pendingOutputs st') = 1%nat.
Proof.
  destruct (frame_cap sample_capped 1024) as (frame & st' & emitted & E & Hc & _).
  - lia.
  - reflexivity.
  - exists frame, st'. split; [exact E |]. split; [exact Hc |].
    pose proof E as E'. vm_compute in E'.
    apply Ok_pair_inj in E'. destruct E' as [_ <-]. reflexivity.
Defined.

(** ** Empty against empty *)

Lemma getIdSub_empty_bound t n : XorElem.getIdSub (empty_bound t) n = [].
Proof. unfold XorElem.getIdSub. cbn. apply firstn_nil. Qed.

Lemma encodeBound_empty_bound sz t last :
  encodeBound sz (empty_bound t) last =
  (fst (encodeTimestampOut t last) ++ [0], snd (encodeTimestampOut t last)).
Proof.
  unfold encodeBound. cbn [empty_bound XorElem.timestamp].
  destruct (encodeTimestampOut t last) as [b l].
  fold (empty_bound t). rewrite getIdSub_empty_bound.
  cbn [fst snd XorElem.idSize]. change (encodeVarInt 0) with [0].
  rewrite app_nil_r. reflexivity.
Qed.

(** The frame that opens or answers for the whole domain when the queue
    holds one output from [(0, "")] to [(MAX_U64, "")]. *)
Lemma buildOutput_whole_domain sz items0 role limit pl :
  limit = 0 ->
  buildOutput (mkNegentropy sz items0 true role limit
                 [mkBoundOutput (empty_bound 0) (empty_bound MAX_U64) pl]) =
  Ok ([0; 0] ++ pl, mkNegentropy sz items0 true role limit []).
Proof.
  intros ->. unfold buildOutput. rewrite make_empty.
  cbn [bind idSize items sealed isInitiator frameSizeLimit pendingOutputs].
  rewrite buildOutput_loop_cons. cbn [start end_ payload].
  change (XorElem.ltb (empty_bound 0) (empty_bound 0)) with false. cbv iota.
  unfold record_bytes. cbn [start end_ payload].
  change (XorElem.eqb (empty_bound 0) (empty_bound 0)) with true. cbn [negb].
  rewrite encodeBound_empty_bound.
  change (encodeTimestampOut MAX_U64 0) with ([0], MAX_U64).
  cbn [fst snd app]. change (0 =? 0) with true.
  cbn [negb andb buildOutput_loop]. reflexivity.
Qed.

Section EmptyPeers.

Variable map_order : TheirElems -> TheirElems.
Hypothesis map_order_ok : map_order_spec map_order.
Variable sz : Z.

Lemma map_order_nil : map_order [] = [].
Proof. apply Permutation_nil. symmetry. apply map_order_ok. Qed.

Lemma empty_initiate :
  initiate (empty_peer sz) 0 = Ok ([0; 0; 2; 0], empty_initiator sz).
Proof.
  unfold initiate, empty_peer. cbn [sealed negb].
  change (0 =? 0) with true. cbn [negb andb].
  rewrite !make_empty. cbn [bind idSize items pendingOutputs sealed length].
  unfold splitRange. cbn [Nat.sub Z.of_nat].
  change (0 <? 16 * 2) with true. cbv iota.
  unfold slice. cbn [skipn firstn Nat.sub map concat app bind].
  change (encodeVarInt 2) with [2]. change (encodeVarInt 0) with [0].
  cbn [app]. apply buildOutput_whole_domain. reflexivity.
Qed.

Lemma empty_responder_reply :
  reconcile map_order (empty_peer sz) [0; 0; 2; 0] =
  Ok ([0; 0; 3; 0; 0], empty_peer sz).
Proof.
  unfold reconcile, reconcileAux, empty_peer. cbn [isInitiator sealed negb].
  rewrite make_empty. cbn [bind length reconcileAux_loop query].
  unfold reconcileAux_step. cbn [query lastTimestampIn].
  change (decodeBound [0; 0; 2; 0] 0)
    with (Ok (empty_bound MAX_U64, [2; 0], MAX_U64)).
  cbn [bind]. change (decodeVarInt [2; 0]) with (Ok (2, [0])). cbn [bind].
  change (2 =? 0) with false. change (2 =? 1) with false.
  change (2 =? 2) with true. cbv iota.
  unfold onIdList. change (decodeVarInt [0]) with (Ok (0, @nil Z)).
  cbn [bind Z.to_nat readTheirElems items prevIndex].
  unfold upper_bound, slice.
  cbn [skipn upper_bound_from Nat.sub firstn fold_left].
  rewrite map_order_nil.
  cbn [fold_left isInitiator negb haveIds needIds outputs prevBound app
       encodeBitField concat].
  change (encodeVarInt 3) with [3]. change (zlen (@nil bytes)) with 0.
  change (zlen (@nil Z)) with 0. change (encodeVarInt 0) with [0].
  cbn [app bind query idSize items sealed isInitiator frameSizeLimit
       pendingOutputs outputs].
  apply (buildOutput_whole_domain sz [] false 0 [3; 0; 0]). reflexivity.
Qed.

Lemma empty_initiator_done :
  reconcile_have_need map_order (empty_initiator sz) [0; 0; 3; 0; 0] [] [] =
  Ok ([], [], [], empty_initiator sz).
Proof.
  unfold reconcile_have_need, reconcileAux, empty_initiator.
  cbn [isInitiator sealed negb].
  rewrite make_empty. cbn [bind length reconcileAux_loop query].
  unfold reconcileAux_step. cbn [query lastTimestampIn].
  change (decodeBound [0; 0; 3; 0; 0] 0)
    with (Ok (empty_bound MAX_U64, [3; 0; 0], MAX_U64)).
  cbn [bind]. change (decodeVarInt [3; 0; 0]) with (Ok (3, [0; 0])).
  cbn [bind].
  change (3 =? 0) with false. change (3 =? 1) with false.
  change (3 =? 2) with false. change (3 =? 3) with true. cbv iota.
  unfold onIdListResponse. cbn [isInitiator negb].
  change (decodeVarInt [0; 0]) with (Ok (0, [0])).
  cbn [bind Z.to_nat readNeedIds needIds].
  change (decodeVarInt [0]) with (Ok (0, @nil Z)). cbn [bind].
  change (getBytes [] 0) with (Ok (@nil Z, @nil Z)).
  cbn [bind items prevIndex]. unfold upper_bound, slice.
  cbn [skipn upper_bound_from Nat.sub firstn haveFromBitField haveIds
       bind query outputs needIds app idSize items sealed isInitiator
       frameSizeLimit pendingOutputs].
  unfold buildOutput. rewrite make_empty.
  cbn [bind idSize items sealed isInitiator frameSizeLimit pendingOutputs
       buildOutput_loop].
  reflexivity.
Qed.

Lemma empty_initiator_on_empty_frame :
  reconcile_have_need map_order (empty_initiator sz) [] [] [] =
  Ok ([], [], [], empty_initiator sz).
Proof. reflexivity. Qed.

End EmptyPeers.

Lemma frame_of_whole_domain sz pl :
  frame_of sz [mkBoundOutput (empty_bound 0) (empty_bound MAX_U64) pl]
    (empty_bound 0) 0 = [0; 0] ++ pl.
Proof.
  cbn [frame_of]. unfold record_bytes. cbn [start end_ payload].
  change (XorElem.eqb (empty_bound 0) (empty_bound 0)) with true. cbn [negb].
  rewrite encodeBound_empty_bound.
  change (encodeTimestampOut MAX_U64 0) with ([0], MAX_U64).
  cbn [fst snd app]. rewrite app_nil_r. reflexivity.
Qed.

(** C2 as stated fails: the reply of the responder to the first frame of
    an initiator without items is not empty; it is the five bytes of an
    IdListResponse record. *)
Lemma empty_vs_empty_reply_not_empty :
  initiate (empty_peer 8) 0 = Ok ([0; 0; 2; 0], empty_initiator 8) /\
  reconcile insertion_order (empty_peer 8) [0; 0; 2; 0]
    = Ok ([0; 0; 3; 0; 0], empty_peer 8) /\
  (forall st', reconcile insertion_order (empty_peer 8) [0; 0; 2; 0]
               <> Ok ([], st')).
Proof.
  assert (E : reconcile insertion_order (empty_peer 8) [0; 0; 2; 0]
              = Ok ([0; 0; 3; 0; 0], empty_peer 8))
    by (vm_compute; reflexivity).
  split; [vm_compute; reflexivity |]. split; [exact E |].
  intros st'. rewrite E. discriminate.
Qed.

(** C2, amended. Empty against empty: when both peers are sealed without
    items, [initiate()] gives a frame of one record, an IdList with zero
    ids from [(0, "")] to [(MAX_U64, "")]; the reconcile of the responder
    on that frame gives back a frame of one record, an IdListResponse with
    zero ids and an empty bit field over the same range; the reconcile of
    the initiator on that reply, and also on an empty reply, gives empty
    have, empty need and an empty frame. *)
Theorem empty_vs_empty (map_order : TheirElems -> TheirElems) (sz : Z)
  (Hord : map_order_spec map_order) (Hsz : 8 <= sz <= 32) :
  new sz = Ok (mkNegentropy sz [] false false 0 []) /\
  seal (mkNegentropy sz [] false false 0 []) = Ok (empty_peer sz) /\
  initiate (empty_peer sz) 0 = Ok ([0; 0; 2; 0], empty_initiator sz) /\
  [0; 0; 2; 0] =
    frame_of sz [mkBoundOutput (empty_bound 0) (empty_bound MAX_U64)
                   (encodeVarInt 2 ++ encodeVarInt 0)] (empty_bound 0) 0 /\
  reconcile map_order (empty_peer sz) [0; 0; 2; 0]
    = Ok ([0; 0; 3; 0; 0], empty_peer sz) /\
  [0; 0; 3; 0; 0] =
    frame_of sz [mkBoundOutput (empty_bound 0) (empty_bound MAX_U64)
                   (encodeVarInt 3 ++ encodeVarInt 0 ++ encodeVarInt 0)]
      (empty_bound 0) 0 /\
  reconcile_have_need map_order (empty_initiator sz) [0; 0; 3; 0; 0] [] []
    = Ok ([], [], [], empty_initiator sz) /\
  reconcile_have_need map_order (empty_initiator sz) [] [] []
    = Ok ([], [], [], empty_initiator sz).
Proof.
  split.
  { unfold new.
    destruct (Z.ltb_spec sz 8); [lia |].
    destruct (Z.ltb_spec 32 sz); [lia | reflexivity]. }
  split; [reflexivity |].
  split; [apply empty_initiate |].
  split; [rewrite frame_of_whole_domain; reflexivity |].
  split; [apply empty_responder_reply; exact Hord |].
  split; [rewrite frame_of_whole_domain; reflexivity |].
  split; [apply empty_initiator_done |].
  apply empty_initiator_on_empty_frame.
Qed.

Lemma insertion_order_ok : map_order_spec insertion_order.
Proof. intros m. apply Permutation_refl. Qed.

Lemma empty_vs_empty_witness :
  reconcile insertion_order (empty_peer 8) [0; 0; 2; 0]
    = Ok ([0; 0; 3; 0; 0], empty_peer 8) /\
  reconcile_have_need insertion_order (empty_initiator 8) [0; 0; 3; 0; 0] [] []
    = Ok ([], [], [], empty_initiator 8).
Proof.
  destruct (empty_vs_empty insertion_order 8)
    as (_ & _ & _ & _ & H1 & _ & H2 & _).
  - intros m. apply Permutation_refl.
  - lia.
  - split; [exact H1 | exact H2].
Defined.

(** ** Encoding of a bound *)

(** C6 fails on a bound whose id is longer than the [idSize] of the
    session: [encodeBound] writes the length of the whole id and then only
    [idSize] bytes of it.  Such a bound comes in with a frame:
    [decodeBound] takes any id of up to 32 bytes, and the responder answers
    an IdList over the range that ends at that bound.  Here [idSize] is 8
    and the bound has nine bytes [65]: the length byte of the answer says
    9, eight id bytes follow, and the initiator that reads the answer takes
    the mode byte for the ninth and fails further on. *)
Lemma encodeBound_length_field_mismatch :
  encodeBound 8 (XorElem.mk 0 9 (repeat 65 9%nat ++ repeat 0 23%nat)) 0
    = ([1; 9] ++ repeat 65 8%nat, 0) /\
  decodeBound ([1; 9] ++ repeat 65 9%nat ++ [2; 0]) 0
    = Ok (XorElem.mk 0 9 (repeat 65 9%nat ++ repeat 0 23%nat), [2; 0], 0) /\
  reconcile insertion_order (empty_peer 8)
    ([1; 9] ++ repeat 65 9%nat ++ [2; 0])
    = Ok ([1; 9] ++ repeat 65 8%nat ++ [3; 0; 0], empty_peer 8) /\
  reconcile_have_need insertion_order (empty_initiator 8)
    ([1; 9] ++ repeat 65 8%nat ++ [3; 0; 0]) [] []
    = Err "premature end of varint"%string.
Proof. repeat split; vm_compute; reflexivity. Qed.

(** Where the id of the bound has at most [idSize] bytes, the length that
    [encodeBound] writes is the number of id bytes that follow it. *)
Lemma encodeBound_length_field_ok sz bound last :
  XorElem.idSize bound <= sz ->
  XorElem.idSize bound = zlen (XorElem.getId bound) ->
  encodeBound sz bound last =
  (fst (encodeTimestampOut (XorElem.timestamp bound) last)
   ++ encodeVarInt (zlen (XorElem.getId bound)) ++ XorElem.getId bound,
   snd (encodeTimestampOut (XorElem.timestamp bound) last)).
Proof.
  intros Hle Hlen. unfold encodeBound.
  destruct (encodeTimestampOut (XorElem.timestamp bound) last) as [b l].
  rewrite getIdSub_whole by exact Hle. rewrite <- Hlen. reflexivity.
Qed.

(** ** Duplicates *)

Lemma bytes_eqb_eq a : forall b, bytes_eqb a b = true <-> a = b.
Proof.
  induction a as [| x a IH]; intros [| y b]; cbn [bytes_eqb];
    try (split; [discriminate | discriminate]); [tauto |].
  rewrite andb_true_iff, Z.eqb_eq, IH. split.
  - intros [-> ->]. reflexivity.
  - intros E. injection E as -> ->. auto.
Qed.

Lemma keys_key_offsets m : map fst (key_offsets m) = map fst m.
Proof. unfold key_offsets. rewrite map_map. reflexivity. Qed.

Lemma find_None_key m k : find m k = None -> ~ In k (map fst m).
Proof.
  induction m as [| [k' v] m IH]; intros H; [intros []|].
  cbn [find] in H. destruct (bytes_eqb k' k) eqn:E; [discriminate |].
  intros [E' | Hin].
  - cbn in E'. subst k'.
    assert (bytes_eqb k k = true) by now apply bytes_eqb_eq. congruence.
  - apply IH; assumption.
Qed.

Lemma find_Some_key m k v : find m k = Some v -> In k (map fst m).
Proof.
  induction m as [| [k' v'] m IH]; intros H; [discriminate |].
  cbn [find] in H. destruct (bytes_eqb k' k) eqn:E.
  - apply bytes_eqb_eq in E. left. exact E.
  - right. apply IH. exact H.
Qed.

Lemma firstn_app_short {A : Type} j (l l' : list A) :
  (j <= length l)%nat -> firstn j (l ++ l') = firstn j l.
Proof.
  intros H. rewrite firstn_app.
  replace (j - length l)%nat with 0%nat by lia.
  cbn [firstn]. apply app_nil_r.
Qed.

Lemma nth_error_length {A : Type} (l : list A) j x :
  nth_error l j = Some x -> (j < length l)%nat.
Proof. intros H. apply nth_error_Some. congruence. Qed.

(** One more id read: the map keeps one entry per id, at the offset of the
    first occurrence. *)
Lemma emplace_entries pre m x :
  entries_ok pre m ->
  entries_ok (pre ++ [x])
    (emplace m x (mkTheirElem (Z.of_nat (length pre)) false)).
Proof.
  intros (Hnd & Hent & Hcov). rewrite keys_key_offsets in Hnd, Hcov.
  assert (Hold : forall k o, In (k, o) (key_offsets m) ->
            exists j, o = Z.of_nat j /\ nth_error (pre ++ [x]) j = Some k /\
                      ~ In k (firstn j (pre ++ [x]))).
  { intros k o Hin. destruct (Hent k o Hin) as (j & Ho & Hj & Hfirst).
    pose proof (nth_error_length _ _ _ Hj) as Hlt.
    exists j. split; [exact Ho |]. split.
    - rewrite nth_error_app1 by exact Hlt. exact Hj.
    - rewrite firstn_app_short by lia. exact Hfirst. }
  unfold emplace. destruct (find m x) as [v |] eqn:F.
  - apply find_Some_key in F.
    split; [rewrite keys_key_offsets; exact Hnd |]. split; [exact Hold |].
    intros k Hin. rewrite keys_key_offsets.
    apply in_app_or in Hin. destruct Hin as [Hin | [<- | []]];
      [apply Hcov; exact Hin | exact F].
  - apply find_None_key in F.
    assert (Hx : ~ In x pre) by (intros Hin; apply F, Hcov; exact Hin).
    assert (Hko : key_offsets
                    (m ++ [(x, mkTheirElem (Z.of_nat (length pre)) false)])
                  = key_offsets m ++ [(x, Z.of_nat (length pre))])
      by (unfold key_offsets; rewrite map_app; reflexivity).
    unfold entries_ok. rewrite Hko.
    split; [| split].
    + rewrite map_app. cbn [map fst]. rewrite keys_key_offsets.
      apply NoDup_app; [exact Hnd | constructor; [intros [] | constructor] |].
      intros a Ha [<- | []]. contradiction.
    + intros k o Hin. apply in_app_or in Hin.
      destruct Hin as [Hin | [E | []]]; [apply Hold; exact Hin |].
      injection E as <- <-. exists (length pre).
      split; [reflexivity |]. split.
      * rewrite nth_error_app2, Nat.sub_diag by lia. reflexivity.
      * rewrite firstn_app_short, firstn_all by lia. exact Hx.
    + intros k Hin. rewrite map_app. cbn [map fst]. rewrite keys_key_offsets.
      apply in_or_app. apply in_app_or in Hin.
      destruct Hin as [Hin | [<- | []]];
        [left; apply Hcov; exact Hin | right; left; reflexivity].
Qed.

Lemma readTheirElems_entries n : forall pre sz q m m' q',
  entries_ok pre m ->
  readTheirElems n (Z.of_nat (length pre)) sz q m = Ok (m', q') ->
  exists ids, read_ids n sz q = Ok (ids, q') /\ entries_ok (pre ++ ids) m'.
Proof.
  induction n as [| n IH]; intros pre sz q m m' q' Hm H.
  - apply Ok_pair_inj in H. destruct H as [<- <-].
    exists []. rewrite app_nil_r. split; [reflexivity | exact Hm].
  - cbn [readTheirElems read_ids] in *.
    destruct (getBytes q sz) as [[e q1] |]; [| discriminate].
    cbn [bind] in *.
    replace (Z.of_nat (length pre) + 1) with (Z.of_nat (length (pre ++ [e])))
      in H by (rewrite length_app; simpl; lia).
    apply IH in H; [| apply emplace_entries; exact Hm].
    destruct H as (ids & E & Hok). exists (e :: ids).
    rewrite E. cbn [bind]. split; [reflexivity |].
    rewrite <- app_assoc in Hok. exact Hok.
Qed.

Lemma entries_ok_nil : entries_ok [] [].
Proof.
  split; [constructor |]. split; [intros k o [] | intros k []].
Qed.

Lemma mark_key_offsets m k : key_offsets (mark_onBothSides m k) = key_offsets m.
Proof.
  induction m as [| [k' v] m IH]; [reflexivity |].
  cbn [mark_onBothSides]. destruct (bytes_eqb k' k).
  - reflexivity.
  - cbn [key_offsets map] in *. f_equal. exact IH.
Qed.

(** The walk over our items only marks entries of the map; a responder
    leaves the sink [haveIds] alone. *)
Lemma visitOurs_fold role ours : forall m have rhave m' have' rhave',
  fold_left (visitOurs role) ours (m, have, rhave) = (m', have', rhave') ->
  key_offsets m' = key_offsets m /\ (role = false -> have' = have).
Proof.
  induction ours as [| it ours IH]; intros m have rhave m' have' rhave' H.
  - injection H as <- <- <-. auto.
  - cbn [fold_left visitOurs] in H.
    destruct (find m (XorElem.getId it)).
    + apply IH in H. rewrite mark_key_offsets in H. exact H.
    + destruct role; apply IH in H; destruct H as [H1 H2];
        (split; [exact H1 |]); intros E; [discriminate | auto].
Qed.

(** The walk over the map: what an initiator adds to [needIds], and the
    offsets that a responder collects. *)
Lemma visitTheirs_fold role l : forall need inds,
  fold_left (visitTheirs role) l (need, inds) =
  if role then (need ++ map fst (filter unseen l), inds)
  else (need, inds ++ map (fun kv => offset (snd kv)) (filter unseen l)).
Proof.
  induction l as [| kv l IH]; intros need inds.
  - destruct role; cbn; now rewrite app_nil_r.
  - cbn [fold_left visitTheirs filter].
    change (negb (onBothSides (snd kv))) with (unseen kv).
    destruct (unseen kv); [| apply IH].
    destruct role; rewrite IH; cbn [map]; rewrite <- app_assoc; reflexivity.
Qed.

Lemma NoDup_map_filter {A B : Type} (g : A -> B) (f : A -> bool) l :
  NoDup (map g l) -> NoDup (map g (filter f l)).
Proof.
  induction l as [| a l IH]; intros H; [constructor |].
  cbn [map filter] in *. apply NoDup_cons_iff in H. destruct H as [Hn Hd].
  destruct (f a); [| apply IH; exact Hd].
  cbn [map]. constructor; [| apply IH; exact Hd].
  intros Hin. apply Hn. apply in_map_iff in Hin.
  destruct Hin as (x & <- & Hx). apply in_map. apply filter_In in Hx. tauto.
Qed.

Lemma sort_insert_perm e l : Permutation (sort_insert e l) (e :: l).
Proof.
  induction l as [| x l IH]; [apply Permutation_refl |].
  cbn [sort_insert]. destruct (XorElem.ltb e x); [apply Permutation_refl |].
  apply Permutation_trans with (x :: e :: l);
    [apply perm_skip; exact IH | apply perm_swap].
Qed.

Lemma sort_perm l : Permutation (sort l) l.
Proof.
  induction l as [| x l IH]; [apply Permutation_refl |].
  cbn [sort fold_right]. fold (sort l).
  apply Permutation_trans with (x :: sort l);
    [apply sort_insert_perm | apply perm_skip; exact IH].
Qed.

(** *** The map of received ids *)

Lemma mem_id_In x l : mem_id x l = true <-> In x l.
Proof.
  unfold mem_id. rewrite existsb_exists. split.
  - intros (y & Hy & E). apply bytes_eqb_eq in E. now subst.
  - intros H. exists x. split; [exact H | now apply bytes_eqb_eq].
Qed.

Lemma mem_id_ext x l l' :
  (forall y, In y l <-> In y l') -> mem_id x l = mem_id x l'.
Proof.
  intros H. apply eq_true_iff_eq. rewrite !mem_id_In. apply H.
Qed.

Lemma entries_keys ids m :
  entries_ok ids m -> forall y, In y (map fst m) <-> In y ids.
Proof.
  intros (_ & Hent & Hcov) y. rewrite <- keys_key_offsets. split.
  - intros H. apply in_map_iff in H. destruct H as ([k o] & <- & Hin).
    destruct (Hent k o Hin) as (j & _ & Hj & _). cbn [fst].
    eapply nth_error_In. exact Hj.
  - apply Hcov.
Qed.

(** Entries that [readTheirElems] adds are not marked. *)
Lemma readTheirElems_unmarked n : forall i sz q m m' q',
  Forall (fun kv => onBothSides (snd kv) = false) m ->
  readTheirElems n i sz q m = Ok (m', q') ->
  Forall (fun kv => onBothSides (snd kv) = false) m'.
Proof.
  induction n as [| n IH]; intros i sz q m m' q' Hm H.
  - apply Ok_pair_inj in H. destruct H as [<- _]. exact Hm.
  - cbn [readTheirElems] in H.
    destruct (getBytes q sz) as [[e q1] |]; [| discriminate].
    cbn [bind] in H. eapply IH; [| exact H].
    unfold emplace. destruct (find m e); [exact Hm |].
    apply Forall_app. split; [exact Hm |]. constructor; [reflexivity | constructor].
Qed.

Lemma bytes_eqb_sym a b : bytes_eqb a b = bytes_eqb b a.
Proof.
  destruct (bytes_eqb a b) eqn:E1, (bytes_eqb b a) eqn:E2; try reflexivity.
  - apply bytes_eqb_eq in E1. subst.
    assert (bytes_eqb b b = true) by now apply bytes_eqb_eq. congruence.
  - apply bytes_eqb_eq in E2. subst.
    assert (bytes_eqb a a = true) by now apply bytes_eqb_eq. congruence.
Qed.

(** The map and [find]. *)
Lemma find_Some_In m k v : find m k = Some v -> In (k, v) m.
Proof.
  induction m as [| [k' v'] m IH]; intros H; [discriminate |].
  cbn [find] in H. destruct (bytes_eqb k' k) eqn:E.
  - apply bytes_eqb_eq in E. injection H as ->. subst. left. reflexivity.
  - right. apply IH. exact H.
Qed.

Lemma In_find m k v : NoDup (map fst m) -> In (k, v) m -> find m k = Some v.
Proof.
  induction m as [| [k' v'] m IH]; intros Hnd Hin; [destruct Hin |].
  cbn [map fst] in Hnd. apply NoDup_cons_iff in Hnd. destruct Hnd as [Hn Hd].
  cbn [find]. destruct Hin as [E | Hin].
  - injection E as E1 E2. subst.
    rewrite (proj2 (bytes_eqb_eq _ _) eq_refl). reflexivity.
  - destruct (bytes_eqb k' k) eqn:E.
    + apply bytes_eqb_eq in E. subst k'. exfalso. apply Hn.
      apply (in_map fst) in Hin. exact Hin.
    + apply IH; assumption.
Qed.

Lemma find_mark m k : forall k',
  find (mark_onBothSides m k) k' =
  if bytes_eqb k k'
  then option_map (fun v => mkTheirElem (offset v) true) (find m k')
  else find m k'.
Proof.
  induction m as [| [k0 v0] m IH]; intros k'.
  - cbn. destruct (bytes_eqb k k'); reflexivity.
  - cbn [mark_onBothSides].
    destruct (bytes_eqb k0 k) eqn:E0.
    + apply bytes_eqb_eq in E0. subst k0. cbn [find].
      destruct (bytes_eqb k k'); reflexivity.
    + cbn [find]. rewrite IH.
      destruct (bytes_eqb k0 k') eqn:E1; [| reflexivity].
      apply bytes_eqb_eq in E1. subst k0.
      rewrite (bytes_eqb_sym k k'), E0. reflexivity.
Qed.

Lemma mark_absent m k : find m k = None -> mark_onBothSides m k = m.
Proof.
  induction m as [| [k0 v0] m IH]; intros H; [reflexivity |].
  cbn [find] in H. cbn [mark_onBothSides].
  destruct (bytes_eqb k0 k); [discriminate |]. now rewrite IH.
Qed.

Lemma find_keys m m' k :
  map fst m' = map fst m -> (find m k = None <-> find m' k = None).
Proof.
  intros E. split; intros H.
  - destruct (find m' k) eqn:F; [| reflexivity].
    apply find_Some_key in F. rewrite E in F.
    apply find_None_key in H. contradiction.
  - destruct (find m k) eqn:F; [| reflexivity].
    apply find_Some_key in F. rewrite <- E in F.
    apply find_None_key in H. contradiction.
Qed.

(** The walk of a peer over its items of the range: the entries of the ids
    it holds are marked; the ids that are not in the map go to have at an
    initiator and to the response at a responder. *)
Lemma visitOurs_spec role ours : forall m have rh,
  exists m',
    fold_left (visitOurs role) ours (m, have, rh) =
    (m',
     (if role
      then have ++ filter (fun x => negb (mem_id x (map fst m))) (ids_of ours)
      else have),
     (if role then rh
      else rh ++ filter (fun x => negb (mem_id x (map fst m))) (ids_of ours)))
    /\
    map fst m' = map fst m /\
    forall k,
      find m' k =
      option_map
        (fun v => mkTheirElem (offset v)
                    (onBothSides v || mem_id k (ids_of ours)))
        (find m k).
Proof.
  induction ours as [| it ours IH]; intros m have rh.
  - exists m. cbn [fold_left ids_of map filter]. rewrite !app_nil_r.
    split; [destruct role; reflexivity |]. split; [reflexivity |].
    intros k. destruct (find m k) as [[o b] |]; cbn; [| reflexivity].
    now rewrite orb_false_r.
  - cbn [fold_left visitOurs ids_of map filter]. fold (ids_of ours).
    destruct (find m (XorElem.getId it)) as [v |] eqn:F.
    + destruct (IH (mark_onBothSides m (XorElem.getId it)) have rh)
        as (m' & E & Hk & Hf).
      assert (Hkeys : map fst (mark_onBothSides m (XorElem.getId it))
                      = map fst m).
      { rewrite <- !keys_key_offsets, mark_key_offsets. reflexivity. }
      exists m'. rewrite E, Hkeys.
      assert (Hmem : mem_id (XorElem.getId it) (map fst m) = true).
      { apply mem_id_In. eapply find_Some_key. exact F. }
      rewrite Hmem. cbn [negb].
      split; [reflexivity |]. split; [congruence |].
      intros k. rewrite Hf, find_mark. unfold mem_id at 2. cbn [existsb].
      fold (mem_id k (ids_of ours)).
      rewrite (bytes_eqb_sym k (XorElem.getId it)).
      destruct (bytes_eqb (XorElem.getId it) k);
        destruct (find m k) as [[o b] |]; cbn; try reflexivity.
      now rewrite orb_true_r.
    + assert (Hmem : mem_id (XorElem.getId it) (map fst m) = false).
      { destruct (mem_id _ _) eqn:E'; [| reflexivity].
        apply mem_id_In in E'. apply find_None_key in F. contradiction. }
      rewrite Hmem. cbn [negb].
      destruct (IH m (if role then have ++ [XorElem.getId it] else have)
                  (if role then rh else rh ++ [XorElem.getId it]))
        as (m' & E & Hk & Hf).
      exists m'. split; [| split; [exact Hk |]].
      * destruct role; rewrite E, <- app_assoc; reflexivity.
      * intros k. rewrite Hf. unfold mem_id at 2. cbn [existsb].
        fold (mem_id k (ids_of ours)).
        destruct (bytes_eqb k (XorElem.getId it)) eqn:Ek; [| reflexivity].
        apply bytes_eqb_eq in Ek. subst k. rewrite F. reflexivity.
Qed.

Lemma visitOurs_responder ours : forall m have rh,
  exists m',
    fold_left (visitOurs false) ours (m, have, rh) =
    (m', have,
     rh ++ filter (fun x => negb (mem_id x (map fst m))) (ids_of ours)) /\
    map fst m' = map fst m /\
    forall k,
      find m' k =
      option_map
        (fun v => mkTheirElem (offset v)
                    (onBothSides v || mem_id k (ids_of ours)))
        (find m k).
Proof. intros m have rh. exact (visitOurs_spec false ours m have rh). Qed.

Section ResponderMap.

Variable map_order : TheirElems -> TheirElems.
Hypothesis map_order_ok : map_order_spec map_order.
Variables idsA idsB : list bytes.
Variables m1 m2 : TheirElems.
Hypothesis m1_entries : entries_ok idsA m1.
Hypothesis m1_unmarked : Forall (fun kv => onBothSides (snd kv) = false) m1.
Hypothesis m2_keys : map fst m2 = map fst m1.
Hypothesis m2_find : forall k,
  find m2 k =
  option_map
    (fun v => mkTheirElem (offset v) (onBothSides v || mem_id k idsB))
    (find m1 k).
Hypothesis idsA_nodup : NoDup idsA.

Lemma m1_nodup : NoDup (map fst m1).
Proof. destruct m1_entries as [H _]. now rewrite keys_key_offsets in H. Qed.

Lemma m2_entry kv :
  In kv m2 ->
  exists j, offset (snd kv) = Z.of_nat j /\
            nth_error idsA j = Some (fst kv) /\
            onBothSides (snd kv) = mem_id (fst kv) idsB.
Proof.
  intros Hin. destruct kv as [k v2]. cbn [fst snd].
  assert (F2 : find m2 k = Some v2).
  { apply In_find; [rewrite m2_keys; apply m1_nodup | exact Hin]. }
  rewrite m2_find in F2.
  destruct (find m1 k) as [v1 |] eqn:F1; [| discriminate].
  cbn [option_map] in F2. injection F2 as <-. cbn [offset onBothSides].
  apply find_Some_In in F1.
  assert (Hflag : onBothSides v1 = false).
  { rewrite Forall_forall in m1_unmarked. apply (m1_unmarked _ F1). }
  destruct m1_entries as (_ & Hent & _).
  destruct (Hent k (offset v1)) as (j & Ho & Hj & _).
  { unfold key_offsets.
    apply (in_map (fun kv => (fst kv, offset (snd kv))) _ _ F1). }
  exists j. rewrite Hflag. auto.
Qed.

Lemma m2_complete j k :
  nth_error idsA j = Some k ->
  exists v, In (k, v) m2 /\ offset v = Z.of_nat j /\
            onBothSides v = mem_id k idsB.
Proof.
  intros Hj. destruct m1_entries as (_ & _ & Hcov).
  assert (Hk : In k (map fst m2)).
  { rewrite m2_keys, <- keys_key_offsets. apply Hcov.
    eapply nth_error_In. exact Hj. }
  apply in_map_iff in Hk. destruct Hk as ([k' v] & Ek & Hin).
  cbn [fst] in Ek. subst k'.
  destruct (m2_entry _ Hin) as (j' & Ho & Hj' & Hf). cbn [fst snd] in *.
  exists v. split; [exact Hin |]. split; [| exact Hf].
  rewrite Ho. f_equal.
  apply (proj1 (NoDup_nth_error idsA) idsA_nodup).
  - eapply nth_error_length. exact Hj'.
  - congruence.
Qed.

(** The offsets that the responder flags: the positions of the ids of
    the list that it does not hold. *)
Lemma flagged_offsets i :
  (i < length idsA)%nat ->
  In (Z.of_nat i)
     (map (fun kv => offset (snd kv)) (filter unseen (map_order m2))) <->
  mem_id (nth i idsA []) idsB = false.
Proof.
  intros Hi.
  assert (Hn : nth_error idsA i = Some (nth i idsA []))
    by (apply nth_error_nth'; exact Hi).
  split.
  - intros H. apply in_map_iff in H. destruct H as (kv & Eo & Hkv).
    apply filter_In in Hkv. destruct Hkv as [Hkv Hu].
    apply (Permutation_in _ (map_order_ok m2)) in Hkv.
    destruct (m2_entry _ Hkv) as (j & Ho & Hj & Hf).
    assert (j = i) by lia. subst j.
    assert (fst kv = nth i idsA []) by congruence.
    unfold unseen in Hu. rewrite Hf in Hu. apply negb_true_iff in Hu.
    congruence.
  - intros Hm. destruct (m2_complete _ _ Hn) as (v & Hin & Ho & Hf).
    apply in_map_iff. exists (nth i idsA [], v). cbn [snd].
    split; [exact Ho |]. apply filter_In. split.
    + apply (Permutation_in _ (Permutation_sym (map_order_ok m2))). exact Hin.
    + unfold unseen. cbn [snd]. rewrite Hf, Hm. reflexivity.
Qed.

Lemma flagged_offsets_range :
  Forall (fun o => 0 <= o < Z.of_nat (length idsA))
    (map (fun kv => offset (snd kv)) (filter unseen (map_order m2))).
Proof.
  apply Forall_forall. intros o H. apply in_map_iff in H.
  destruct H as (kv & <- & Hkv). apply filter_In in Hkv.
  destruct Hkv as [Hkv _].
  apply (Permutation_in _ (map_order_ok m2)) in Hkv.
  destruct (m2_entry _ Hkv) as (j & Ho & Hj & _).
  apply nth_error_length in Hj. lia.
Qed.

(** The same without the ids of the list being distinct: the entry of an
    id stands for its first occurrence. *)
Lemma m2_entry_first kv :
  In kv m2 ->
  exists j, offset (snd kv) = Z.of_nat j /\
            nth_error idsA j = Some (fst kv) /\
            ~ In (fst kv) (firstn j idsA) /\
            onBothSides (snd kv) = mem_id (fst kv) idsB.
Proof.
  intros Hin. destruct kv as [k v2]. cbn [fst snd].
  assert (F2 : find m2 k = Some v2).
  { apply In_find; [rewrite m2_keys; apply m1_nodup | exact Hin]. }
  rewrite m2_find in F2.
  destruct (find m1 k) as [v1 |] eqn:F1; [| discriminate].
  cbn [option_map] in F2. injection F2 as <-. cbn [offset onBothSides].
  apply find_Some_In in F1.
  assert (Hflag : onBothSides v1 = false).
  { rewrite Forall_forall in m1_unmarked. apply (m1_unmarked _ F1). }
  destruct m1_entries as (_ & Hent & _).
  destruct (Hent k (offset v1)) as (j & Ho & Hj & Hfirst).
  { unfold key_offsets.
    apply (in_map (fun kv => (fst kv, offset (snd kv))) _ _ F1). }
  exists j. rewrite Hflag. auto.
Qed.

Lemma m2_covers k : In k idsA -> exists v, In (k, v) m2.
Proof.
  intros Hk. destruct m1_entries as (_ & _ & Hcov).
  assert (H : In k (map fst m2)).
  { rewrite m2_keys, <- keys_key_offsets. apply Hcov. exact Hk. }
  apply in_map_iff in H. destruct H as ([k' v] & Ek & Hin).
  cbn [fst] in Ek. subst k'. exists v. exact Hin.
Qed.

Lemma first_occurrence_unique (l : list bytes) k j j' :
  nth_error l j = Some k -> ~ In k (firstn j l) ->
  nth_error l j' = Some k -> ~ In k (firstn j' l) -> j = j'.
Proof.
  intros Hj Hf Hj' Hf'.
  destruct (Nat.lt_trichotomy j j') as [Hlt | [E | Hlt]]; [| exact E |];
    exfalso.
  - apply Hf'. apply nth_error_In with j.
    rewrite nth_error_firstn, (proj2 (Nat.ltb_lt _ _) Hlt). exact Hj.
  - apply Hf. apply nth_error_In with j'.
    rewrite nth_error_firstn, (proj2 (Nat.ltb_lt _ _) Hlt). exact Hj'.
Qed.

(** The ids that no item of ours has marked: those of the list that we do
    not hold, each once. *)
Lemma unseen_keys k :
  In k (map fst (filter unseen (map_order m2))) <->
  In k idsA /\ mem_id k idsB = false.
Proof.
  split.
  - intros H. apply in_map_iff in H. destruct H as (kv & <- & Hkv).
    apply filter_In in Hkv. destruct Hkv as [Hkv Hu].
    apply (Permutation_in _ (map_order_ok m2)) in Hkv.
    destruct (m2_entry_first _ Hkv) as (j & _ & Hj & _ & Hf).
    split; [eapply nth_error_In; exact Hj |].
    unfold unseen in Hu. rewrite Hf in Hu. now apply negb_true_iff in Hu.
  - intros [Hk Hm]. destruct (m2_covers _ Hk) as (v & Hin).
    destruct (m2_entry_first _ Hin) as (_ & _ & _ & _ & Hf).
    cbn [fst snd] in Hf.
    apply in_map_iff. exists (k, v). split; [reflexivity |].
    apply filter_In. split.
    + apply (Permutation_in _ (Permutation_sym (map_order_ok m2))). exact Hin.
    + unfold unseen. cbn [snd]. rewrite Hf, Hm. reflexivity.
Qed.

Lemma unseen_keys_nodup : NoDup (map fst (filter unseen (map_order m2))).
Proof.
  apply NoDup_map_filter.
  apply Permutation_NoDup with (map fst m2).
  - apply Permutation_map, Permutation_sym, map_order_ok.
  - rewrite m2_keys. apply m1_nodup.
Qed.

(** The offsets of those ids: the positions of the first occurrences of
    the ids of the list that we do not hold. *)
Lemma unseen_offsets o :
  In o (map (fun kv => offset (snd kv)) (filter unseen (map_order m2))) <->
  exists j, o = Z.of_nat j /\ first_occurrence idsA j /\
            mem_id (nth j idsA []) idsB = false.
Proof.
  split.
  - intros H. apply in_map_iff in H. destruct H as (kv & <- & Hkv).
    apply filter_In in Hkv. destruct Hkv as [Hkv Hu].
    apply (Permutation_in _ (map_order_ok m2)) in Hkv.
    destruct (m2_entry_first _ Hkv) as (j & Ho & Hj & Hfirst & Hf).
    exists j. split; [exact Ho |]. split.
    + exists (fst kv). split; assumption.
    + rewrite (nth_error_nth _ _ _ Hj).
      unfold unseen in Hu. rewrite Hf in Hu. now apply negb_true_iff in Hu.
  - intros (j & -> & (k & Hj & Hfirst) & Hm).
    rewrite (nth_error_nth _ _ _ Hj) in Hm.
    destruct (m2_covers k) as (v & Hin); [eapply nth_error_In; exact Hj |].
    destruct (m2_entry_first _ Hin) as (j' & Ho & Hj' & Hfirst' & Hf).
    cbn [fst snd] in *.
    assert (j' = j)
      by (eapply first_occurrence_unique; eassumption).
    subst j'.
    apply in_map_iff. exists (k, v). cbn [snd]. split; [exact Ho |].
    apply filter_In. split.
    + apply (Permutation_in _ (Permutation_sym (map_order_ok m2))). exact Hin.
    + unfold unseen. cbn [snd]. rewrite Hf, Hm. reflexivity.
Qed.

End ResponderMap.

Section ReceivedIds.

Variable map_order : TheirElems -> TheirElems.
Hypothesis map_order_ok : map_order_spec map_order.

Lemma in_map_order kv m : In kv (map_order m) -> In kv m.
Proof. apply Permutation_in. apply map_order_ok. Qed.

(** The IdList case keeps one entry for each id received, whatever the
    number of times it is received, and reports exactly the differences
    between the ids received and the ids of the items of the range. *)
Lemma onIdList_received st w currBound q lower upper q' outs have need :
  onIdList map_order st w currBound q lower upper
    = Ok (q', outs, have, need) ->
  exists numIds q1 ids,
    decodeVarInt q = Ok (numIds, q1) /\
    read_ids (Z.to_nat numIds) (idSize st) q1 = Ok (ids, q') /\
    (isInitiator st = true ->
     outs = outputs w /\
     have = haveIds w ++
            filter (fun x => negb (mem_id x ids))
                   (ids_of (slice (items st) lower upper)) /\
     exists added,
       need = needIds w ++ added /\ NoDup added /\
       forall k,
         In k added <->
         In k ids /\
         mem_id k (ids_of (slice (items st) lower upper)) = false) /\
    (isInitiator st = false ->
     have = haveIds w /\ need = needIds w /\
     exists responseNeedIndices,
       outs = outputs w ++
         [mkBoundOutput (prevBound w) currBound
            (encodeVarInt 3 ++
             encodeVarInt
               (zlen (filter (fun x => negb (mem_id x ids))
                             (ids_of (slice (items st) lower upper)))) ++
             concat (filter (fun x => negb (mem_id x ids))
                            (ids_of (slice (items st) lower upper))) ++
             encodeVarInt (zlen (encodeBitField responseNeedIndices)) ++
             encodeBitField responseNeedIndices)] /\
       forall o,
         In o responseNeedIndices <->
         exists j,
           o = Z.of_nat j /\ first_occurrence ids j /\
           mem_id (nth j ids []) (ids_of (slice (items st) lower upper))
           = false).
Proof.
  unfold onIdList. intros H.
  destruct (decodeVarInt q) as [[numIds q1] |] eqn:E1; [| discriminate].
  cbn [bind] in H.
  destruct (readTheirElems (Z.to_nat numIds) 0 (idSize st) q1 [])
    as [[m1 q2] |] eqn:E2; [| discriminate].
  cbn [bind] in H.
  pose proof (readTheirElems_unmarked _ _ _ _ _ _ _ (Forall_nil _) E2) as Hun.
  apply (readTheirElems_entries _ [] _ _ _ _ _ entries_ok_nil) in E2.
  destruct E2 as (ids & Eids & Hent). cbn [app] in Hent.
  set (ours := slice (items st) lower upper) in *.
  destruct (visitOurs_spec (isInitiator st) ours m1 (haveIds w) [])
    as (m2 & F & Hk & Hf).
  rewrite F in H. rewrite visitTheirs_fold in H.
  assert (Hflt : filter (fun x => negb (mem_id x (map fst m1))) (ids_of ours)
                 = filter (fun x => negb (mem_id x ids)) (ids_of ours)).
  { apply filter_ext. intros x. f_equal. apply mem_id_ext.
    apply entries_keys. exact Hent. }
  rewrite Hflt in H.
  exists numIds, q1, ids. split; [reflexivity |].
  destruct (isInitiator st); cbn [negb] in H; apply Ok_inj in H;
    apply pair_equal_spec in H; destruct H as [H <-];
    apply pair_equal_spec in H; destruct H as [H <-];
    apply pair_equal_spec in H; destruct H as [<- <-].
  - split; [exact Eids |]. split; [| discriminate].
    intros _. split; [reflexivity |]. split; [reflexivity |].
    exists (map fst (filter unseen (map_order m2))).
    split; [reflexivity |]. split.
    + eapply unseen_keys_nodup; eassumption.
    + intros k. eapply unseen_keys; eassumption.
  - split; [exact Eids |]. split; [discriminate |].
    intros _. split; [reflexivity |]. split; [reflexivity |].
    exists (map (fun kv => offset (snd kv)) (filter unseen (map_order m2))).
    split; [reflexivity |].
    intros o. eapply unseen_offsets; eassumption.
Qed.

End ReceivedIds.

(** C8 as stated fails for received duplicates.  A peer adds the item
    [(5, sample_id)] twice: both are stored and the IdList of its first
    frame lists the id twice.  The responder that receives it, and holds
    no item, keeps one map entry for the id: the bit field of its
    IdListResponse is the byte 1, offset 0 alone, where two entries would
    set the bits of offsets 0 and 1 (the byte 3).  An initiator that
    receives the same IdList puts the id once in need. *)
Lemma duplicate_ids_received_once :
  initiate sample_dup_peer 0
    = Ok ([0; 0; 2; 2] ++ sample_id ++ sample_id,
          mkNegentropy 8 [sample_dup_item; sample_dup_item] true true 0 []) /\
  reconcile insertion_order (empty_peer 8)
    ([0; 0; 2; 2] ++ sample_id ++ sample_id)
    = Ok ([0; 0; 3; 0; 1; 1], empty_peer 8) /\
  encodeBitField [0; 1] = [3] /\
  reconcile_have_need insertion_order (empty_initiator 8)
    ([0; 0; 2; 2] ++ sample_id ++ sample_id) [] []
    = Ok ([], [], [sample_id], empty_initiator 8) /\
  [sample_id] <> [sample_id; sample_id].
Proof.
  split; [vm_compute; reflexivity |].
  split; [vm_compute; reflexivity |].
  split; [vm_compute; reflexivity |].
  split; [vm_compute; reflexivity | discriminate].
Qed.

(** C8, amended. Duplicate items: adding the same (timestamp, id) twice
    stores two items, sealing keeps both, and an IdList that [splitRange]
    emits lists the id of every item of its range, so of both.  A peer that
    receives an IdList keeps one entry for each id, however often the id is
    listed.  An initiator adds to need exactly the ids of the list that no
    item of its range has, each once, and to have the ids of the items of
    its range that the list lacks.  A responder leaves have and need
    alone; its IdListResponse lists the ids of the items of its range that
    the list lacks, and its bit field is that of exactly the offsets of the
    first occurrences of the ids of the list that no item of its range
    has. *)
Theorem duplicate_items (map_order : TheirElems -> TheirElems)
  (Hord : map_order_spec map_order) :
  (forall st t id st1 st2,
      addItem st t id = Ok st1 -> addItem st1 t id = Ok st2 ->
      exists e, XorElem.make t id = Ok e /\ items st2 = items st ++ [e; e]) /\
  (forall st st', seal st = Ok st' -> Permutation (items st') (items st)) /\
  (forall sz its lower upper lowerBound upperBound outs,
      (upper - lower < 32)%nat ->
      splitRange sz its lower upper lowerBound upperBound outs =
      Ok (outs ++
          [mkBoundOutput lowerBound upperBound
             (encodeVarInt 2 ++ encodeVarInt (Z.of_nat (upper - lower)) ++
              concat (map (fun it => XorElem.getIdSub it sz)
                          (slice its lower upper)))])) /\
  (forall st w currBound q lower upper q' outs have need,
      onIdList map_order st w currBound q lower upper
        = Ok (q', outs, have, need) ->
      exists numIds q1 ids,
        decodeVarInt q = Ok (numIds, q1) /\
        read_ids (Z.to_nat numIds) (idSize st) q1 = Ok (ids, q') /\
        (isInitiator st = true ->
         outs = outputs w /\
         have = haveIds w ++
                filter (fun x => negb (mem_id x ids))
                       (ids_of (slice (items st) lower upper)) /\
         exists added,
           need = needIds w ++ added /\ NoDup added /\
           forall k,
             In k added <->
             In k ids /\
             mem_id k (ids_of (slice (items st) lower upper)) = false) /\
        (isInitiator st = false ->
         have = haveIds w /\ need = needIds w /\
         exists responseNeedIndices,
           outs = outputs w ++
             [mkBoundOutput (prevBound w) currBound
                (encodeVarInt 3 ++
                 encodeVarInt
                   (zlen (filter (fun x => negb (mem_id x ids))
                                 (ids_of (slice (items st) lower upper)))) ++
                 concat (filter (fun x => negb (mem_id x ids))
                                (ids_of (slice (items st) lower upper))) ++
                 encodeVarInt (zlen (encodeBitField responseNeedIndices)) ++
                 encodeBitField responseNeedIndices)] /\
           forall o,
             In o responseNeedIndices <->
             exists j,
               o = Z.of_nat j /\ first_occurrence ids j /\
               mem_id (nth j ids []) (ids_of (slice (items st) lower upper))
               = false)).
Proof.
  split; [| split; [| split]].
  - intros st t id st1 st2 H1 H2. unfold addItem in H1, H2.
    destruct (sealed st); [discriminate |].
    destruct (XorElem.make t id) as [e |] eqn:Ee; [| discriminate].
    cbn [bind] in H1. apply Ok_inj in H1. subst st1.
    cbn [sealed bind items] in H2. apply Ok_inj in H2. subst st2.
    exists e. split; [reflexivity |].
    cbn [items]. rewrite <- app_assoc. reflexivity.
  - intros st st' H. unfold seal in H.
    destruct (sealed st); [discriminate |].
    apply Ok_inj in H. subst st'. cbn [items].
    apply Permutation_trans with (rev (items st));
      [apply sort_perm | apply Permutation_sym, Permutation_rev].
  - intros sz its lower upper lowerBound upperBound outs Hn.
    unfold splitRange.
    destruct (Z.ltb_spec (Z.of_nat (upper - lower)) (16 * 2)); [| lia].
    reflexivity.
  - intros st w currBound q lower upper q' outs have need H.
    eapply onIdList_received; [exact Hord | exact H].
Qed.

Lemma duplicate_items_witness :
  (exists e,
      XorElem.make 5 sample_id = Ok e /\
      items (mkNegentropy 8 [sample_dup_item; sample_dup_item]
               false false 0 [])
      = items (mkNegentropy 8 [] false false 0 []) ++ [e; e]) /\
  (exists numIds q1 ids added,
      decodeVarInt sample_received = Ok (numIds, q1) /\
      read_ids (Z.to_nat numIds) 8 q1 = Ok (ids, []) /\
      [repeat 66 8%nat] =
        [] ++ filter (fun x => negb (mem_id x ids))
                     (ids_of (slice sample_left 0 2)) /\
      [repeat 67 8%nat] = [] ++ added /\ NoDup added /\
      forall k,
        In k added <->
        In k ids /\ mem_id k (ids_of (slice sample_left 0 2)) = false) /\
  (exists numIds q1 ids responseNeedIndices,
      decodeVarInt sample_received = Ok (numIds, q1) /\
      read_ids (Z.to_nat numIds) 8 q1 = Ok (ids, []) /\
      [mkBoundOutput (empty_bound 0) (empty_bound MAX_U64)
         ([3; 1] ++ repeat 66 8%nat ++ [1; 1])] =
      [] ++
      [mkBoundOutput (empty_bound 0) (empty_bound MAX_U64)
         (encodeVarInt 3 ++
          encodeVarInt
            (zlen (filter (fun x => negb (mem_id x ids))
                          (ids_of (slice sample_left 0 2)))) ++
          concat (filter (fun x => negb (mem_id x ids))
                         (ids_of (slice sample_left 0 2))) ++
          encodeVarInt (zlen (encodeBitField responseNeedIndices)) ++
          encodeBitField responseNeedIndices)] /\
      forall o,
        In o responseNeedIndices <->
        exists j,
          o = Z.of_nat j /\ first_occurrence ids j /\
          mem_id (nth j ids []) (ids_of (slice sample_left 0 2)) = false).
Proof.
  destruct (duplicate_items insertion_order) as (H1 & _ & _ & H4).
  - intros m. apply Permutation_refl.
  - split; [| split].
    + apply (H1 (mkNegentropy 8 [] false false 0 []) 5 sample_id
                (mkNegentropy 8 [sample_dup_item] false false 0 [])).
      * reflexivity.
      * reflexivity.
    + destruct (H4 (peer 8 sample_left true) (walk0 [] [] [])
                  (empty_bound MAX_U64) sample_received 0%nat 2%nat []
                  [] [repeat 66 8%nat] [repeat 67 8%nat])
        as (numIds & q1 & ids & E1 & E2 & Hi & _).
      * vm_compute. reflexivity.
      * destruct (Hi eq_refl) as (_ & Hhave & added & Hneed & Hnd & Hadded).
        exists numIds, q1, ids, added.
        split; [exact E1 |]. split; [exact E2 |].
        split; [exact Hhave |]. split; [exact Hneed |].
        split; [exact Hnd | exact Hadded].
    + destruct (H4 (peer 8 sample_left false) (walk0 [] [] [])
                  (empty_bound MAX_U64) sample_received 0%nat 2%nat []
                  [mkBoundOutput (empty_bound 0) (empty_bound MAX_U64)
                     ([3; 1] ++ repeat 66 8%nat ++ [1; 1])] [] [])
        as (numIds & q1 & ids & E1 & E2 & _ & Hr).
      * vm_compute. reflexivity.
      * destruct (Hr eq_refl) as (_ & _ & inds & Houts & Hinds).
        exists numIds, q1, ids, inds.
        split; [exact E1 |]. split; [exact E2 |].
        split; [exact Houts | exact Hinds].
Defined.

(** * Further properties of the code *)

(** ** Order of elements, sorting and sealing *)

(** ** The order of elements *)

Lemma bytes_ltb_irrefl a : bytes_ltb a a = false.
Proof.
  induction a as [| x a IH]; [reflexivity |].
  cbn [bytes_ltb]. rewrite Z.ltb_irrefl. exact IH.
Qed.

Lemma bytes_ltb_trans a : forall b c,
  bytes_ltb a b = true -> bytes_ltb b c = true -> bytes_ltb a c = true.
Proof.
  induction a as [| x a IH]; intros [| y b] [| z c] H1 H2;
    try discriminate; try reflexivity.
  cbn [bytes_ltb] in *.
  destruct (Z.ltb_spec x y), (Z.ltb_spec y z), (Z.ltb_spec x z);
    try reflexivity; try lia;
    destruct (Z.ltb_spec y x); try discriminate;
    destruct (Z.ltb_spec z y); try discriminate;
    destruct (Z.ltb_spec z x); try lia.
  eapply IH; eassumption.
Qed.

Lemma bytes_ltb_total a : forall b,
  bytes_ltb a b = false -> bytes_ltb b a = false -> a = b.
Proof.
  induction a as [| x a IH]; intros [| y b] H1 H2; try discriminate;
    [reflexivity |].
  cbn [bytes_ltb] in *.
  destruct (Z.ltb_spec x y); [discriminate |].
  destruct (Z.ltb_spec y x); [discriminate |].
  assert (x = y) as -> by lia. f_equal. apply IH; assumption.
Qed.

Lemma ltb_irrefl a : XorElem.ltb a a = false.
Proof.
  unfold XorElem.ltb. rewrite Z.eqb_refl. cbn [negb]. apply bytes_ltb_irrefl.
Qed.

Lemma ltb_trans a b c :
  XorElem.ltb a b = true -> XorElem.ltb b c = true -> XorElem.ltb a c = true.
Proof.
  unfold XorElem.ltb. intros H1 H2.
  destruct (Z.eqb_spec (XorElem.timestamp a) (XorElem.timestamp b)) as [E1 | E1];
    destruct (Z.eqb_spec (XorElem.timestamp b) (XorElem.timestamp c)) as [E2 | E2];
    destruct (Z.eqb_spec (XorElem.timestamp a) (XorElem.timestamp c)) as [E3 | E3];
    cbn [negb] in *;
    try apply Z.ltb_lt in H1; try apply Z.ltb_lt in H2; try apply Z.ltb_lt;
    try lia.
  eapply bytes_ltb_trans; eassumption.
Qed.

Lemma ltb_total a b :
  XorElem.ltb a b = false -> XorElem.ltb b a = false -> key a = key b.
Proof.
  unfold XorElem.ltb, key. intros H1 H2.
  rewrite (Z.eqb_sym (XorElem.timestamp b)) in H2.
  destruct (Z.eqb_spec (XorElem.timestamp a) (XorElem.timestamp b)) as [E | E];
    cbn [negb] in *.
  - rewrite E. f_equal. apply bytes_ltb_total; assumption.
  - apply Z.ltb_ge in H1, H2. lia.
Qed.

Lemma ltb_key a a' b b' :
  key a = key a' -> key b = key b' -> XorElem.ltb a b = XorElem.ltb a' b'.
Proof.
  unfold key, XorElem.ltb. intros E1 E2.
  injection E1 as -> ->. injection E2 as -> ->. reflexivity.
Qed.

Lemma eqb_key a b : XorElem.eqb a b = true <-> key a = key b.
Proof.
  unfold XorElem.eqb, key. rewrite andb_true_iff, Z.eqb_eq, bytes_eqb_eq.
  split; [intros [-> ->]; reflexivity | intros E; injection E; auto].
Qed.

Lemma ltb_asym a b : XorElem.ltb a b = true -> XorElem.ltb b a = false.
Proof.
  intros H. destruct (XorElem.ltb b a) eqn:E; [| reflexivity].
  pose proof (ltb_trans _ _ _ H E) as H'. rewrite ltb_irrefl in H'.
  discriminate.
Qed.

Lemma leb_refl a : leb a a = true.
Proof. unfold leb. now rewrite ltb_irrefl. Qed.

Lemma leb_trans a b c : leb a b = true -> leb b c = true -> leb a c = true.
Proof.
  unfold leb. intros H1 H2.
  apply negb_true_iff in H1, H2. apply negb_true_iff.
  destruct (XorElem.ltb c a) eqn:Hca; [| reflexivity].
  destruct (XorElem.ltb a b) eqn:Hab.
  - pose proof (ltb_trans _ _ _ Hca Hab). congruence.
  - pose proof (ltb_total _ _ Hab H1) as Ek.
    rewrite (ltb_key c c a b eq_refl Ek) in Hca. congruence.
Qed.

Lemma leb_total a b : leb a b = true \/ leb b a = true.
Proof.
  unfold leb. destruct (XorElem.ltb b a) eqn:E; [| left; reflexivity].
  right. now rewrite (ltb_asym _ _ E).
Qed.

(** Elements made by the constructors that compare equal are the same. *)
Lemma wf_buffer e :
  XorElem.wf e ->
  XorElem.id e =
  XorElem.getId e ++ repeat 0 (32 - Z.to_nat (XorElem.idSize e))%nat.
Proof.
  intros Hwf. pose proof Hwf as (Hl & Hs & _).
  pose proof (padded_id_app 32 e Hwf ltac:(lia)) as H.
  unfold padded_id in H. change (Z.to_nat 32) with 32%nat in H.
  rewrite <- H. symmetry. apply firstn_all2. lia.
Qed.

Lemma wf_key_inj a b : XorElem.wf a -> XorElem.wf b -> key a = key b -> a = b.
Proof.
  intros Ha Hb E. unfold key in E. injection E as Ets Eid.
  pose proof (getId_length _ Ha) as La. pose proof (getId_length _ Hb) as Lb.
  pose proof (wf_buffer _ Ha) as Ba. pose proof (wf_buffer _ Hb) as Bb.
  destruct Ha as (_ & Hsa & _), Hb as (_ & Hsb & _).
  assert (Esz : XorElem.idSize a = XorElem.idSize b) by (rewrite Eid in La; lia).
  destruct a as [ta sa ia], b as [tb sb ib]. cbn [XorElem.timestamp XorElem.idSize XorElem.id] in *.
  subst. rewrite Ba, Bb. rewrite Eid. reflexivity.
Qed.

(** X1. Order of elements: [operator<], which compares the timestamps and
    then the ids, is a strict total order up to [operator==]: no element is
    below itself, of two elements at most one is below the other, the order
    is transitive, and two elements are [==] exactly when neither is below
    the other; two constructor-made elements that are [==] are the same
    element, buffer included. *)
Theorem element_order_strict_total (a b c : XorElem.t) :
  XorElem.ltb a a = false /\
  (XorElem.ltb a b = true -> XorElem.ltb b a = false) /\
  (XorElem.ltb a b = true -> XorElem.ltb b c = true ->
   XorElem.ltb a c = true) /\
  (XorElem.eqb a b = true <->
   XorElem.ltb a b = false /\ XorElem.ltb b a = false) /\
  (XorElem.wf a -> XorElem.wf b -> XorElem.eqb a b = true -> a = b).
Proof.
  split; [apply ltb_irrefl |]. split; [apply ltb_asym |].
  split; [apply ltb_trans |]. split.
  - split.
    + intros E. apply eqb_key in E.
      rewrite (ltb_key a b b b E eq_refl), (ltb_key b b a b eq_refl E).
      rewrite ltb_irrefl. auto.
    + intros [H1 H2]. apply eqb_key. apply ltb_total; assumption.
  - intros Ha Hb E. apply wf_key_inj; [assumption | assumption |].
    apply eqb_key. exact E.
Qed.

(** ** Sealing *)

Lemma sort_insert_sorted e l : sorted l -> sorted (sort_insert e l).
Proof.
  induction l as [| x l IH]; intros Hs.
  - cbn. auto.
  - destruct Hs as [Hx Hl]. cbn [sort_insert].
    destruct (XorElem.ltb e x) eqn:E.
    + cbn [sorted]. split; [| split; assumption].
      assert (Hex : leb e x = true)
        by (unfold leb; now rewrite (ltb_asym _ _ E)).
      constructor; [exact Hex |].
      eapply Forall_impl; [| exact Hx].
      intros b Hb. eapply leb_trans; eassumption.
    + cbn [sorted]. split; [| apply IH; exact Hl].
      apply (Permutation_Forall (Permutation_sym (sort_insert_perm e l))).
      constructor; [unfold leb; now rewrite E | exact Hx].
Qed.

Lemma sort_sorted l : sorted (sort l).
Proof.
  induction l as [| x l IH]; [exact I |].
  cbn [sort fold_right]. apply sort_insert_sorted. exact IH.
Qed.

(** A vector of constructor-made elements has one sorted arrangement. *)
Lemma sorted_perm_unique l1 : forall l2,
  Forall XorElem.wf l1 -> sorted l1 -> sorted l2 -> Permutation l1 l2 ->
  l1 = l2.
Proof.
  induction l1 as [| a t1 IH]; intros l2 Hwf S1 S2 P.
  - apply Permutation_nil in P. now subst.
  - destruct l2 as [| b t2];
      [apply Permutation_sym, Permutation_nil in P; discriminate |].
    destruct S1 as [Ha S1], S2 as [Hb S2].
    inversion Hwf as [| ? ? Wa Wt]; subst.
    assert (Hab : leb a b = true).
    { assert (Hin : In b (a :: t1))
        by (eapply Permutation_in; [apply Permutation_sym; exact P | left; reflexivity]).
      destruct Hin as [<- | Hin]; [apply leb_refl |].
      rewrite Forall_forall in Ha. apply Ha. exact Hin. }
    assert (Hba : leb b a = true).
    { assert (Hin : In a (b :: t2))
        by (eapply Permutation_in; [exact P | left; reflexivity]).
      destruct Hin as [<- | Hin]; [apply leb_refl |].
      rewrite Forall_forall in Hb. apply Hb. exact Hin. }
    assert (Wb : XorElem.wf b).
    { assert (Hin : In b (a :: t1))
        by (eapply Permutation_in; [apply Permutation_sym; exact P | left; reflexivity]).
      rewrite Forall_forall in Hwf. apply Hwf. exact Hin. }
    assert (E : a = b).
    { apply wf_key_inj; [exact Wa | exact Wb |].
      unfold leb in Hab, Hba. apply negb_true_iff in Hab, Hba.
      apply ltb_total; assumption. }
    subst b. f_equal. apply IH; [exact Wt | exact S1 | exact S2 |].
    eapply Permutation_cons_inv. exact P.
Qed.

Lemma seal_inv st st' :
  seal st = Ok st' ->
  sealed st = false /\
  st' = mkNegentropy (idSize st) (sort (rev (items st))) true (isInitiator st)
          (frameSizeLimit st) (pendingOutputs st).
Proof.
  unfold seal. destruct (sealed st); [discriminate |].
  intros H. apply Ok_inj in H. auto.
Qed.

Lemma sort_rev_perm l : Permutation (sort (rev l)) l.
Proof.
  apply Permutation_trans with (rev l);
    [apply sort_perm | apply Permutation_sym, Permutation_rev].
Qed.

(** X2. [seal] on an object that is not yet sealed gives a sealed object
    whose items are the items it held, each as often as before, sorted for
    [operator<]; when the items are constructor-made no other sorted
    arrangement of them exists, so the algorithm of [std::sort] does not
    matter; [idSize], role, frame limit and queue are kept. *)
Theorem seal_sorts (st st' : Negentropy) (H : seal st = Ok st') :
  sealed st' = true /\
  sorted (items st') /\
  Permutation (items st') (items st) /\
  (Forall XorElem.wf (items st) ->
   forall l, sorted l -> Permutation l (items st) -> l = items st') /\
  idSize st' = idSize st /\ isInitiator st' = isInitiator st /\
  frameSizeLimit st' = frameSizeLimit st /\
  pendingOutputs st' = pendingOutputs st.
Proof.
  apply seal_inv in H. destruct H as [_ ->].
  cbn [sealed items idSize isInitiator frameSizeLimit pendingOutputs].
  split; [reflexivity |]. split; [apply sort_sorted |].
  split; [apply sort_rev_perm |].
  split; [| repeat split].
  intros Hwf l Hs Hp. symmetry. apply sorted_perm_unique.
  - apply (Permutation_Forall (Permutation_sym (sort_rev_perm _))). exact Hwf.
  - apply sort_sorted.
  - exact Hs.
  - apply Permutation_trans with (items st);
      [apply sort_rev_perm | apply Permutation_sym; exact Hp].
Qed.

Lemma addItems_inv l : forall st st',
  addItems st l = Ok st' ->
  st' = mkNegentropy (idSize st) (items st ++ map elem_of l) (sealed st)
          (isInitiator st) (frameSizeLimit st) (pendingOutputs st) /\
  Forall (fun p => (length (snd p) <= 32)%nat) l /\
  (l <> [] -> sealed st = false).
Proof.
  induction l as [| [t id] l IH]; intros st st' H.
  - apply Ok_inj in H. subst st'. rewrite app_nil_r.
    destruct st; cbn. split; [reflexivity |]. split; [constructor | congruence].
  - cbn [addItems] in H. unfold addItem in H.
    destruct (sealed st) eqn:Es; [discriminate |].
    destruct (XorElem.make t id) as [e |] eqn:Ee; [| discriminate].
    cbn [bind] in H. apply IH in H. destruct H as (-> & Hl & _).
    apply make_inv in Ee. destruct Ee as [Hlen ->].
    cbn [idSize items sealed isInitiator frameSizeLimit pendingOutputs map].
    rewrite <- app_assoc. split; [reflexivity |].
    split; [constructor; [exact Hlen | exact Hl] | reflexivity].
Qed.

Lemma elem_of_wf p : (length (snd p) <= 32)%nat -> XorElem.wf (elem_of p).
Proof.
  intros H. apply (wf_make (fst p) (snd p)). apply make_ok. exact H.
Qed.

(** X3. The order of the [addItem] calls does not matter: two objects
    made with the same [idSize], given the same (timestamp, id) pairs in
    two different orders and then sealed, are the same object. *)
Theorem seal_order_independent (sz : Z) (l l' : list (Z * bytes))
  (st0 st1 st2 s1 s2 : Negentropy)
  (Hnew : new sz = Ok st0)
  (Hadd1 : addItems st0 l = Ok st1) (Hadd2 : addItems st0 l' = Ok st2)
  (Hperm : Permutation l l')
  (Hseal1 : seal st1 = Ok s1) (Hseal2 : seal st2 = Ok s2) :
  s1 = s2.
Proof.
  unfold new in Hnew. destruct (_ || _); [discriminate |].
  apply Ok_inj in Hnew. subst st0.
  apply addItems_inv in Hadd1, Hadd2.
  destruct Hadd1 as (-> & Hl1 & _), Hadd2 as (-> & Hl2 & _).
  cbn [idSize items sealed isInitiator frameSizeLimit pendingOutputs app] in *.
  apply seal_inv in Hseal1, Hseal2.
  destruct Hseal1 as [_ ->], Hseal2 as [_ ->].
  cbn [idSize items sealed isInitiator frameSizeLimit pendingOutputs].
  f_equal.
  apply sorted_perm_unique.
  - apply (Permutation_Forall (Permutation_sym (sort_rev_perm _))).
    apply Forall_forall. intros e He. apply in_map_iff in He.
    destruct He as (p & <- & Hp). apply elem_of_wf.
    rewrite Forall_forall in Hl1. apply Hl1. exact Hp.
  - apply sort_sorted.
  - apply sort_sorted.
  - apply Permutation_trans with (map elem_of l); [apply sort_rev_perm |].
    apply Permutation_trans with (map elem_of l');
      [apply Permutation_map; exact Hperm |
       apply Permutation_sym, sort_rev_perm].
Qed.

(** ** upper_bound *)

Lemma upper_bound_from_spec l : forall i value,
  let u := upper_bound_from l i value in
  (i <= u <= i + length l)%nat /\
  (forall j, (j < u - i)%nat -> XorElem.ltb value (nth j l XorElem.default) = false) /\
  ((u - i < length l)%nat ->
   XorElem.ltb value (nth (u - i) l XorElem.default) = true).
Proof.
  induction l as [| e l IH]; intros i value; cbn [upper_bound_from length].
  - split; [lia |]. split; [intros j Hj; lia | intros H; lia].
  - destruct (XorElem.ltb value e) eqn:E.
    + split; [lia |]. split; [intros j Hj; lia |].
      intros _. rewrite Nat.sub_diag. exact E.
    + specialize (IH (S i) value). cbv zeta in IH.
      destruct IH as (Hr & Hlow & Hup).
      set (u := upper_bound_from l (S i) value) in *.
      split; [lia |]. split.
      * intros [| j] Hj; [exact E |]. cbn [nth]. apply Hlow. lia.
      * intros Hlt. replace (u - i)%nat with (S (u - S i)) by lia.
        cbn [nth]. apply Hup. lia.
Qed.

Lemma sorted_nth l : forall i j,
  sorted l -> (i <= j < length l)%nat ->
  leb (nth i l XorElem.default) (nth j l XorElem.default) = true.
Proof.
  induction l as [| a l IH]; intros i j Hs Hij; [simpl in Hij; lia |].
  destruct Hs as [Ha Hs]. destruct i as [| i], j as [| j]; cbn [nth].
  - apply leb_refl.
  - rewrite Forall_forall in Ha. apply Ha. apply nth_In. simpl in Hij. lia.
  - lia.
  - apply IH; [exact Hs | simpl in Hij; lia].
Qed.

Lemma item_at_skipn items first j :
  nth j (skipn first items) XorElem.default = item_at items (first + j).
Proof. unfold item_at. apply nth_skipn. Qed.

Lemma ltb_leb_trans a b c :
  XorElem.ltb a b = true -> leb b c = true -> XorElem.ltb a c = true.
Proof.
  intros Hab Hbc. unfold leb in Hbc. apply negb_true_iff in Hbc.
  destruct (XorElem.ltb b c) eqn:E.
  - eapply ltb_trans; eassumption.
  - pose proof (ltb_total _ _ E Hbc) as Ek.
    rewrite <- (ltb_key a a b c eq_refl Ek). exact Hab.
Qed.

(** X4. [upper_bound] from [first]: the position found lies between
    [first] and the end; no item between [first] and it is above [value];
    the item at it, when there is one, is above [value]; and on a sorted
    vector every item from it on is above [value], so the position splits
    the rest of the vector in two. *)
Theorem upper_bound_partition (items : list XorElem.t) (first : nat)
  (value : XorElem.t) (Hf : (first <= length items)%nat) :
  (first <= upper_bound items first value <= length items)%nat /\
  (forall i, (first <= i < upper_bound items first value)%nat ->
             XorElem.ltb value (item_at items i) = false) /\
  ((upper_bound items first value < length items)%nat ->
   XorElem.ltb value (item_at items (upper_bound items first value)) = true) /\
  (sorted items ->
   forall i, (upper_bound items first value <= i < length items)%nat ->
             XorElem.ltb value (item_at items i) = true).
Proof.
  unfold upper_bound.
  pose proof (upper_bound_from_spec (skipn first items) first value) as H.
  cbv zeta in H. set (u := upper_bound_from (skipn first items) first value) in *.
  rewrite length_skipn in H. destruct H as (Hr & Hlow & Hup).
  assert (Hup' : (u < length items)%nat ->
                 XorElem.ltb value (item_at items u) = true).
  { intros Hu. specialize (Hup ltac:(lia)).
    rewrite item_at_skipn in Hup.
    replace (first + (u - first))%nat with u in Hup by lia. exact Hup. }
  split; [lia |]. split; [| split; [exact Hup' |]].
  - intros i Hi. specialize (Hlow (i - first)%nat ltac:(lia)).
    rewrite item_at_skipn in Hlow.
    replace (first + (i - first))%nat with i in Hlow by lia. exact Hlow.
  - intros Hs i Hi. apply ltb_leb_trans with (item_at items u).
    + apply Hup'. lia.
    + apply sorted_nth; [exact Hs | lia].
Qed.

(** ** Invariant *)

Lemma buildOutput_fields st frame st' :
  buildOutput st = Ok (frame, st') ->
  idSize st' = idSize st /\ items st' = items st /\ sealed st' = sealed st /\
  isInitiator st' = isInitiator st /\ frameSizeLimit st' = frameSizeLimit st.
Proof.
  unfold buildOutput. rewrite make_empty. cbn [bind].
  destruct (buildOutput_loop _ _ _ _ _ _) as [out rest].
  intros H. apply Ok_pair_inj in H. destruct H as [_ <-]. cbn. auto.
Qed.

Lemma reconcileAux_fields order st q h n st' h' n' :
  reconcileAux order st q h n = Ok (st', h', n') ->
  sealed st = true /\
  idSize st' = idSize st /\ items st' = items st /\ sealed st' = sealed st /\
  isInitiator st' = isInitiator st /\ frameSizeLimit st' = frameSizeLimit st.
Proof.
  unfold reconcileAux. destruct (sealed st) eqn:Es; [| discriminate].
  cbn [negb]. rewrite make_empty. cbn [bind].
  destruct (reconcileAux_loop _ _ _ _) as [w |]; [| discriminate].
  cbn [bind]. intros H. apply Ok_inj in H.
  apply pair_equal_spec in H. destruct H as [H _].
  apply pair_equal_spec in H. destruct H as [<- _].
  cbn [idSize items sealed isInitiator frameSizeLimit].
  repeat split; auto.
Qed.

Lemma invariant_fields st st' :
  idSize st' = idSize st -> items st' = items st -> sealed st' = sealed st ->
  frameSizeLimit st' = frameSizeLimit st ->
  invariant st -> invariant st'.
Proof. unfold invariant. intros -> -> -> ->. auto. Qed.

(** X5. Invariant of the object.  The constructor gives an unsealed
    non-initiator without items or queue, with the [idSize] asked for; and
    [addItem], [seal], [initiate] and the two [reconcile] overloads, when
    they return, keep: [idSize] within 8 and 32, items made by the
    constructor of [XorElem], items sorted once sealed, and a frame limit
    of 0 or at least 1024.  [initiate] makes the object an initiator with
    the limit given; no [reconcile] changes the role or the items. *)
Theorem object_invariant (map_order : TheirElems -> TheirElems) :
  (forall sz st, new sz = Ok st ->
     invariant st /\ idSize st = sz /\ items st = [] /\ sealed st = false /\
     isInitiator st = false /\ pendingOutputs st = []) /\
  (forall st t id st', addItem st t id = Ok st' ->
     invariant st -> invariant st') /\
  (forall st st', seal st = Ok st' -> invariant st -> invariant st') /\
  (forall st limit frame st', initiate st limit = Ok (frame, st') ->
     invariant st ->
     invariant st' /\ isInitiator st' = true /\ frameSizeLimit st' = limit /\
     items st' = items st) /\
  (forall st query frame st', reconcile map_order st query = Ok (frame, st') ->
     invariant st ->
     invariant st' /\ isInitiator st' = false /\ items st' = items st) /\
  (forall st query have need frame have' need' st',
     reconcile_have_need map_order st query have need
       = Ok (frame, have', need', st') ->
     invariant st ->
     invariant st' /\ isInitiator st' = true /\ items st' = items st).
Proof.
  split; [| split; [| split; [| split; [| split]]]].
  - intros sz st H. unfold new in H.
    destruct (Z.ltb_spec sz 8); [discriminate |].
    destruct (Z.ltb_spec 32 sz); [discriminate |].
    apply Ok_inj in H. subst st. unfold invariant. cbn.
    repeat split; auto; lia.
  - intros st t id st' H (H1 & H2 & H3 & H4). unfold addItem in H.
    destruct (sealed st) eqn:Es; [discriminate |].
    destruct (XorElem.make t id) as [e |] eqn:Ee; [| discriminate].
    cbn [bind] in H. apply Ok_inj in H. subst st'.
    unfold invariant. cbn [idSize items sealed frameSizeLimit].
    split; [exact H1 |]. split.
    + apply Forall_app. split; [exact H2 |].
      constructor; [eapply wf_make; exact Ee | constructor].
    + split; [intros Hd; try rewrite Es in Hd; discriminate | exact H4].
  - intros st st' H (H1 & H2 & H3 & H4).
    apply seal_inv in H. destruct H as [_ ->].
    unfold invariant. cbn [idSize items sealed frameSizeLimit].
    split; [exact H1 |]. split.
    + apply (Permutation_Forall (Permutation_sym (sort_rev_perm _))). exact H2.
    + split; [intros _; apply sort_sorted | exact H4].
  - intros st limit frame st' H (H1 & H2 & H3 & H4). unfold initiate in H.
    destruct (sealed st) eqn:Es; [| discriminate]. cbn [negb] in H.
    destruct (negb (limit =? 0) && (limit <? 1024)) eqn:El; [discriminate |].
    rewrite !make_empty in H. cbn [bind] in H.
    destruct (splitRange _ _ _ _ _ _ _) as [pending |]; [| discriminate].
    cbn [bind] in H. apply buildOutput_fields in H.
    cbn [idSize items sealed isInitiator frameSizeLimit] in H.
    destruct H as (E1 & E2 & E3 & E4 & E5).
    split; [| auto].
    unfold invariant. rewrite E1, E2, E3, E5.
    split; [exact H1 |]. split; [exact H2 |]. split; [intros _; auto |].
    apply andb_false_iff in El. destruct El as [El | El].
    + apply negb_false_iff, Z.eqb_eq in El. auto.
    + apply Z.ltb_ge in El. auto.
  - intros st query frame st' H Hinv. unfold reconcile in H.
    destruct (isInitiator st) eqn:Ei; [discriminate |].
    destruct (reconcileAux map_order st query [] []) as [[[st1 h] n] |] eqn:Ea;
      [| discriminate].
    cbn [bind] in H. apply reconcileAux_fields in Ea.
    apply buildOutput_fields in H.
    destruct Ea as (_ & A1 & A2 & A3 & A4 & A5), H as (B1 & B2 & B3 & B4 & B5).
    split; [| split; congruence].
    apply (invariant_fields st); congruence.
  - intros st query have need frame have' need' st' H Hinv.
    unfold reconcile_have_need in H.
    destruct (isInitiator st) eqn:Ei; [| discriminate]. cbn [negb] in H.
    destruct (reconcileAux map_order st query have need)
      as [[[st1 h] n] |] eqn:Ea; [| discriminate].
    cbn [bind] in H.
    destruct (buildOutput st1) as [[out st2] |] eqn:Eb; [| discriminate].
    cbn [bind] in H. apply Ok_inj in H.
    apply pair_equal_spec in H. destruct H as [_ <-].
    apply reconcileAux_fields in Ea. apply buildOutput_fields in Eb.
    destruct Ea as (_ & A1 & A2 & A3 & A4 & A5), Eb as (B1 & B2 & B3 & B4 & B5).
    split; [| split; congruence].
    apply (invariant_fields st); congruence.
Qed.

(** X6. Life-cycle errors.  The constructor throws "idSize invalid"
    exactly for sizes below 8 or above 32; on a sealed object [addItem] and
    [seal] throw "already sealed", in particular after a [seal] that
    returned; on an unsealed object [addItem] throws "id too big" for an id
    of more than 32 bytes, and [initiate] and the [reconcile] overload that
    fits the role throw "not sealed"; on a sealed object [initiate] throws
    "frameSizeLimit too small" for a limit that is neither 0 nor at least
    1024. *)
Theorem lifecycle_errors (map_order : TheirElems -> TheirElems)
  (st : Negentropy) :
  (forall sz, (sz < 8 \/ 32 < sz) <-> new sz = Err "idSize invalid"%string) /\
  (sealed st = true ->
   (forall t id, addItem st t id = Err "already sealed"%string) /\
   seal st = Err "already sealed"%string) /\
  (sealed st = false ->
   (forall t id, 32 < zlen id -> addItem st t id = Err "id too big"%string) /\
   (forall limit, initiate st limit = Err "not sealed"%string) /\
   (isInitiator st = false ->
    forall query, reconcile map_order st query = Err "not sealed"%string) /\
   (isInitiator st = true ->
    forall query have need,
      reconcile_have_need map_order st query have need
      = Err "not sealed"%string)) /\
  (sealed st = true ->
   forall limit, limit <> 0 -> limit < 1024 ->
     initiate st limit = Err "frameSizeLimit too small"%string) /\
  (forall st', seal st = Ok st' ->
     seal st' = Err "already sealed"%string /\
     forall t id, addItem st' t id = Err "already sealed"%string).
Proof.
  split; [| split; [| split; [| split]]].
  - intros sz. unfold new.
    destruct (Z.ltb_spec sz 8) as [Ha | Ha];
      destruct (Z.ltb_spec 32 sz) as [Hb | Hb]; cbn [orb];
      split; intros Hx; try reflexivity; try discriminate; lia.
  - intros Hs. unfold addItem, seal. rewrite Hs. auto.
  - intros Hs. unfold addItem, initiate, reconcile, reconcile_have_need,
      reconcileAux. rewrite Hs. cbn [negb].
    split; [| split; [reflexivity | split]].
    + intros t id Hlen. unfold XorElem.make.
      destruct (Z.ltb_spec 32 (zlen id)); [reflexivity | lia].
    + intros Hi query. rewrite Hi. reflexivity.
    + intros Hi query have need. rewrite Hi. reflexivity.
  - intros Hs limit Hl0 Hl1. unfold initiate. rewrite Hs. cbn [negb].
    destruct (Z.eqb_spec limit 0); [contradiction |].
    destruct (Z.ltb_spec limit 1024); [reflexivity | lia].
  - intros st' Hseal. apply seal_inv in Hseal. destruct Hseal as [_ ->].
    unfold seal, addItem. cbn [sealed]. auto.
Qed.

(** ** Fingerprints, bit fields and the codec *)

(** ** Fingerprints *)

Lemma xor_bytes_comm a : forall b, xor_bytes a b = xor_bytes b a.
Proof.
  induction a as [| x a IH]; intros [| y b]; try reflexivity.
  cbn [xor_bytes]. rewrite Z.lxor_comm, IH. reflexivity.
Qed.

Lemma xor_bytes_assoc a : forall b c,
  xor_bytes (xor_bytes a b) c = xor_bytes a (xor_bytes b c).
Proof.
  induction a as [| x a IH]; intros [| y b] [| z c]; try reflexivity.
  cbn [xor_bytes]. rewrite Z.lxor_assoc, IH. reflexivity.
Qed.

Lemma xor_bytes_cancel a : forall b,
  (length a <= length b)%nat -> xor_bytes (xor_bytes a b) b = a.
Proof.
  induction a as [| x a IH]; intros [| y b] H; try reflexivity;
    [simpl in H; lia |].
  cbn [xor_bytes]. rewrite Z.lxor_assoc, Z.lxor_nilpotent, Z.lxor_0_r.
  f_equal. apply IH. simpl in H. lia.
Qed.

Lemma xor_swap a e1 e2 :
  XorElem.xor (XorElem.xor a e1) e2 = XorElem.xor (XorElem.xor a e2) e1.
Proof.
  unfold XorElem.xor. cbn [XorElem.timestamp XorElem.idSize XorElem.id].
  f_equal. rewrite !xor_bytes_assoc. f_equal. apply xor_bytes_comm.
Qed.

Lemma xor_fold_perm l l' :
  Permutation l l' ->
  forall x, fold_left XorElem.xor l x = fold_left XorElem.xor l' x.
Proof.
  induction 1 as [| e l l' _ IH | e1 e2 l | l l' l'' _ IH1 _ IH2]; intros x.
  - reflexivity.
  - cbn [fold_left]. apply IH.
  - cbn [fold_left]. rewrite xor_swap. reflexivity.
  - rewrite IH1. apply IH2.
Qed.

Lemma xor_cancel x e :
  (length (XorElem.id x) <= length (XorElem.id e))%nat ->
  XorElem.xor (XorElem.xor x e) e = x.
Proof.
  intros H. unfold XorElem.xor. cbn [XorElem.timestamp XorElem.idSize XorElem.id].
  rewrite xor_bytes_cancel by exact H. destruct x; reflexivity.
Qed.

(** X7. The fingerprint of a range depends on the items of the range as
    a multiset only: two ranges with the same items in whatever order have
    the same xor, and an item that comes twice in a range cancels out, the
    xor being that of the range without the two copies. *)
Theorem fingerprint_of_multiset (items1 items2 : list XorElem.t)
  (lower1 upper1 lower2 upper2 : nat) (e : XorElem.t)
  (He : length (XorElem.id e) = 32%nat) :
  (Permutation (slice items1 lower1 upper1) (slice items2 lower2 upper2) ->
   xor_range items1 lower1 upper1 = xor_range items2 lower2 upper2) /\
  (Permutation (slice items1 lower1 upper1)
               (e :: e :: slice items2 lower2 upper2) ->
   xor_range items1 lower1 upper1 = xor_range items2 lower2 upper2).
Proof.
  unfold xor_range. split.
  - intros P. apply xor_fold_perm. exact P.
  - intros P. rewrite (xor_fold_perm _ _ P). cbn [fold_left].
    rewrite xor_cancel; [reflexivity |].
    rewrite He. reflexivity.
Qed.

(** ** Bit fields *)

Lemma land_pow2 a m :
  0 <= m -> Z.land a (2 ^ m) = if Z.testbit a m then 2 ^ m else 0.
Proof.
  intros Hm. apply Z.bits_inj'. intros i Hi. rewrite Z.land_spec.
  rewrite Z.pow2_bits_eqb by lia.
  destruct (Z.eqb_spec m i) as [<- | Hne].
  - rewrite andb_true_r.
    destruct (Z.testbit a m) eqn:E;
      [now rewrite Z.pow2_bits_eqb, Z.eqb_refl by lia | now rewrite Z.bits_0].
  - rewrite andb_false_r. destruct (Z.testbit a m).
    + rewrite Z.pow2_bits_eqb by lia. symmetry. apply Z.eqb_neq. exact Hne.
    + now rewrite Z.bits_0.
Qed.

Lemma bit_test b m :
  0 <= m -> negb (Z.land b (Z.shiftl 1 m) =? 0) = Z.testbit b m.
Proof.
  intros Hm. rewrite Z.shiftl_1_l, land_pow2 by exact Hm.
  destruct (Z.testbit b m); [| reflexivity].
  destruct (Z.eqb_spec (2 ^ m) 0) as [E | _]; [| reflexivity].
  pose proof (Z.pow_pos_nonneg 2 m ltac:(lia) Hm). lia.
Qed.

Lemma bit_set b m r :
  0 <= m -> 0 <= r ->
  Z.testbit (Z.lor b (Z.shiftl 1 m)) r = Z.testbit b r || (m =? r).
Proof.
  intros Hm Hr. rewrite Z.lor_spec, Z.shiftl_1_l, Z.pow2_bits_eqb by lia.
  reflexivity.
Qed.

Lemma list_update_length {A : Type} (f : A -> A) l : forall i,
  length (list_update l i f) = length l.
Proof.
  induction l as [| x l IH]; intros [| i]; cbn [list_update length];
    try reflexivity.
  now rewrite IH.
Qed.

Lemma nth_list_update {A : Type} (f : A -> A) (d : A) l : forall i q,
  (i < length l)%nat ->
  nth q (list_update l i f) d = if (q =? i)%nat then f (nth q l d) else nth q l d.
Proof.
  induction l as [| x l IH]; intros i q Hi; [simpl in Hi; lia |].
  destruct i as [| i], q as [| q]; cbn [list_update nth Nat.eqb];
    try reflexivity.
  apply IH. simpl in Hi. lia.
Qed.

(** The loop of [encodeBitField]: bit [r] of byte [q] is set when it was
    set before or [8 q + r] is one of the indices. *)
Lemma bitField_fold inds : forall bitField,
  Forall (fun ind => 0 <= ind /\ (Z.to_nat (ind / 8) < length bitField)%nat)
         inds ->
  let bitField' :=
    fold_left
      (fun bitField ind =>
         list_update bitField (Z.to_nat (ind / 8))
           (fun b => Z.lor b (Z.shiftl 1 (ind mod 8))))
      inds bitField in
  length bitField' = length bitField /\
  forall q r, 0 <= r < 8 ->
    Z.testbit (nth q bitField' 0) r =
    Z.testbit (nth q bitField 0) r
    || existsb (fun ind => ind =? 8 * Z.of_nat q + r) inds.
Proof.
  induction inds as [| ind inds IH]; intros bitField H; cbv zeta.
  - cbn [fold_left existsb]. split; [reflexivity |].
    intros q r _. now rewrite orb_false_r.
  - inversion H as [| ? ? [H0 Hlt] Hrest]; subst. cbn [fold_left existsb].
    set (bf1 := list_update bitField _ _).
    assert (L1 : length bf1 = length bitField) by apply list_update_length.
    destruct (IH bf1) as [Hlen Hbits]; [rewrite L1; exact Hrest |].
    cbv zeta in Hlen, Hbits.
    split; [rewrite Hlen; exact L1 |].
    intros q r Hr. rewrite Hbits by exact Hr. subst bf1.
    rewrite nth_list_update by exact Hlt.
    pose proof (Z.div_mod ind 8 ltac:(lia)) as Hdm.
    pose proof (Z.mod_pos_bound ind 8 ltac:(lia)) as Hmod.
    assert (Hdiv : 0 <= ind / 8) by (apply Z.div_pos; lia).
    destruct (Nat.eqb_spec q (Z.to_nat (ind / 8))) as [Eq | Eq].
    + rewrite bit_set by lia.
      destruct (Z.eqb_spec (ind mod 8) r) as [Er | Er];
        destruct (Z.eqb_spec ind (8 * Z.of_nat q + r)) as [Ei | Ei];
        try lia;
        destruct (Z.testbit (nth q bitField 0) r), (existsb _ inds);
        reflexivity.
    + destruct (Z.eqb_spec ind (8 * Z.of_nat q + r)) as [Ei | Ei];
        [| reflexivity].
      exfalso. apply Eq.
      assert (ind / 8 = Z.of_nat q)
        by (symmetry; apply Z.div_unique with r; lia).
      lia.
Qed.

Lemma fold_max_spec l : forall m0,
  let m := fold_left Z.max l m0 in
  m0 <= m /\ Forall (fun x => x <= m) l /\ (m = m0 \/ In m l).
Proof.
  induction l as [| x l IH]; intros m0; cbv zeta; cbn [fold_left].
  - split; [lia |]. split; [constructor | left; reflexivity].
  - destruct (IH (Z.max m0 x)) as (H1 & H2 & H3). cbv zeta in *.
    split; [lia |]. split; [constructor; [lia | exact H2] |].
    destruct H3 as [H3 | H3]; [| right; right; exact H3].
    destruct (Z.max_spec m0 x) as [[_ E] | [_ E]].
    + right. left. rewrite H3. symmetry. exact E.
    + left. rewrite H3. exact E.
Qed.

Lemma existsb_eqb_In (j : Z) l : existsb (fun x => x =? j) l = true <-> In j l.
Proof.
  rewrite existsb_exists. split.
  - intros (x & Hin & E). apply Z.eqb_eq in E. now subst.
  - intros H. exists j. split; [exact H | apply Z.eqb_refl].
Qed.

Lemma bitField_round_trip inds j :
  Forall (fun ind => 0 <= ind < U64 - 8) inds -> 0 <= j < U64 - 8 ->
  bitFieldLookup (encodeBitField inds) j = true <-> In j inds.
Proof.
  intros Hinds Hj.
  assert (Hjd : 0 <= j / 8) by (apply Z.div_pos; lia).
  destruct inds as [| i0 inds'].
  - unfold bitFieldLookup. cbn [encodeBitField]. change (zlen (@nil Z)) with 0.
    unfold wrap64. rewrite (Z.mod_small (j + 8)) by (unfold U64 in *; lia).
    replace ((j + 8) / 8) with (j / 8 + 1)
      by (rewrite <- (Z.div_add j 1 8) by lia; f_equal; lia).
    destruct (Z.ltb_spec 0 (j / 8 + 1)); [| lia].
    split; [discriminate | intros []].
  - unfold encodeBitField, bitFieldLookup.
    pose proof (fold_max_spec inds' i0) as Hmax. cbv zeta in Hmax.
    set (max := fold_left Z.max inds' i0) in *.
    destruct Hmax as (Hm0 & Hle & Hin).
    assert (Hmr : 0 <= max < U64 - 8).
    { rewrite Forall_forall in Hinds.
      destruct Hin as [-> | Hin];
        [apply Hinds; left; reflexivity | apply Hinds; right; exact Hin]. }
    assert (Hall : Forall (fun x => x <= max) (i0 :: inds'))
      by (constructor; assumption).
    unfold wrap64. rewrite (Z.mod_small (max + 8)) by (unfold U64 in *; lia).
    rewrite (Z.mod_small (j + 8)) by (unfold U64 in *; lia).
    replace ((max + 8) / 8) with (max / 8 + 1)
      by (rewrite <- (Z.div_add max 1 8) by lia; f_equal; lia).
    replace ((j + 8) / 8) with (j / 8 + 1)
      by (rewrite <- (Z.div_add j 1 8) by lia; f_equal; lia).
    assert (Hmd : 0 <= max / 8) by (apply Z.div_pos; lia).
    pose proof (bitField_fold (i0 :: inds')
                  (repeat 0 (Z.to_nat (max / 8 + 1)))) as Hfold.
    cbv zeta in Hfold.
    destruct Hfold as [Hlen Hbits].
    { rewrite Forall_forall in Hinds, Hall. apply Forall_forall.
      intros ind Hi. specialize (Hinds _ Hi). specialize (Hall _ Hi).
      split; [lia |]. rewrite repeat_length.
      assert (ind / 8 <= max / 8) by (apply Z.div_le_mono; lia).
      assert (0 <= ind / 8) by (apply Z.div_pos; lia). lia. }
    rewrite repeat_length in Hlen.
    unfold zlen. rewrite Hlen.
    destruct (Z.ltb_spec (Z.of_nat (Z.to_nat (max / 8 + 1))) (j / 8 + 1))
      as [Hout | Hin'].
    + split; [discriminate |]. intros Hj'.
      rewrite Forall_forall in Hall. specialize (Hall _ Hj').
      assert (j / 8 <= max / 8) by (apply Z.div_le_mono; lia). lia.
    + pose proof (Z.mod_pos_bound j 8 ltac:(lia)) as Hmod.
      rewrite bit_test by lia.
      rewrite Hbits by exact Hmod.
      replace (nth (Z.to_nat (j / 8)) (repeat 0 (Z.to_nat (max / 8 + 1))) 0)
        with 0.
      2:{ symmetry. destruct (Nat.lt_ge_cases (Z.to_nat (j / 8))
                                 (Z.to_nat (max / 8 + 1))).
          - apply nth_repeat_lt. assumption.
          - apply nth_overflow. rewrite repeat_length. assumption. }
      rewrite Z.bits_0. cbn [orb].
      replace (8 * Z.of_nat (Z.to_nat (j / 8)) + j mod 8) with j
        by (pose proof (Z.div_mod j 8 ltac:(lia)); lia).
      apply existsb_eqb_In.
Qed.

(** X8. Bit-field round-trip: for indices below [2^64 - 8],
    [bitFieldLookup] on [encodeBitField inds] is true exactly at the
    indices of [inds]; the empty list encodes as the empty string; and a
    lookup past the last byte of any bit field is false. *)
Theorem bit_field_round_trip (inds : list Z) (j : Z)
  (Hinds : Forall (fun ind => 0 <= ind < U64 - 8) inds)
  (Hj : 0 <= j < U64 - 8) :
  (bitFieldLookup (encodeBitField inds) j = true <-> In j inds) /\
  (inds = [] -> encodeBitField inds = []) /\
  (forall bitField, 8 * zlen bitField <= j ->
                    bitFieldLookup bitField j = false).
Proof.
  split; [apply bitField_round_trip; assumption |].
  split; [intros ->; reflexivity |].
  intros bitField Hlen. unfold bitFieldLookup, wrap64.
  rewrite (Z.mod_small (j + 8)) by (unfold U64 in *; lia).
  replace ((j + 8) / 8) with (j / 8 + 1)
    by (rewrite <- (Z.div_add j 1 8) by lia; f_equal; lia).
  assert (zlen bitField <= j / 8) by (apply Z.div_le_lower_bound; lia).
  destruct (Z.ltb_spec (zlen bitField) (j / 8 + 1)); [reflexivity | lia].
Qed.

(** ** Varints *)

Lemma decodeVarInt_loop_outcome encoded : forall res,
  (decodeVarInt_loop res encoded = Err "premature end of varint"%string <->
   Forall (fun b => Z.testbit b 7 = true) encoded) /\
  (forall v rest, decodeVarInt_loop res encoded = Ok (v, rest) ->
     exists init last,
       encoded = init ++ last :: rest /\
       Forall (fun b => Z.testbit b 7 = true) init /\
       Z.testbit last 7 = false).
Proof.
  induction encoded as [| byte encoded IH]; intros res.
  - split; [split; [constructor | reflexivity] | discriminate].
  - rewrite decodeVarInt_loop_cons, land_128.
    destruct (Z.testbit byte 7) eqn:E.
    + change (128 =? 0) with false. cbv iota.
      destruct (IH (Z.lor (wrap64 (Z.shiftl res 7)) (Z.land byte 127)))
        as [H1 H2].
      split.
      * rewrite H1. split; [intros H; constructor; assumption |].
        intros H. inversion H; assumption.
      * intros v rest H. destruct (H2 v rest H) as (init & last & -> & Hi & Hl).
        exists (byte :: init), last. split; [reflexivity |].
        split; [constructor; assumption | exact Hl].
    + change (0 =? 0) with true. cbv iota. split.
      * split; [discriminate |]. intros H. inversion H; congruence.
      * intros v rest H. apply Ok_pair_inj in H. destruct H as [_ <-].
        exists [], byte. split; [reflexivity |]. split; [constructor | exact E].
Qed.

Lemma decodeVarInt_loop_err encoded : forall res msg,
  decodeVarInt_loop res encoded = Err msg ->
  msg = "premature end of varint"%string.
Proof.
  induction encoded as [| byte encoded IH]; intros res msg H.
  - cbn in H. congruence.
  - rewrite decodeVarInt_loop_cons in H.
    destruct (Z.land byte 128 =? 0); [discriminate |].
    eapply IH. exact H.
Qed.

(** X9. Outcome of [decodeVarInt] on any bytes: it throws exactly when
    every byte of the view has its high bit set (the empty view included),
    and then with "premature end of varint"; when it returns, the value is
    below [2^64] and what it consumed is a run of bytes with the high bit
    set followed by one byte with the high bit clear, the rest of the view
    being left. *)
Theorem decodeVarInt_outcome (encoded : bytes) :
  (decodeVarInt encoded = Err "premature end of varint"%string <->
   Forall (fun b => Z.testbit b 7 = true) encoded) /\
  (forall v rest, decodeVarInt encoded = Ok (v, rest) ->
     0 <= v < 2 ^ 64 /\
     exists init last,
       encoded = init ++ last :: rest /\
       Forall (fun b => Z.testbit b 7 = true) init /\
       Z.testbit last 7 = false) /\
  (forall msg, decodeVarInt encoded = Err msg ->
     msg = "premature end of varint"%string).
Proof.
  unfold decodeVarInt.
  destruct (decodeVarInt_loop_outcome encoded 0) as [H1 H2].
  split; [exact H1 |]. split.
  - intros v rest H. split; [| exact (H2 v rest H)].
    exact (decodeVarInt_loop_range _ _ _ _ H).
  - intros msg. apply decodeVarInt_loop_err.
Qed.

Lemma encodeVarInt_loop_length fuel : forall n,
  (length (encodeVarInt_loop fuel n []) <= fuel)%nat.
Proof.
  induction fuel as [| fuel IH]; intros n; [simpl; lia |].
  destruct (Z.eq_dec n 0) as [-> | Hn]; [simpl; lia |].
  rewrite encodeVarInt_loop_step by exact Hn.
  cbn [length]. specialize (IH (Z.shiftr n 7)). lia.
Qed.

Lemma continuation_bytes_length fuel m :
  (length (continuation_bytes fuel m) <= fuel)%nat.
Proof.
  unfold continuation_bytes. rewrite length_map, length_rev.
  apply encodeVarInt_loop_length.
Qed.

(** X10. [encodeVarInt] is self-delimiting: for [v] in [0, 2^64) it gives
    between one and ten bytes, each a byte; and when the encodings of two
    such numbers, each followed by arbitrary bytes, give the same string,
    the numbers are the same and so are the bytes that follow. *)
Theorem encodeVarInt_self_delimiting (v : Z) (Hv : 0 <= v < 2 ^ 64) :
  (1 <= length (encodeVarInt v) <= 10)%nat /\
  Forall (fun b => 0 <= b < 256) (encodeVarInt v) /\
  (forall v' rest rest',
      0 <= v' < 2 ^ 64 ->
      encodeVarInt v ++ rest = encodeVarInt v' ++ rest' ->
      v = v' /\ rest = rest').
Proof.
  split; [| split].
  - destruct (Z.eq_dec v 0) as [-> | Hnz]; [simpl; lia |].
    rewrite encodeVarInt_shape by exact Hnz.
    rewrite length_app. cbn [length].
    pose proof (continuation_bytes_length 9 (v / 128)). lia.
  - destruct (Z.eq_dec v 0) as [-> | Hnz].
    + constructor; [lia | constructor].
    + rewrite encodeVarInt_shape by exact Hnz.
      apply Forall_app. split.
      * eapply Forall_impl; [| apply continuation_bytes_high].
        intros b [Hb _]. lia.
      * constructor; [| constructor].
        pose proof (mod128_range v). lia.
  - intros v' rest rest' Hv' E.
    pose proof (decodeVarInt_encodeVarInt v rest Hv) as D1.
    pose proof (decodeVarInt_encodeVarInt v' rest' Hv') as D2.
    rewrite E, D2 in D1. apply Ok_pair_inj in D1. destruct D1; auto.
Qed.

(** ** Bounds on the wire *)

Lemma wf_make_self e :
  XorElem.wf e ->
  XorElem.make (XorElem.timestamp e) (XorElem.getId e) = Ok e.
Proof.
  intros Hwf. pose proof (getId_length _ Hwf) as Hl.
  pose proof (wf_buffer _ Hwf) as Hb. pose proof Hwf as (_ & Hs & _).
  rewrite make_ok by lia. f_equal.
  destruct e as [t s i]. cbn [XorElem.timestamp XorElem.idSize XorElem.id] in *.
  unfold zlen. rewrite Hl. f_equal; [lia | symmetry; exact Hb].
Qed.

Lemma getBytes_app b rest : getBytes (b ++ rest) (zlen b) = Ok (b, rest).
Proof.
  unfold getBytes, zlen. rewrite length_app.
  destruct (Z.ltb_spec (Z.of_nat (length b + length rest)) (Z.of_nat (length b)));
    [lia |].
  rewrite Nat2Z.id, firstn_app, Nat.sub_diag, firstn_all, skipn_app,
    Nat.sub_diag, skipn_all.
  cbn [firstn skipn app]. now rewrite app_nil_r.
Qed.

Lemma decodeBound_encodeBound sz bound last rest :
  XorElem.wf bound -> XorElem.idSize bound <= sz ->
  is_u64 (XorElem.timestamp bound) -> is_u64 last ->
  decodeBound (fst (encodeBound sz bound last) ++ rest) last =
  if last <=? XorElem.timestamp bound
  then Ok (bound, rest, XorElem.timestamp bound)
  else Ok (XorElem.mk MAX_U64 (XorElem.idSize bound) (XorElem.id bound),
           rest, MAX_U64).
Proof.
  intros Hwf Hle Ht Hl.
  pose proof (getId_length _ Hwf) as Hlen. pose proof Hwf as (_ & Hs & _).
  assert (Hsz : XorElem.idSize bound = zlen (XorElem.getId bound))
    by (unfold zlen; lia).
  rewrite (encodeBound_length_field_ok sz bound last Hle Hsz). cbn [fst].
  unfold decodeBound. rewrite <- !app_assoc.
  rewrite (decode_encode_timestamp _ _ _ Ht Hl). cbv zeta. cbn [bind].
  rewrite decodeVarInt_encodeVarInt by (unfold is_u64, U64; lia).
  cbn [bind]. rewrite getBytes_app. cbn [bind].
  destruct (Z.leb_spec last (XorElem.timestamp bound)).
  - rewrite wf_make_self by exact Hwf. reflexivity.
  - rewrite make_ok by lia. cbn [bind].
    rewrite <- Hsz, Hlen, <- (wf_buffer _ Hwf). reflexivity.
Qed.

(** X11. Bound round-trip: a constructor-made bound whose id has at most
    [idSize] bytes and whose timestamp is not below the last one written,
    encoded with [encodeBound] and decoded with [decodeBound] from the same
    last timestamp, comes back as it was; what follows it is left in the
    view, and both sides end with its timestamp as their last timestamp. *)
Theorem bound_round_trip (sz : Z) (bound : XorElem.t) (last : Z) (rest : bytes)
  (Hwf : XorElem.wf bound) (Hle : XorElem.idSize bound <= sz)
  (Ht : 0 <= XorElem.timestamp bound < 2 ^ 64)
  (Hl : 0 <= last <= XorElem.timestamp bound) :
  decodeBound (fst (encodeBound sz bound last) ++ rest) last
    = Ok (bound, rest, XorElem.timestamp bound) /\
  snd (encodeBound sz bound last) = XorElem.timestamp bound.
Proof.
  split.
  - rewrite decodeBound_encodeBound;
      [| exact Hwf | exact Hle | exact Ht | unfold is_u64, U64; lia].
    destruct (Z.leb_spec last (XorElem.timestamp bound)); [reflexivity | lia].
  - unfold encodeBound.
    pose proof (encodeTimestampOut_last (XorElem.timestamp bound) last) as E.
    destruct (encodeTimestampOut (XorElem.timestamp bound) last) as [b l].
    exact E.
Qed.

(** ** Roles, frames and the queue *)

(** ** What a pass enqueues *)

Lemma splitRange_buckets_shape fuel : forall i sz items ipb extra lowerBound
    curr prevBound outputs outputs',
  0 <= i ->
  splitRange_buckets fuel i sz items ipb extra lowerBound curr prevBound
    outputs = Ok outputs' ->
  exists recs,
    outputs' = outputs ++ recs /\ length recs = fuel /\
    Forall (fun r => payload_mode r 1) recs /\
    linked (if i =? 0 then lowerBound else prevBound) recs.
Proof.
  induction fuel as [| fuel IH];
    intros i sz items ipb extra lowerBound curr prevBound outputs outputs' Hi H.
  - apply Ok_inj in H. subst. exists []. rewrite app_nil_r.
    repeat split; constructor.
  - rewrite splitRange_buckets_S in H.
    destruct (getMinimalBound _ _ _) as [e |]; [| discriminate].
    cbn [bind] in H. apply IH in H; [| lia].
    destruct H as (recs & -> & Hlen & Hmodes & Hlink).
    replace (i + 1 =? 0) with false in Hlink
      by (symmetry; apply Z.eqb_neq; lia).
    eexists (_ :: recs). rewrite <- app_assoc. split; [reflexivity |].
    split; [simpl; lia |]. split.
    + constructor; [| exact Hmodes].
      eexists. cbn [payload]. change (encodeVarInt 1) with [1]. reflexivity.
    + cbn [linked start end_]. split; [reflexivity | exact Hlink].
Qed.

Lemma linked_set_end cb l : forall b ub,
  linked cb (l ++ [b]) ->
  linked cb (l ++ [mkBoundOutput (start b) ub (payload b)]).
Proof.
  revert cb. induction l as [| x l IH]; intros cb b ub H.
  - cbn in *. tauto.
  - cbn [app linked] in *. destruct H as [H1 H2]. split; [exact H1 |].
    apply IH. exact H2.
Qed.

Lemma list_snoc {A : Type} (l : list A) :
  l <> [] -> exists l' x, l = l' ++ [x].
Proof.
  intros H. destruct (exists_last H) as (l' & x & E). eauto.
Qed.

(** What [splitRange] adds to the outputs. *)
Lemma splitRange_shape sz items lower upper lowerBound upperBound outputs
    outputs' :
  splitRange sz items lower upper lowerBound upperBound outputs = Ok outputs' ->
  exists recs,
    outputs' = outputs ++ recs /\ recs <> [] /\
    Forall (fun r => payload_mode r 1 \/ payload_mode r 2) recs /\
    linked lowerBound recs.
Proof.
  unfold splitRange. intros H.
  destruct (Z.of_nat (upper - lower) <? 16 * 2).
  - apply Ok_inj in H. subst. eexists [_]. split; [reflexivity |].
    split; [discriminate |]. split.
    + constructor; [| constructor]. right. eexists. cbn [payload].
      change (encodeVarInt 2) with [2]. reflexivity.
    + cbn. auto.
  - destruct (splitRange_buckets _ _ _ _ _ _ _ _ _ _) as [outs |] eqn:E;
      [| discriminate].
    cbn [bind] in H. apply Ok_inj in H. subst.
    apply splitRange_buckets_shape in E; [| lia].
    destruct E as (recs & -> & Hlen & Hmodes & Hlink).
    change (0 =? 0) with true in Hlink. cbv iota in Hlink.
    destruct (list_snoc recs) as (recs' & b & ->);
      [intros ->; discriminate |].
    rewrite app_assoc, set_back_end_snoc, <- app_assoc.
    eexists. split; [reflexivity |]. split; [destruct recs'; discriminate |].
    split.
    + apply Forall_app in Hmodes. destruct Hmodes as [H1 H2].
      apply Forall_app. split.
      * eapply Forall_impl; [| exact H1]. intros r Hr. left. exact Hr.
      * inversion H2; subst. constructor; [| constructor]. left. assumption.
    + apply linked_set_end. exact Hlink.
Qed.

Section Roles.

Variable map_order : TheirElems -> TheirElems.
Variable st : Negentropy.

Lemma onIdList_role w currBound q lower upper q' outs have need :
  onIdList map_order st w currBound q lower upper = Ok (q', outs, have, need) ->
  (isInitiator st = true -> outs = outputs w) /\
  (isInitiator st = false ->
   have = haveIds w /\ need = needIds w /\
   exists r, outs = outputs w ++ [r] /\ payload_mode r 3).
Proof.
  unfold onIdList. intros H.
  destruct (decodeVarInt q) as [[numIds q1] |]; [| discriminate].
  cbn [bind] in H.
  destruct (readTheirElems _ _ _ _ _) as [[m1 q2] |]; [| discriminate].
  cbn [bind] in H.
  destruct (fold_left (visitOurs (isInitiator st)) _ _)
    as [[m2 hv] rh] eqn:Ev.
  apply visitOurs_fold in Ev. destruct Ev as [_ Hhave].
  rewrite visitTheirs_fold in H.
  destruct (isInitiator st); cbn [negb] in H; apply Ok_inj in H;
    apply pair_equal_spec in H; destruct H as [H <-];
    apply pair_equal_spec in H; destruct H as [H <-];
    apply pair_equal_spec in H; destruct H as [_ <-].
  - split; [reflexivity | discriminate].
  - split; [discriminate |]. intros _.
    split; [apply Hhave; reflexivity |]. split; [reflexivity |].
    eexists. split; [reflexivity |]. eexists. cbn [payload].
    change (encodeVarInt 3) with [3]. reflexivity.
Qed.

Lemma step_role w w' :
  reconcileAux_step map_order st w = Ok w' ->
  (exists recs, outputs w' = outputs w ++ recs /\
                Forall (queued_mode_ok (isInitiator st)) recs) /\
  (isInitiator st = false ->
   haveIds w' = haveIds w /\ needIds w' = needIds w).
Proof.
  unfold reconcileAux_step. intros H.
  destruct (decodeBound _ _) as [[[currBound q1] l1] |]; [| discriminate].
  cbn [bind] in H.
  destruct (decodeVarInt q1) as [[mode q2] |]; [| discriminate].
  cbn [bind] in H.
  destruct (mode =? 0).
  { cbn [bind] in H. apply Ok_inj in H. subst w'. cbn. split; [| auto].
    exists []. rewrite app_nil_r. auto. }
  destruct (mode =? 1).
  { destruct (onFingerprint _ _ _ _ _ _) as [[q3 outs] |] eqn:E;
      [| discriminate].
    cbn [bind] in H. apply Ok_inj in H. subst w'. cbn. split; [| auto].
    unfold onFingerprint in E.
    destruct (getBytes q2 (idSize st)) as [[b q4] |]; [| discriminate].
    cbn [bind] in E.
    destruct (XorElem.make 0 b) as [x |]; [| discriminate].
    cbn [bind] in E. destruct (negb _).
    - destruct (splitRange _ _ _ _ _ _ _) as [o |] eqn:Es; [| discriminate].
      cbn [bind] in E. apply Ok_pair_inj in E. destruct E as [_ <-].
      apply splitRange_shape in Es.
      destruct Es as (recs & -> & _ & Hm & _). exists recs.
      split; [reflexivity |].
      eapply Forall_impl; [| exact Hm].
      intros r [Hr | Hr]; [left | right; left]; exact Hr.
    - apply Ok_pair_inj in E. destruct E as [_ <-].
      exists []. rewrite app_nil_r. auto. }
  destruct (mode =? 2).
  { destruct (onIdList _ _ _ _ _ _ _) as [[[[q3 outs] hv] nd] |] eqn:E;
      [| discriminate].
    cbn [bind] in H. apply Ok_inj in H. subst w'. cbn.
    apply onIdList_role in E. destruct E as [Ei Er].
    destruct (isInitiator st).
    - rewrite Ei by reflexivity. split; [| discriminate].
      exists []. rewrite app_nil_r. auto.
    - destruct Er as (-> & -> & r & -> & Hr); [reflexivity |].
      split; [| auto]. exists [r]. split; [reflexivity |].
      constructor; [| constructor]. right. right. auto. }
  destruct (mode =? 3); [| discriminate].
  destruct (onIdListResponse _ _ _ _ _) as [[[q3 hv] nd] |] eqn:E;
    [| discriminate].
  cbn [bind] in H. apply Ok_inj in H. subst w'. cbn.
  unfold onIdListResponse in E.
  destruct (isInitiator st); [| discriminate].
  split; [| discriminate]. exists []. rewrite app_nil_r. auto.
Qed.

Lemma walk_role w w' :
  walk_steps map_order st w w' ->
  (exists recs, outputs w' = outputs w ++ recs /\
                Forall (queued_mode_ok (isInitiator st)) recs) /\
  (isInitiator st = false ->
   haveIds w' = haveIds w /\ needIds w' = needIds w).
Proof.
  induction 1 as [w | w w1 w2 Hs IH Hstep].
  - split; [| auto]. exists []. rewrite app_nil_r. auto.
  - destruct IH as [(r1 & E1 & F1) K1].
    destruct (step_role _ _ Hstep) as [(r2 & E2 & F2) K2].
    split.
    + exists (r1 ++ r2). rewrite E2, E1, app_assoc. split; [reflexivity |].
      apply Forall_app. auto.
    + intros Hi. destruct (K1 Hi), (K2 Hi). split; congruence.
Qed.

(** What a pass over a frame that does not throw has done. *)
Lemma reconcileAux_inv q have0 need0 st' have need :
  reconcileAux map_order st q have0 need0 = Ok (st', have, need) ->
  exists w,
    walk_steps map_order st (walk0 q have0 need0) w /\
    query w = [] /\
    st' = mkNegentropy (idSize st) (items st) (sealed st) (isInitiator st)
            (frameSizeLimit st) (outputs w ++ pendingOutputs st) /\
    have = haveIds w /\ need = needIds w.
Proof.
  unfold reconcileAux. destruct (negb (sealed st)); [discriminate |].
  rewrite make_empty. cbn [bind]. fold (walk0 q have0 need0).
  destruct (reconcileAux_loop _ _ _ _) as [w |] eqn:E; [| discriminate].
  cbn [bind]. intros H. apply Ok_inj in H.
  apply pair_equal_spec in H. destruct H as [H <-].
  apply pair_equal_spec in H. destruct H as [<- <-].
  apply reconcileAux_loop_exhausts in E; [| cbn; lia].
  destruct E as [Hend Hsteps]. exists w. auto.
Qed.

End Roles.

Lemma buildOutput_inv st frame st' :
  buildOutput st = Ok (frame, st') ->
  exists emitted,
    pendingOutputs st = emitted ++ pendingOutputs st' /\
    frame = frame_of (idSize st) emitted (empty_bound 0) 0 /\
    st' = mkNegentropy (idSize st) (items st) (sealed st) (isInitiator st)
            (frameSizeLimit st) (pendingOutputs st').
Proof.
  unfold buildOutput. rewrite make_empty. cbn [bind].
  destruct (buildOutput_loop _ _ _ _ _ _) as [out rest] eqn:E.
  intros H. apply Ok_pair_inj in H. destruct H as [<- <-].
  apply buildOutput_loop_spec in E. destruct E as (emitted & E1 & E2 & _).
  exists emitted. cbn [pendingOutputs]. auto.
Qed.

(** X12. What an initiator sends.  When the [reconcile] overload with
    have/need sinks returns, on a queue that held Fingerprint and IdList
    outputs only, the frame is made of whole records whose payloads are
    Fingerprint or IdList ones, and so is what stays queued: an initiator
    never sends an IdListResponse.  And a non-initiator leaves the two
    sinks of [reconcileAux] as they were. *)
Theorem initiator_never_queues_response
  (map_order : TheirElems -> TheirElems) (st : Negentropy) (q : bytes)
  (have0 need0 : list bytes) :
  (forall frame have need st',
      reconcile_have_need map_order st q have0 need0
        = Ok (frame, have, need, st') ->
      Forall (queued_mode_ok true) (pendingOutputs st) ->
      exists emitted,
        frame = frame_of (idSize st) emitted (empty_bound 0) 0 /\
        Forall (fun r => payload_mode r 1 \/ payload_mode r 2) emitted /\
        Forall (queued_mode_ok true) (pendingOutputs st')) /\
  (forall st' have need,
      isInitiator st = false ->
      reconcileAux map_order st q have0 need0 = Ok (st', have, need) ->
      have = have0 /\ need = need0).
Proof.
  split.
  - intros frame have need st' H Hq. unfold reconcile_have_need in H.
    destruct (isInitiator st) eqn:Ei; [| discriminate]. cbn [negb] in H.
    destruct (reconcileAux map_order st q have0 need0)
      as [[[st1 h] n] |] eqn:Ea; [| discriminate].
    cbn [bind] in H.
    destruct (buildOutput st1) as [[out st2] |] eqn:Eb; [| discriminate].
    cbn [bind] in H. apply Ok_inj in H.
    apply pair_equal_spec in H. destruct H as [H <-].
    apply pair_equal_spec in H. destruct H as [H _].
    apply pair_equal_spec in H. destruct H as [<- _].
    apply reconcileAux_inv in Ea. destruct Ea as (w & Hs & _ & -> & _).
    apply walk_role in Hs. destruct Hs as [(recs & Er & Fr) _].
    cbn [walk0 outputs app] in Er. rewrite Ei in Fr.
    apply buildOutput_inv in Eb.
    cbn [idSize pendingOutputs] in Eb. destruct Eb as (emitted & E1 & E2 & _).
    assert (Fall : Forall (queued_mode_ok true) (emitted ++ pendingOutputs st2)).
    { rewrite <- E1, Er. apply Forall_app. auto. }
    apply Forall_app in Fall. destruct Fall as [Fe Fp].
    exists emitted. split; [exact E2 |]. split; [| exact Fp].
    eapply Forall_impl; [| exact Fe].
    intros r [Hr | [Hr | [Hr _]]]; [left; exact Hr | right; exact Hr |
                                    discriminate].
  - intros st' have need Hi H.
    apply reconcileAux_inv in H. destruct H as (w & Hs & _ & _ & -> & ->).
    apply walk_role in Hs. destruct Hs as [_ K]. apply (K Hi).
Qed.

(** X13. A [reconcile] that returns has consumed the whole frame: the
    walk of [reconcileAux] went record by record to the end of the view;
    the sinks returned are those of the walk; the outputs of the walk, put
    in front of the queue, are split by [buildOutput] in the outputs that
    make the frame, whole records one after the other, and those that stay
    queued. *)
Theorem reconcile_consumes_frame
  (map_order : TheirElems -> TheirElems) (st : Negentropy) (q : bytes) :
  (forall frame st',
      reconcile map_order st q = Ok (frame, st') ->
      exists w, walk_steps map_order st (walk0 q [] []) w /\
                query w = [] /\
                exists emitted,
                  outputs w ++ pendingOutputs st
                    = emitted ++ pendingOutputs st' /\
                  frame = frame_of (idSize st) emitted (empty_bound 0) 0) /\
  (forall have0 need0 frame have need st',
      reconcile_have_need map_order st q have0 need0
        = Ok (frame, have, need, st') ->
      exists w, walk_steps map_order st (walk0 q have0 need0) w /\
                query w = [] /\ have = haveIds w /\ need = needIds w /\
                exists emitted,
                  outputs w ++ pendingOutputs st
                    = emitted ++ pendingOutputs st' /\
                  frame = frame_of (idSize st) emitted (empty_bound 0) 0).
Proof.
  split.
  - intros frame st' H. unfold reconcile in H.
    destruct (isInitiator st); [discriminate |].
    destruct (reconcileAux map_order st q [] []) as [[[st1 h] n] |] eqn:Ea;
      [| discriminate].
    cbn [bind] in H. apply reconcileAux_inv in Ea.
    destruct Ea as (w & Hs & Hend & -> & _).
    apply buildOutput_inv in H. cbn [idSize pendingOutputs] in H.
    destruct H as (emitted & E1 & E2 & _).
    exists w. split; [exact Hs |]. split; [exact Hend |].
    exists emitted. auto.
  - intros have0 need0 frame have need st' H. unfold reconcile_have_need in H.
    destruct (negb (isInitiator st)); [discriminate |].
    destruct (reconcileAux map_order st q have0 need0)
      as [[[st1 h] n] |] eqn:Ea; [| discriminate].
    cbn [bind] in H.
    destruct (buildOutput st1) as [[out st2] |] eqn:Eb; [| discriminate].
    cbn [bind] in H. apply Ok_inj in H.
    apply pair_equal_spec in H. destruct H as [H <-].
    apply pair_equal_spec in H. destruct H as [H <-].
    apply pair_equal_spec in H. destruct H as [<- <-].
    apply reconcileAux_inv in Ea. destruct Ea as (w & Hs & Hend & -> & -> & ->).
    apply buildOutput_inv in Eb. cbn [idSize pendingOutputs] in Eb.
    destruct Eb as (emitted & E1 & E2 & _).
    exists w. repeat (split; [auto; fail |]). exists emitted. auto.
Qed.

(** ** The first frame *)

Lemma linked_ascending ps : forall cb, linked cb ps -> ascending cb ps.
Proof.
  induction ps as [| p ps IH]; intros cb H; [exact I |].
  destruct H as [H1 H2]. cbn [ascending]. split.
  - rewrite H1. apply ltb_irrefl.
  - apply IH. exact H2.
Qed.

(** Without a limit [buildOutput] goes through a queue that is in order. *)
Lemma buildOutput_loop_uncapped sz pending : forall output cb last,
  ascending cb pending ->
  buildOutput_loop sz 0 pending output cb last =
  (output ++ frame_of sz pending cb last, []).
Proof.
  induction pending as [| p pending IH]; intros output cb last H.
  - cbn. now rewrite app_nil_r.
  - destruct H as [H1 H2]. rewrite buildOutput_loop_cons, H1.
    cbn [frame_of].
    destruct (record_bytes sz p cb last) as [o last'].
    change (0 =? 0) with true. cbn [negb andb].
    rewrite IH by exact H2. now rewrite app_assoc.
Qed.

Lemma splitRange_ok sz items lower upper lowerBound upperBound outputs :
  Forall XorElem.wf items -> 0 <= sz <= 32 ->
  exists outputs',
    splitRange sz items lower upper lowerBound upperBound outputs
    = Ok outputs'.
Proof.
  intros Hwf Hsz. unfold splitRange.
  destruct (Z.of_nat (upper - lower) <? 16 * 2); [eexists; reflexivity |].
  destruct (splitRange_buckets_spec sz items lower (upper - lower)
              lowerBound upperBound Hsz Hwf 16 0 (item_at items lower) outputs)
    as (recs & E & _); [intros H; contradiction |].
  rewrite bucket_start_0 in E. change (Z.of_nat 0) with 0 in E.
  rewrite E. cbn [bind]. eexists; reflexivity.
Qed.

(** X14. [initiate] on a sealed object that satisfies the invariant, with
    a limit of 0 or at least 1024, returns: the split of the whole domain
    succeeds, the object becomes an initiator with that limit, after which
    the [reconcile] overload without sinks throws; without a limit and with
    an empty queue the frame carries every record of the split and nothing
    stays queued. *)
Theorem initiate_succeeds (st : Negentropy) (limit : Z)
  (Hinv : invariant st) (Hsealed : sealed st = true)
  (Hlimit : limit = 0 \/ 1024 <= limit) :
  exists queue frame st',
    splitRange (idSize st) (items st) 0 (length (items st)) (empty_bound 0)
      (empty_bound MAX_U64) (pendingOutputs st) = Ok queue /\
    initiate st limit = Ok (frame, st') /\
    isInitiator st' = true /\ frameSizeLimit st' = limit /\
    (forall map_order query,
        reconcile map_order st' query
        = Err "initiator not asking for have/need IDs"%string) /\
    (limit = 0 -> pendingOutputs st = [] ->
     frame = frame_of (idSize st) queue (empty_bound 0) 0 /\
     pendingOutputs st' = []).
Proof.
  destruct Hinv as (Hsz & Hwf & _ & _).
  destruct (splitRange_ok (idSize st) (items st) 0 (length (items st))
              (empty_bound 0) (empty_bound MAX_U64) (pendingOutputs st) Hwf
              ltac:(lia)) as [queue Eq].
  exists queue.
  assert (Ei : initiate st limit =
               buildOutput (mkNegentropy (idSize st) (items st) (sealed st)
                              true limit queue)).
  { unfold initiate. rewrite Hsealed. cbn [negb].
    assert (El : negb (limit =? 0) && (limit <? 1024) = false).
    { destruct Hlimit as [-> | Hl]; [reflexivity |].
      apply andb_false_iff. right. apply Z.ltb_ge. exact Hl. }
    rewrite El, !make_empty. cbn [bind]. rewrite Eq. reflexivity. }
  destruct (buildOutput (mkNegentropy (idSize st) (items st) (sealed st) true
                           limit queue)) as [[frame st'] |] eqn:Eb.
  2:{ unfold buildOutput in Eb. rewrite make_empty in Eb. cbn [bind] in Eb.
      destruct (buildOutput_loop _ _ _ _ _ _); discriminate. }
  exists frame, st'. split; [exact Eq |]. split; [exact Ei |].
  pose proof (buildOutput_fields _ _ _ Eb) as (F1 & F2 & F3 & F4 & F5).
  cbn [idSize items sealed isInitiator frameSizeLimit] in *.
  split; [exact F4 |]. split; [exact F5 |]. split.
  - intros map_order query. unfold reconcile. rewrite F4. reflexivity.
  - intros -> Hp. rewrite Hp in Eq.
    apply splitRange_shape in Eq. destruct Eq as (recs & -> & _ & _ & Hl).
    cbn [app] in *.
    unfold buildOutput in Eb. rewrite make_empty in Eb. cbn [bind] in Eb.
    cbn [idSize frameSizeLimit pendingOutputs] in Eb.
    rewrite buildOutput_loop_uncapped in Eb
      by (apply linked_ascending; exact Hl).
    apply Ok_pair_inj in Eb. destruct Eb as [<- <-].
    cbn [pendingOutputs app]. auto.
Qed.

(** ** One round over small sets *)

Lemma upper_bound_from_whole items : forall i,
  Forall (fun e => XorElem.timestamp e < MAX_U64) items ->
  upper_bound_from items i (empty_bound MAX_U64) = (i + length items)%nat.
Proof.
  induction items as [| e items IH]; intros i H.
  - cbn. lia.
  - inversion H as [| ? ? He Hr]; subst. cbn [upper_bound_from length].
    assert (E : XorElem.ltb (empty_bound MAX_U64) e = false).
    { unfold XorElem.ltb. cbn [empty_bound XorElem.timestamp].
      destruct (Z.eqb_spec MAX_U64 (XorElem.timestamp e)); [lia |].
      cbn [negb]. apply Z.ltb_ge. lia. }
    rewrite E, IH by exact Hr. lia.
Qed.

Lemma upper_bound_whole items :
  Forall (fun e => XorElem.timestamp e < MAX_U64) items ->
  upper_bound items 0 (empty_bound MAX_U64) = length items.
Proof.
  intros H. unfold upper_bound. cbn [skipn].
  now rewrite upper_bound_from_whole.
Qed.

Lemma slice_whole {A : Type} (l : list A) : slice l 0 (length l) = l.
Proof. unfold slice. cbn [skipn]. rewrite Nat.sub_0_r. apply firstn_all. Qed.

(** Reading ids of [sz] bytes off a view that starts with them. *)
Lemma readTheirElems_concat ids : forall i sz rest m,
  Forall (fun x => zlen x = sz) ids ->
  exists m',
    readTheirElems (length ids) i sz (concat ids ++ rest) m = Ok (m', rest).
Proof.
  induction ids as [| x ids IH]; intros i sz rest m H.
  - eexists. reflexivity.
  - inversion H as [| ? ? Hx Hr]; subst.
    cbn [length readTheirElems concat]. rewrite <- app_assoc, getBytes_app.
    cbn [bind]. apply IH. exact Hr.
Qed.

Lemma read_ids_concat ids : forall sz rest,
  Forall (fun x => zlen x = sz) ids ->
  read_ids (length ids) sz (concat ids ++ rest) = Ok (ids, rest).
Proof.
  induction ids as [| x ids IH]; intros sz rest H; [reflexivity |].
  inversion H as [| ? ? Hx Hr]; subst.
  cbn [length read_ids concat]. rewrite <- app_assoc, getBytes_app.
  cbn [bind]. rewrite IH by exact Hr. reflexivity.
Qed.

Lemma readNeedIds_concat ids : forall sz rest need,
  Forall (fun x => zlen x = sz) ids ->
  readNeedIds (length ids) sz (concat ids ++ rest) need
  = Ok (need ++ ids, rest).
Proof.
  induction ids as [| x ids IH]; intros sz rest need H.
  - cbn. now rewrite app_nil_r.
  - inversion H as [| ? ? Hx Hr]; subst.
    cbn [length readNeedIds concat]. rewrite <- app_assoc, getBytes_app.
    cbn [bind]. rewrite IH by exact Hr. rewrite <- app_assoc. reflexivity.
Qed.


(** What the initiator reads off the bit field. *)
Lemma haveFromBitField_spec bitField (P : bytes -> bool) ours :
  forall j have,
  (forall i, (i < length ours)%nat ->
     bitFieldLookup bitField (j + Z.of_nat i) = P (nth i (ids_of ours) [])) ->
  haveFromBitField bitField ours j have = have ++ filter P (ids_of ours).
Proof.
  induction ours as [| it ours IH]; intros j have H.
  - cbn. now rewrite app_nil_r.
  - cbn [haveFromBitField ids_of map filter]. fold (ids_of ours).
    pose proof (H 0%nat ltac:(simpl; lia)) as H0.
    cbn [nth ids_of map] in H0. rewrite Z.add_0_r in H0. rewrite H0.
    rewrite IH.
    + destruct (P (XorElem.getId it)); [| reflexivity].
      rewrite <- app_assoc. reflexivity.
    + intros i Hi. specialize (H (S i) ltac:(simpl; lia)).
      cbn [nth ids_of map] in H. fold (ids_of ours) in H.
      rewrite <- H. f_equal. lia.
Qed.

Lemma encodeBitField_length inds : 0 <= zlen (encodeBitField inds) < U64.
Proof.
  unfold zlen. split; [lia |].
  destruct inds as [| i0 inds]; [reflexivity |].
  unfold encodeBitField.
  set (bf0 := repeat 0 _).
  assert (L : forall l bf,
             length (fold_left
                       (fun bitField ind =>
                          list_update bitField (Z.to_nat (ind / 8))
                            (fun b => Z.lor b (Z.shiftl 1 (ind mod 8))))
                       l bf) = length bf).
  { induction l as [| x l IHl]; intros bf; [reflexivity |].
    cbn [fold_left]. rewrite IHl. apply list_update_length. }
  rewrite L. subst bf0. rewrite repeat_length.
  pose proof (wrap64_range (fold_left Z.max inds i0 + 8)) as Hw.
  assert (wrap64 (fold_left Z.max inds i0 + 8) / 8 < U64).
  { apply Z.div_lt_upper_bound; [lia |]. unfold U64 in *. lia. }
  assert (0 <= wrap64 (fold_left Z.max inds i0 + 8) / 8)
    by (apply Z.div_pos; lia).
  lia.
Qed.

(** ** One round trip between two small sets *)

Lemma decodeBound_whole rest :
  decodeBound (0 :: 0 :: rest) 0 = Ok (empty_bound MAX_U64, rest, MAX_U64).
Proof.
  unfold decodeBound, decodeTimestampIn.
  change (decodeVarInt (0 :: 0 :: rest)) with (@Ok (Z * bytes) (0, 0 :: rest)).
  cbn [bind].
  change (decodeVarInt (0 :: rest)) with (@Ok (Z * bytes) (0, rest)).
  change (wrap64 ((if 0 =? 0 then MAX_U64 else 0 - 1) + 0)) with MAX_U64.
  change (MAX_U64 <? 0) with false. cbv iota. cbn [bind].
  unfold getBytes.
  assert (E : (zlen rest <? 0) = false) by (apply Z.ltb_ge; unfold zlen; lia).
  rewrite E. cbn [bind Z.to_nat firstn skipn]. rewrite make_empty.
  reflexivity.
Qed.

Lemma item_ok_ids sz its :
  Forall (item_ok sz) its -> Forall (fun x => zlen x = sz) (ids_of its).
Proof.
  intros H. unfold ids_of. apply Forall_map.
  apply (Forall_impl _ (P := item_ok sz)); [| exact H].
  intros e (Hwf & Hsz & _). unfold zlen. rewrite (getId_length _ Hwf).
  destruct Hwf as (_ & ? & _). lia.
Qed.

Lemma item_ok_getIdSub sz its :
  Forall (item_ok sz) its ->
  map (fun it => XorElem.getIdSub it sz) its = ids_of its.
Proof.
  intros H. unfold ids_of. apply map_ext_in. intros e He.
  rewrite Forall_forall in H. destruct (H e He) as (_ & Hsz & _).
  apply getIdSub_whole. lia.
Qed.

Lemma item_ok_timestamps sz its :
  Forall (item_ok sz) its ->
  Forall (fun e => XorElem.timestamp e < MAX_U64) its.
Proof.
  apply Forall_impl. intros e (_ & _ & H). lia.
Qed.

Lemma buildOutput_idle sz its role limit :
  buildOutput (mkNegentropy sz its true role limit []) =
  Ok ([], mkNegentropy sz its true role limit []).
Proof. unfold buildOutput. rewrite make_empty. reflexivity. Qed.



(** The first frame of an initiator with fewer than 32 items: one IdList
    over the whole domain. *)
Lemma initiate_small sz SA :
  Forall (item_ok sz) SA -> (length SA < 32)%nat ->
  initiate (peer sz SA false) 0 =
  Ok ([0; 0] ++ encodeVarInt 2 ++ encodeVarInt (zlen SA) ++
        concat (ids_of SA),
      peer sz SA true).
Proof.
  intros Hok Hlen. unfold initiate, peer.
  cbn [sealed negb idSize items pendingOutputs]. change (0 =? 0) with true.
  cbn [negb andb]. rewrite !make_empty. cbn [bind]. unfold splitRange.
  rewrite Nat.sub_0_r.
  assert (E : (Z.of_nat (length SA) <? 16 * 2) = true) by (apply Z.ltb_lt; lia).
  rewrite E. cbn [bind app]. rewrite slice_whole.
  rewrite (item_ok_getIdSub _ _ Hok).
  rewrite buildOutput_whole_domain by reflexivity. reflexivity.
Qed.

Section OneRound.

Variable map_order : TheirElems -> TheirElems.
Hypothesis map_order_ok : map_order_spec map_order.
Variable sz : Z.
Variables SA SB : list XorElem.t.
Hypothesis SA_ok : Forall (item_ok sz) SA.
Hypothesis SB_ok : Forall (item_ok sz) SB.
Hypothesis SA_small : (length SA < 32)%nat.
Hypothesis SB_size : zlen SB < U64.
Hypothesis SA_nodup : NoDup (ids_of SA).

Lemma onIdList_small w rest :
  prevBound w = empty_bound 0 -> outputs w = [] ->
  exists inds,
    onIdList map_order (peer sz SB false) w (empty_bound MAX_U64)
      (encodeVarInt (zlen SA) ++ concat (ids_of SA) ++ rest) 0 (length SB) =
    Ok (rest,
        [mkBoundOutput (empty_bound 0) (empty_bound MAX_U64)
           (encodeVarInt 3 ++ encodeVarInt (zlen (reply_ids SA SB)) ++
            concat (reply_ids SA SB) ++
            encodeVarInt (zlen (encodeBitField inds)) ++ encodeBitField inds)],
        haveIds w, needIds w) /\
    Forall (fun o => 0 <= o < Z.of_nat (length SA)) inds /\
    forall i, (i < length SA)%nat ->
      In (Z.of_nat i) inds <-> mem_id (nth i (ids_of SA) []) (ids_of SB) = false.
Proof.
  intros Hp Ho.
  assert (Hids := item_ok_ids _ _ SA_ok).
  assert (Hn : Z.to_nat (zlen SA) = length (ids_of SA)).
  { unfold zlen, ids_of. rewrite length_map. lia. }
  destruct (readTheirElems_concat (ids_of SA) 0 sz rest [] Hids) as (m1 & R).
  destruct (readTheirElems_entries (length (ids_of SA)) [] sz
              (concat (ids_of SA) ++ rest) [] m1 rest entries_ok_nil R)
    as (ids & Rids & Hent).
  rewrite (read_ids_concat _ _ _ Hids) in Rids.
  apply Ok_pair_inj in Rids. destruct Rids as [<- _]. cbn [app] in Hent.
  assert (Hun := readTheirElems_unmarked _ _ _ _ _ _ _ (Forall_nil _) R).
  destruct (visitOurs_responder SB m1 (haveIds w) []) as (m2 & F & Hk & Hf).
  exists (map (fun kv => offset (snd kv)) (filter unseen (map_order m2))).
  split; [| split].
  - unfold onIdList.
    rewrite decodeVarInt_encodeVarInt by (unfold is_u64, zlen, U64; lia).
    cbn [bind].
    change (idSize (peer sz SB false)) with sz.
    change (items (peer sz SB false)) with SB.
    change (isInitiator (peer sz SB false)) with false.
    rewrite Hn.
    match goal with
    | |- context [readTheirElems ?a ?b ?c ?d ?e] =>
        replace (readTheirElems a b c d e) with (Ok (m1, rest))
          by (symmetry; exact R)
    end.
    cbn [bind]. rewrite slice_whole, F, visitTheirs_fold.
    cbn [negb app]. rewrite Hp, Ho. cbn [app]. do 5 f_equal.
    assert (E : filter (fun x => negb (mem_id x (map fst m1))) (ids_of SB)
                = (reply_ids SA SB)).
    { unfold reply_ids. apply filter_ext. intros x. f_equal.
      apply mem_id_ext. apply entries_keys. exact Hent. }
    rewrite E. reflexivity.
  - replace (length SA) with (length (ids_of SA))
      by (unfold ids_of; apply length_map).
    eapply flagged_offsets_range; eauto.
  - intros i Hi. eapply flagged_offsets; eauto.
    unfold ids_of. rewrite length_map. exact Hi.
Qed.

Lemma reconcileAux_loop_done fuel st w :
  query w = [] -> reconcileAux_loop map_order fuel st w = Ok w.
Proof. intros H. destruct fuel; cbn [reconcileAux_loop]; now rewrite H. Qed.

(** The reply of the responder to that first frame: one IdListResponse
    over the whole domain. *)
Lemma reconcile_small :
  exists inds,
    reconcile map_order (peer sz SB false)
      ([0; 0] ++ encodeVarInt 2 ++ encodeVarInt (zlen SA) ++
       concat (ids_of SA)) =
    Ok ([0; 0] ++ encodeVarInt 3 ++ encodeVarInt (zlen (reply_ids SA SB)) ++
          concat (reply_ids SA SB) ++
          encodeVarInt (zlen (encodeBitField inds)) ++ encodeBitField inds,
        peer sz SB false) /\
    Forall (fun o => 0 <= o < Z.of_nat (length SA)) inds /\
    forall i, (i < length SA)%nat ->
      In (Z.of_nat i) inds <-> mem_id (nth i (ids_of SA) []) (ids_of SB) = false.
Proof.
  set (w0 := mkWalk (encodeVarInt (zlen SA) ++ concat (ids_of SA) ++ [])
               (empty_bound 0) 0 0 [] [] []).
  destruct (onIdList_small w0 [] eq_refl eq_refl) as (inds & E & Hr & Hi).
  exists inds. split; [| split; assumption].
  unfold reconcile. change (isInitiator (peer sz SB false)) with false.
  cbv iota. unfold reconcileAux.
  change (sealed (peer sz SB false)) with true. cbn [negb].
  rewrite make_empty. cbn [bind app length].
  rewrite reconcileAux_loop_unfold by (cbn [query]; discriminate).
  unfold reconcileAux_step at 1. cbn [query lastTimestampIn prevIndex].
  rewrite decodeBound_whole. cbn [bind].
  rewrite decodeVarInt_encodeVarInt by (unfold is_u64, U64; lia).
  cbn [bind]. change (2 =? 0) with false. change (2 =? 1) with false.
  change (2 =? 2) with true. cbv iota.
  change (items (peer sz SB false)) with SB.
  rewrite (upper_bound_whole _ (item_ok_timestamps _ _ SB_ok)).
  rewrite <- (app_nil_r (concat (ids_of SA))).
  match goal with
  | |- context [onIdList map_order ?st ?w ?cb ?q ?lo ?up] =>
      replace (onIdList map_order st w cb q lo up)
        with (onIdList map_order st w0 cb q lo up) by reflexivity
  end.
  rewrite E. cbn [bind].
  rewrite reconcileAux_loop_done by reflexivity. cbn [bind outputs].
  change (idSize (peer sz SB false)) with sz.
  change (frameSizeLimit (peer sz SB false)) with 0.
  change (pendingOutputs (peer sz SB false)) with (@nil BoundOutput).
  cbn [app]. rewrite buildOutput_whole_domain by reflexivity. reflexivity.
Qed.

Lemma reply_ids_length : 0 <= zlen (reply_ids SA SB) < U64.
Proof.
  unfold zlen in *. split; [lia |].
  assert (length (reply_ids SA SB) <= length SB)%nat.
  { unfold reply_ids.
    replace (length SB) with (length (ids_of SB))
      by (unfold ids_of; apply length_map).
    apply filter_length_le. }
  lia.
Qed.

Lemma reply_ids_sized : Forall (fun x => zlen x = sz) (reply_ids SA SB).
Proof.
  pose proof (item_ok_ids _ _ SB_ok) as H. rewrite Forall_forall in *.
  intros x Hx. apply H. unfold reply_ids in Hx. apply filter_In in Hx.
  tauto.
Qed.

(** What the initiator makes of that reply. *)
Lemma reconcile_have_need_small inds :
  Forall (fun o => 0 <= o < Z.of_nat (length SA)) inds ->
  (forall i, (i < length SA)%nat ->
     In (Z.of_nat i) inds <->
     mem_id (nth i (ids_of SA) []) (ids_of SB) = false) ->
  reconcile_have_need map_order (peer sz SA true)
    ([0; 0] ++ encodeVarInt 3 ++ encodeVarInt (zlen (reply_ids SA SB)) ++
     concat (reply_ids SA SB) ++
     encodeVarInt (zlen (encodeBitField inds)) ++ encodeBitField inds)
    [] [] =
  Ok ([], filter (fun x => negb (mem_id x (ids_of SB))) (ids_of SA),
      (reply_ids SA SB), peer sz SA true).
Proof.
  intros Hr Hi. unfold reconcile_have_need.
  change (isInitiator (peer sz SA true)) with true. cbn [negb].
  unfold reconcileAux.
  change (sealed (peer sz SA true)) with true. cbn [negb].
  rewrite make_empty. cbn [bind app length].
  rewrite reconcileAux_loop_unfold by (cbn [query]; discriminate).
  unfold reconcileAux_step at 1.
  cbn [query lastTimestampIn prevIndex haveIds needIds outputs].
  rewrite decodeBound_whole. cbn [bind].
  rewrite decodeVarInt_encodeVarInt by (unfold is_u64, U64; lia).
  cbn [bind]. change (3 =? 0) with false. change (3 =? 1) with false.
  change (3 =? 2) with false. change (3 =? 3) with true. cbv iota.
  change (items (peer sz SA true)) with SA.
  rewrite (upper_bound_whole _ (item_ok_timestamps _ _ SA_ok)).
  unfold onIdListResponse.
  change (isInitiator (peer sz SA true)) with true. cbn [negb].
  rewrite decodeVarInt_encodeVarInt by exact reply_ids_length.
  cbn [bind needIds haveIds].
  change (idSize (peer sz SA true)) with sz.
  change (items (peer sz SA true)) with SA.
  replace (Z.to_nat (zlen (reply_ids SA SB))) with (length (reply_ids SA SB))
    by (unfold zlen; lia).
  rewrite (readNeedIds_concat _ _ _ _ reply_ids_sized). cbn [bind app].
  rewrite decodeVarInt_encodeVarInt by (apply encodeBitField_length).
  cbn [bind].
  rewrite <- (app_nil_r (encodeBitField inds)) at 1.
  rewrite getBytes_app. cbn [bind]. rewrite slice_whole.
  rewrite (haveFromBitField_spec _
             (fun x => negb (mem_id x (ids_of SB)))).
  - cbn [app bind]. rewrite reconcileAux_loop_done by reflexivity.
    cbn [bind outputs haveIds needIds app].
    change (idSize (peer sz SA true)) with sz.
    change (items (peer sz SA true)) with SA.
    change (sealed (peer sz SA true)) with true.
    change (isInitiator (peer sz SA true)) with true.
    change (frameSizeLimit (peer sz SA true)) with 0.
    change (pendingOutputs (peer sz SA true)) with (@nil BoundOutput).
    rewrite buildOutput_idle. reflexivity.
  - intros i Hlt. cbn [Z.add].
    assert (Hb : 0 <= Z.of_nat i < U64 - 8) by (unfold U64; lia).
    assert (Hinds : Forall (fun ind => 0 <= ind < U64 - 8) inds).
    { apply (Forall_impl _ (P := fun o => 0 <= o < Z.of_nat (length SA)));
        [| exact Hr].
      intros o Ho. unfold U64. lia. }
    pose proof (bitField_round_trip inds (Z.of_nat i) Hinds Hb) as Hbf.
    specialize (Hi i Hlt).
    destruct (mem_id (nth i (ids_of SA) []) (ids_of SB)); cbn [negb].
    + destruct (bitFieldLookup (encodeBitField inds) (Z.of_nat i));
        [| reflexivity].
      assert (In (Z.of_nat i) inds) by (apply Hbf; reflexivity).
      apply Hi in H. discriminate.
    + apply Hbf. apply Hi. reflexivity.
Qed.

End OneRound.

(** X15. Two small sets reconcile in one round trip.  An initiator with
    fewer than 32 items of distinct ids and a responder, both sealed with
    ids of [idSize] bytes and timestamps below [MAX_U64], whatever the
    order in which the responder visits its map: [initiate] gives a frame,
    the [reconcile] of the responder answers it with a frame, and the
    [reconcile] of the initiator on that answer returns an empty frame,
    the ids of its items that the responder does not hold as [haveIds] and
    the ids of the items of the responder that it does not hold as
    [needIds]; no item or role changes. *)
Theorem small_sets_reconcile_in_one_round map_order sz SA SB :
  map_order_spec map_order ->
  8 <= sz <= 32 ->
  Forall (item_ok sz) SA -> Forall (item_ok sz) SB ->
  sorted SA -> sorted SB ->
  (length SA < 32)%nat -> zlen SB < U64 ->
  NoDup (ids_of SA) ->
  exists f0 f1,
    initiate (peer sz SA false) 0 = Ok (f0, peer sz SA true) /\
    reconcile map_order (peer sz SB false) f0 = Ok (f1, peer sz SB false) /\
    reconcile_have_need map_order (peer sz SA true) f1 [] [] =
    Ok ([],
        filter (fun x => negb (mem_id x (ids_of SB))) (ids_of SA),
        filter (fun x => negb (mem_id x (ids_of SA))) (ids_of SB),
        peer sz SA true).
Proof.
  intros Hord _ HA HB _ _ Hsmall Hsize Hnd.
  destruct (reconcile_small map_order Hord sz SA SB HA HB Hsmall Hnd)
    as (inds & E & Hr & Hi).
  eexists. eexists. split; [apply initiate_small; assumption |].
  split; [exact E |].
  apply reconcile_have_need_small; assumption.
Qed.

(** ** Instances *)

Lemma sample_elem_ok t b : 0 <= t < MAX_U64 -> item_ok 8 (sample_elem t b).
Proof.
  intros Ht. split; [| split; [reflexivity | exact Ht]].
  apply elem_of_wf. cbn. lia.
Qed.

Lemma sample_left_ok : Forall (item_ok 8) sample_left.
Proof.
  repeat constructor; apply sample_elem_ok; unfold MAX_U64, U64; lia.
Qed.

Lemma sample_right_ok : Forall (item_ok 8) sample_right.
Proof.
  repeat constructor; apply sample_elem_ok; unfold MAX_U64, U64; lia.
Qed.

Lemma sample_left_sorted : sorted sample_left.
Proof. cbn. repeat constructor. Qed.

Lemma sample_right_sorted : sorted sample_right.
Proof. cbn. repeat constructor. Qed.

Lemma sample_sealed_invariant : invariant sample_sealed.
Proof.
  split; [cbn; lia |]. split.
  - apply (Forall_impl _ (P := item_ok 8)); [| exact sample_left_ok].
    intros e H. apply H.
  - split; [intros _; exact sample_left_sorted | left; reflexivity].
Qed.

Lemma seal_sorts_witness :
  seal sample_unsealed = Ok sample_sealed /\
  sorted (items sample_sealed) /\
  Permutation (items sample_sealed) (items sample_unsealed).
Proof.
  split; [reflexivity |].
  destruct (seal_sorts sample_unsealed sample_sealed eq_refl)
    as (_ & Hs & Hp & _).
  split; [exact Hs | exact Hp].
Defined.

Lemma seal_order_independent_witness :
  Permutation sample_adds (rev sample_adds) /\
  sample_sealed =
  mkNegentropy 8 (sort (rev (map elem_of (rev sample_adds)))) true false 0 [].
Proof.
  split; [apply perm_swap |].
  apply (seal_order_independent 8 sample_adds (rev sample_adds)
           (mkNegentropy 8 [] false false 0 [])
           sample_unsealed
           (mkNegentropy 8 (map elem_of (rev sample_adds)) false false 0 [])).
  - reflexivity.
  - reflexivity.
  - reflexivity.
  - apply perm_swap.
  - reflexivity.
  - reflexivity.
Defined.

Lemma upper_bound_partition_witness :
  upper_bound sample_items 0 (empty_bound 5) = 5%nat /\
  forall i, (0 <= i < 5)%nat ->
            XorElem.ltb (empty_bound 5) (item_at sample_items i) = false.
Proof.
  split; [reflexivity |].
  destruct (upper_bound_partition sample_items 0 (empty_bound 5))
    as (_ & H & _).
  - simpl. lia.
  - exact H.
Defined.

Lemma fingerprint_of_multiset_witness :
  xor_range sample_left 0 2 = xor_range (rev sample_left) 0 2 /\
  xor_range (sample_elem 1 65 :: sample_elem 1 65 :: sample_left) 0 4 =
  xor_range sample_left 0 2.
Proof.
  split.
  - destruct (fingerprint_of_multiset sample_left (rev sample_left) 0 2 0 2
                (sample_elem 1 65)) as [H _]; [reflexivity |].
    apply H. simpl. apply perm_swap.
  - destruct (fingerprint_of_multiset
                (sample_elem 1 65 :: sample_elem 1 65 :: sample_left)
                sample_left 0 4 0 2 (sample_elem 1 65)) as [_ H];
      [reflexivity |].
    apply H. simpl. apply Permutation_refl.
Defined.

Lemma bit_field_round_trip_witness :
  (bitFieldLookup (encodeBitField [0; 9]) 9 = true <-> In 9 [0; 9]) /\
  (bitFieldLookup (encodeBitField [0; 9]) 8 = true <-> In 8 [0; 9]).
Proof.
  split.
  - apply (bit_field_round_trip [0; 9] 9).
    + repeat constructor; unfold U64; lia.
    + unfold U64; lia.
  - apply (bit_field_round_trip [0; 9] 8).
    + repeat constructor; unfold U64; lia.
    + unfold U64; lia.
Defined.

Lemma encodeVarInt_self_delimiting_witness :
  (1 <= length (encodeVarInt 300) <= 10)%nat /\
  Forall (fun b => 0 <= b < 256) (encodeVarInt 300).
Proof.
  destruct (encodeVarInt_self_delimiting 300) as (H1 & H2 & _).
  - lia.
  - split; [exact H1 | exact H2].
Defined.

Lemma bound_round_trip_witness :
  decodeBound (fst (encodeBound 8 (sample_elem 5 65) 3) ++ [7]) 3
  = Ok (sample_elem 5 65, [7], 5).
Proof.
  apply (bound_round_trip 8 (sample_elem 5 65) 3 [7]).
  - apply elem_of_wf. cbn. lia.
  - cbn. lia.
  - cbn. lia.
  - cbn. lia.
Defined.

Lemma initiator_never_queues_response_witness :
  reconcile_have_need insertion_order sample_initiator
    sample_fingerprint_frame [] [] =
  Ok ([0; 0; 2; 2] ++ repeat 65 8%nat ++ repeat 66 8%nat, [], [],
      sample_initiator) /\
  exists emitted,
    emitted <> [] /\
    [0; 0; 2; 2] ++ repeat 65 8%nat ++ repeat 66 8%nat =
      frame_of (idSize sample_initiator) emitted (empty_bound 0) 0 /\
    Forall (fun r => payload_mode r 1 \/ payload_mode r 2) emitted /\
    Forall (queued_mode_ok true) (pendingOutputs sample_initiator) /\
    pendingOutputs sample_initiator <> [].
Proof.
  split; [reflexivity |].
  destruct (proj1 (initiator_never_queues_response insertion_order
                     sample_initiator sample_fingerprint_frame [] [])
              ([0; 0; 2; 2] ++ repeat 65 8%nat ++ repeat 66 8%nat) [] []
              sample_initiator) as (emitted & Hf & He & Hq).
  - reflexivity.
  - constructor; [| constructor]. left. eexists. reflexivity.
  - exists emitted. split; [| split; [exact Hf |]].
    + intros ->. discriminate Hf.
    + split; [exact He |]. split; [exact Hq | discriminate].
Defined.

Lemma reconcile_consumes_frame_witness :
  exists w,
    walk_steps insertion_order sample_responder (walk0 sample_frame [] []) w /\
    query w = [] /\
    exists emitted,
      outputs w ++ pendingOutputs sample_responder
        = emitted ++ pendingOutputs sample_responder /\
      [5; 0; 0; 0; 0; 3; 0; 0]
        = frame_of (idSize sample_responder) emitted (empty_bound 0) 0.
Proof.
  apply (proj1 (reconcile_consumes_frame insertion_order sample_responder
                  sample_frame)
           [5; 0; 0; 0; 0; 3; 0; 0] sample_responder).
  reflexivity.
Defined.

Lemma initiate_succeeds_witness :
  exists queue frame st',
    splitRange (idSize sample_sealed) (items sample_sealed) 0
      (length (items sample_sealed)) (empty_bound 0) (empty_bound MAX_U64)
      (pendingOutputs sample_sealed) = Ok queue /\
    initiate sample_sealed 0 = Ok (frame, st') /\
    isInitiator st' = true /\ frameSizeLimit st' = 0 /\
    (forall map_order query,
        reconcile map_order st' query
        = Err "initiator not asking for have/need IDs"%string) /\
    (0 = 0 -> pendingOutputs sample_sealed = [] ->
     frame = frame_of (idSize sample_sealed) queue (empty_bound 0) 0 /\
     pendingOutputs st' = []).
Proof.
  apply (initiate_succeeds sample_sealed 0).
  - exact sample_sealed_invariant.
  - reflexivity.
  - left. reflexivity.
Defined.

Lemma small_sets_reconcile_in_one_round_witness :
  exists f0 f1,
    initiate (peer 8 sample_left false) 0 = Ok (f0, peer 8 sample_left true) /\
    reconcile insertion_order (peer 8 sample_right false) f0
      = Ok (f1, peer 8 sample_right false) /\
    reconcile_have_need insertion_order (peer 8 sample_left true) f1 [] [] =
    Ok ([], [repeat 65 8%nat], [repeat 67 8%nat], peer 8 sample_left true).
Proof.
  apply (small_sets_reconcile_in_one_round insertion_order 8 sample_left
           sample_right).
  - exact insertion_order_ok.
  - lia.
  - exact sample_left_ok.
  - exact sample_right_ok.
  - exact sample_left_sorted.
  - exact sample_right_sorted.
  - simpl. lia.
  - unfold zlen, U64. simpl. lia.
  - repeat constructor; simpl; intuition discriminate.
Defined.
